(** * Teaching circuits (adder / counter / blinker, PWM ramp, block RAM,
      debounced FSM) over a current/next signal kernel.

    The circuits of [blinker.py], [pwm.py], [block_ram.py] and [fsm.py] are
    written against the pygmyhdl hardware-description layer.  That layer is
    imported, not part of the sources, so its evaluation rules are modelled
    in [Kernel] from the specification (sections 3, 4.2, 4.3 and 9); the
    circuits themselves are transcribed from their Python text, one logic
    block per decorated function. *)

From Stdlib Require Import ZArith List Bool Lia Permutation.
Import ListNotations.
Local Open Scope Z_scope.

(* ===================================================================== *)
(** * The kernel: signals, logic blocks, clock edges, settling            *)
(* ===================================================================== *)

Module Kernel.

(** Modelled from the spec: edge polarity of a sequential block
    (section 3, "bound to a specific clock Signal and edge polarity"). *)
Inductive Polarity : Type := Rising | Falling.

Definition Polarity_eqb (p q : Polarity) : bool :=
  match p, q with
  | Rising, Rising | Falling, Falling => true
  | _, _ => false
  end.

Section WithSignals.

(** Signals are compared by identity; every signal has a bit width. *)
Variable Sig : Type.
Variable sig_eq_dec : forall x y : Sig, {x = y} + {x <> y}.
Variable width : Sig -> Z.

(** Modelled from the spec: the signal store (section 3, "Signal").
    Every signal holds a current value, visible to readers, and a next
    value, the one scheduled to become current. *)
Record Store : Type := mkStore { cur : Sig -> Z; nxt : Sig -> Z }.

(** Modelled from the spec: width-preserving values (section 4.1,
    "wraparound at 2^w"); an integer scheduled on a [w]-bit signal is
    reduced modulo [2^w]. *)
Definition wrap (w v : Z) : Z := v mod 2 ^ w.

(** Modelled from the spec: [scheduleNext] (section 4.2) touches the
    next slot of one signal and nothing else. *)
Definition schedule (x : Sig) (v : Z) (s : Store) : Store :=
  {| cur := cur s;
     nxt := fun y => if sig_eq_dec y x then wrap (width x) v else nxt s y |}.

(** Modelled from the spec: [commit] (section 4.2) moves every scheduled
    next value into current; the next slot keeps what it held. *)
Definition commit (s : Store) : Store :=
  {| cur := nxt s; nxt := nxt s |}.

(** Modelled from the spec: the body of a logic block (section 3, "Logic
    Block", and section 4.2): a program that may read the current value of
    a signal ([sig] in an expression), read its next slot ([sig.next] in
    an expression) and assign its next slot ([sig.next = v]). *)
Inductive Prog (A : Type) : Type :=
| Ret (a : A)
| Read (x : Sig) (k : Z -> Prog A)
| ReadNext (x : Sig) (k : Z -> Prog A)
| SetNext (x : Sig) (v : Z) (k : Prog A).

Arguments Ret {A} a.
Arguments Read {A} x k.
Arguments ReadNext {A} x k.
Arguments SetNext {A} x v k.

Fixpoint bind {A B : Type} (p : Prog A) (f : A -> Prog B) : Prog B :=
  match p with
  | Ret a => f a
  | Read x k => Read x (fun z => bind (k z) f)
  | ReadNext x k => ReadNext x (fun z => bind (k z) f)
  | SetNext x v k => SetNext x v (bind k f)
  end.

Definition get (x : Sig) : Prog Z := Read x (fun z => Ret z).
Definition get_next (x : Sig) : Prog Z := ReadNext x (fun z => Ret z).
Definition set (x : Sig) (v : Z) : Prog unit := SetNext x v (Ret tt).
Definition skip : Prog unit := Ret tt.

(** Modelled from the spec: running a block body against the store
    (section 4.2): [read] returns the current value, an assignment goes
    through [schedule]. *)
Fixpoint exec {A : Type} (p : Prog A) (s : Store) : A * Store :=
  match p with
  | Ret a => (a, s)
  | Read x k => exec (k (cur s x)) s
  | ReadNext x k => exec (k (nxt s x)) s
  | SetNext x v k => exec k (schedule x v s)
  end.

(** What a run observes through current-value reads, in order. *)
Fixpoint reads {A : Type} (p : Prog A) (s : Store) : list (Sig * Z) :=
  match p with
  | Ret _ => []
  | Read x k => (x, cur s x) :: reads (k (cur s x)) s
  | ReadNext x k => reads (k (nxt s x)) s
  | SetNext x v k => reads k (schedule x v s)
  end.

(** The next slots a run assigns, in order. *)
Fixpoint assigns {A : Type} (p : Prog A) (s : Store) : list Sig :=
  match p with
  | Ret _ => []
  | Read x k => assigns (k (cur s x)) s
  | ReadNext x k => assigns (k (nxt s x)) s
  | SetNext x v k => x :: assigns k (schedule x v s)
  end.

(** Modelled from the spec: a logic block is combinational or
    sequential, the latter bound to a clock and a polarity
    (section 3, "Logic Block"). *)
Inductive Trigger : Type :=
| Comb
| Seq (clk : Sig) (pol : Polarity).

Record LogicBlock : Type := mkBlock { trigger : Trigger; body : Prog unit }.

Definition is_comb (b : LogicBlock) : bool :=
  match trigger b with Comb => true | Seq _ _ => false end.

Definition fires_on (clk : Sig) (pol : Polarity) (b : LogicBlock) : bool :=
  match trigger b with
  | Comb => false
  | Seq c p => if sig_eq_dec c clk then Polarity_eqb p pol else false
  end.

(** Modelled from the spec: the blocks of one round are evaluated one
    after the other on the same store, before any commit (section 4.3). *)
Fixpoint run_blocks (bs : list (Prog unit)) (s : Store) : Store :=
  match bs with
  | [] => s
  | b :: rest => run_blocks rest (snd (exec b s))
  end.

(** Signals assigned while a list of bodies is evaluated. *)
Fixpoint driven (bs : list (Prog unit)) (s : Store) : list Sig :=
  match bs with
  | [] => []
  | b :: rest => assigns b s ++ driven rest (snd (exec b s))
  end.

(** Modelled from the spec: a clock edge (section 4.3, "Sequential").
    Every sequential block bound to that clock and polarity is
    evaluated, then all next slots are committed together. *)
Definition edge_bodies (d : list LogicBlock) (clk : Sig) (pol : Polarity)
  : list (Prog unit) :=
  map body (filter (fires_on clk pol) d).

Definition clock_edge (d : list LogicBlock) (clk : Sig) (pol : Polarity)
           (s : Store) : Store :=
  commit (run_blocks (edge_bodies d clk pol) s).

(** Modelled from the spec: one round of the combinational blocks
    (section 4.3, "Combinational"), followed by a commit. *)
Definition comb_bodies (d : list LogicBlock) : list (Prog unit) :=
  map body (filter is_comb d).

Definition comb_round (d : list LogicBlock) (s : Store) : Store :=
  commit (run_blocks (comb_bodies d) s).

Definition unchanged (signals : list Sig) (s s' : Store) : bool :=
  forallb (fun x => cur s x =? cur s' x) signals.

(** Modelled from the spec: the outcome of settling; [NoFixedPoint] is
    the error of section 7. *)
Inductive Outcome : Type :=
| Settled (s : Store)
| NoFixedPoint.

(** Modelled from the spec: the settle loop (section 4.3).  Rounds are
    repeated until no current value of the design changes, at most
    [fuel] times. *)
Fixpoint settle (fuel : nat) (signals : list Sig) (d : list LogicBlock)
         (s : Store) : Outcome :=
  match fuel with
  | O => NoFixedPoint
  | S fuel' =>
      let s' := comb_round d s in
      if unchanged signals s s' then Settled s'
      else settle fuel' signals d s'
  end.

(** Modelled from the spec: stimulus injection (section 5) schedules
    values like any other writer; they become current at the commit that
    precedes the clock edge. *)
Fixpoint drive (stim : list (Sig * Z)) (s : Store) : Store :=
  match stim with
  | [] => s
  | (x, v) :: rest => drive rest (schedule x v s)
  end.

(** Modelled from the spec: a bus is composed of single-bit signals
    (section 3, "Signal"); reading the bus as a whole yields the composite
    value of its [n] low bits. *)
Fixpoint get_bus (bits : nat -> Sig) (n : nat) : Prog Z :=
  match n with
  | O => Ret 0
  | S m => bind (get_bus bits m) (fun lo =>
           bind (get (bits m)) (fun b => Ret (lo + b * 2 ^ Z.of_nat m)))
  end.

(** The composite value of a bus in a store, and the stimulus that puts an
    integer on a bus, bit by bit. *)
Fixpoint bus_value (bits : nat -> Sig) (n : nat) (s : Store) : Z :=
  match n with
  | O => 0
  | S m => bus_value bits m s + cur s (bits m) * 2 ^ Z.of_nat m
  end.

Definition bus_stimulus (bits : nat -> Sig) (n : nat) (v : Z) : list (Sig * Z) :=
  map (fun k => (bits k, Z.b2z (Z.testbit v (Z.of_nat k)))) (seq 0 n).

(** Modelled from the spec: one clock cycle of a test bench (section 5,
    ordering guarantee 3, and the stimulus boundary of section 6).  The
    stimulus and the low clock level are scheduled and committed and the
    combinational blocks settle; the clock is raised, the rising-edge blocks
    are evaluated and committed, and the combinational blocks settle
    again. *)
Definition tick (fuel : nat) (signals : list Sig) (d : list LogicBlock)
           (clk : Sig) (stim : list (Sig * Z)) (s : Store) : Outcome :=
  match settle fuel signals d (commit (drive (stim ++ [(clk, 0)]) s)) with
  | NoFixedPoint => NoFixedPoint
  | Settled s1 =>
      settle fuel signals d
             (clock_edge d clk Rising (commit (drive [(clk, 1)] s1)))
  end.

Fixpoint simulate (fuel : nat) (signals : list Sig) (d : list LogicBlock)
         (clk : Sig) (tb : list (list (Sig * Z))) (s : Store) : Outcome :=
  match tb with
  | [] => Settled s
  | stim :: rest =>
      match tick fuel signals d clk stim s with
      | NoFixedPoint => NoFixedPoint
      | Settled s' => simulate fuel signals d clk rest s'
      end
  end.

(** A run from power-up: the combinational blocks settle at time zero,
    then the test bench is played. *)
Definition run (fuel : nat) (signals : list Sig) (d : list LogicBlock)
           (clk : Sig) (tb : list (list (Sig * Z))) (s0 : Store) : Outcome :=
  match settle fuel signals d s0 with
  | NoFixedPoint => NoFixedPoint
  | Settled s => simulate fuel signals d clk tb s
  end.

(** Reading a signal off an outcome. *)
Definition probe (x : Sig) (o : Outcome) : option Z :=
  match o with
  | Settled s => Some (cur s x)
  | NoFixedPoint => None
  end.

(** The value a run leaves in the next slot of [x], if the run assigns
    it at all: the last assignment wins. *)
Fixpoint last_set {A : Type} (p : Prog A) (s : Store) (x : Sig) : option Z :=
  match p with
  | Ret _ => None
  | Read y k => last_set (k (cur s y)) s x
  | ReadNext y k => last_set (k (nxt s y)) s x
  | SetNext y v k =>
      match last_set k (schedule y v s) x with
      | Some w => Some w
      | None => if sig_eq_dec x y then Some (wrap (width y) v) else None
      end
  end.

(** A store with nothing pending: every next slot equals the current
    value, as after any commit. *)
Definition quiet (s : Store) : Prop := forall x, nxt s x = cur s x.

(** Pointwise equality of stores. *)
Definition store_eq (s1 s2 : Store) : Prop :=
  (forall x, cur s1 x = cur s2 x) /\ (forall x, nxt s1 x = nxt s2 x).

(** A body that never looks at a next slot. *)
Inductive no_peek {A : Type} : Prog A -> Prop :=
| np_ret : forall a, no_peek (Ret a)
| np_read : forall x k, (forall z, no_peek (k z)) -> no_peek (Read x k)
| np_set : forall x v k, no_peek k -> no_peek (SetNext x v k).

(** A body that can assign the next slot of [x] on some run. *)
Inductive may_set {A : Type} (x : Sig) : Prog A -> Prop :=
| ms_here : forall v k, may_set x (SetNext x v k)
| ms_set : forall y v k, may_set x k -> may_set x (SetNext y v k)
| ms_read : forall y k z, may_set x (k z) -> may_set x (Read y k)
| ms_peek : forall y k z, may_set x (k z) -> may_set x (ReadNext y k).

(** Modelled from the spec: the single-driver rule (section 3, "at most
    one Logic Block may drive a given Signal"). *)
Definition disjoint_drivers (p q : Prog unit) : Prop :=
  forall x, may_set x p -> may_set x q -> False.

Fixpoint single_driver (bs : list (Prog unit)) : Prop :=
  match bs with
  | [] => True
  | b :: rest => Forall (disjoint_drivers b) rest /\ single_driver rest
  end.

End WithSignals.

Arguments mkStore {Sig} cur nxt.
Arguments cur {Sig} _ _.
Arguments nxt {Sig} _ _.
Arguments schedule {Sig} sig_eq_dec width x v s.
Arguments commit {Sig} s.
Arguments Ret {Sig A} a.
Arguments Read {Sig A} x k.
Arguments ReadNext {Sig A} x k.
Arguments SetNext {Sig A} x v k.
Arguments bind {Sig A B} p f.
Arguments get {Sig} x.
Arguments get_next {Sig} x.
Arguments set {Sig} x v.
Arguments skip {Sig}.
Arguments exec {Sig} sig_eq_dec width {A} p s.
Arguments reads {Sig} sig_eq_dec width {A} p s.
Arguments assigns {Sig} sig_eq_dec width {A} p s.
Arguments Comb {Sig}.
Arguments Seq {Sig} clk pol.
Arguments mkBlock {Sig} trigger body.
Arguments trigger {Sig} _.
Arguments body {Sig} _.
Arguments is_comb {Sig} b.
Arguments fires_on {Sig} sig_eq_dec clk pol b.
Arguments run_blocks {Sig} sig_eq_dec width bs s.
Arguments driven {Sig} sig_eq_dec width bs s.
Arguments edge_bodies {Sig} sig_eq_dec d clk pol.
Arguments clock_edge {Sig} sig_eq_dec width d clk pol s.
Arguments comb_bodies {Sig} d.
Arguments comb_round {Sig} sig_eq_dec width d s.
Arguments unchanged {Sig} signals s s'.
Arguments Settled {Sig} s.
Arguments NoFixedPoint {Sig}.
Arguments settle {Sig} sig_eq_dec width fuel signals d s.
Arguments drive {Sig} sig_eq_dec width stim s.
Arguments get_bus {Sig} bits n.
Arguments bus_value {Sig} bits n s.
Arguments bus_stimulus {Sig} bits n v.
Arguments tick {Sig} sig_eq_dec width fuel signals d clk stim s.
Arguments simulate {Sig} sig_eq_dec width fuel signals d clk tb s.
Arguments run {Sig} sig_eq_dec width fuel signals d clk tb s0.
Arguments probe {Sig} x o.
Arguments last_set {Sig} sig_eq_dec width {A} p s x.
Arguments quiet {Sig} s.
Arguments store_eq {Sig} s1 s2.
Arguments no_peek {Sig A} p.
Arguments may_set {Sig A} x p.
Arguments disjoint_drivers {Sig} p q.
Arguments single_driver {Sig} bs.

Declare Scope prog_scope.
Delimit Scope prog_scope with prog.
Notation "x <- p ;; q" := (bind p (fun x => q))
  (at level 61, p at next level, right associativity) : prog_scope.
Notation "p ;; q" := (bind p (fun _ => q))
  (at level 61, right associativity) : prog_scope.

End Kernel.

(* ===================================================================== *)
(** * blinker.py: flip-flop, register, ripple-carry adder, counter       *)
(* ===================================================================== *)

Module Blinker.
Import Kernel.
Local Open Scope prog_scope.

Section Chunks.

Context {Sig : Type}.

(** [dff]: a rising edge on [clk_i] stores [d_i] into [q_o]. *)
Definition dff (clk_i d_i q_o : Sig) : list (LogicBlock Sig) :=
  [ mkBlock (Seq clk_i Rising) (d <- get d_i ;; set q_o d) ].

(** [register]: one [dff] per bit of the bus. *)
Definition register (clk_i : Sig) (d_i q_o : nat -> Sig) (len : nat)
  : list (LogicBlock Sig) :=
  flat_map (fun k => dff clk_i (d_i k) (q_o k)) (seq 0 len).

(** The two assignments of [full_adder_bit.logic]. *)
Definition full_adder_logic (a_i b_i c_i s_o c_o : Sig) : Prog Sig unit :=
  a <- get a_i ;; b <- get b_i ;; c <- get c_i ;;
  set s_o (Z.lxor (Z.lxor a b) c) ;;
  a1 <- get a_i ;; b1 <- get b_i ;; a2 <- get a_i ;; c2 <- get c_i ;;
  b3 <- get b_i ;; c3 <- get c_i ;;
  set c_o (Z.lor (Z.lor (Z.land a1 b1) (Z.land a2 c2)) (Z.land b3 c3)).

Definition full_adder_bit (a_i b_i c_i s_o c_o : Sig) : list (LogicBlock Sig) :=
  [ mkBlock Comb (full_adder_logic a_i b_i c_i s_o c_o) ].

(** [adder]: the carry bus [c] has one more bit than there are stages;
    its bit 0 is tied to the constant 0 ([c.i[0] = 0]) and stage [k] sends
    its carry to bit [k+1]. *)
Definition adder (a_i b_i s_o : nat -> Sig) (len : nat) (c : nat -> Sig)
  : list (LogicBlock Sig) :=
  mkBlock Comb (set (c O) 0)
  :: flat_map (fun k => full_adder_bit (a_i k) (b_i k) (c k) (s_o k) (c (S k)))
              (seq 0 len).

(** [counter]: [one] carries the constant 1; the adder computes
    [next_cnt = one + cnt_o] and the register loads it on the rising
    edge. *)
Definition counter (clk_i : Sig) (cnt_o : nat -> Sig) (length : nat)
           (one next_cnt c : nat -> Sig) : list (LogicBlock Sig) :=
  adder one cnt_o next_cnt length c ++ register clk_i next_cnt cnt_o length.

(** [blinker]: the LED shows the most significant counter bit. *)
Definition blinker (clk_i led_o : Sig) (length : nat)
           (cnt one next_cnt c : nat -> Sig) : list (LogicBlock Sig) :=
  counter clk_i cnt length one next_cnt c
  ++ [ mkBlock Comb (b <- get (cnt (length - 1)%nat) ;; set led_o b) ].

End Chunks.

(** ** The adder on its own, between an [a], a [b] and an [s] bus *)

Module AdderBench.

Inductive sig : Type :=
| a_i (k : nat)
| b_i (k : nat)
| s_o (k : nat)
| c (k : nat).

Definition sig_eq_dec (x y : sig) : {x = y} + {x <> y}.
Proof. decide equality; apply Nat.eq_dec. Defined.

Definition width (_ : sig) : Z := 1.

Definition design (n : nat) : list (LogicBlock sig) := adder a_i b_i s_o n c.

Definition signals (n : nat) : list sig :=
  map a_i (seq 0 n) ++ map b_i (seq 0 n) ++ map s_o (seq 0 n)
  ++ map c (seq 0 (S n)).

(** The inputs [a] and [b] are on their buses, in both slots. *)
Definition inputs_hold (n : nat) (a b : Z) (s : Store sig) : Prop :=
  forall k, (k < n)%nat ->
    cur s (a_i k) = Z.b2z (Z.testbit a (Z.of_nat k)) /\
    nxt s (a_i k) = Z.b2z (Z.testbit a (Z.of_nat k)) /\
    cur s (b_i k) = Z.b2z (Z.testbit b (Z.of_nat k)) /\
    nxt s (b_i k) = Z.b2z (Z.testbit b (Z.of_nat k)).

(** The carry into stage [k] and the sum bit of stage [k] when [a] and
    [b] are added bit by bit, as booleans; and the integer a run of bits
    stands for. *)
Fixpoint carry (a b : Z) (k : nat) : bool :=
  match k with
  | O => false
  | S j =>
      let x := Z.testbit a (Z.of_nat j) in
      let y := Z.testbit b (Z.of_nat j) in
      (x && y) || (x && carry a b j) || (y && carry a b j)
  end.

Definition sum_bit (a b : Z) (k : nat) : bool :=
  xorb (xorb (Z.testbit a (Z.of_nat k)) (Z.testbit b (Z.of_nat k)))
       (carry a b k).

Fixpoint bits_value (f : nat -> bool) (n : nat) : Z :=
  match n with
  | O => 0
  | S m => bits_value f m + Z.b2z (f m) * 2 ^ Z.of_nat m
  end.

(** The store is right up to round [j] of the ripple: the carries below
    [j] and the sum bits below [j - 1] have their final values. *)
Definition rippled (n : nat) (a b : Z) (j : nat) (s : Store sig) : Prop :=
  inputs_hold n a b s /\
  (forall k, (k <= n)%nat -> (k < j)%nat ->
     cur s (c k) = Z.b2z (carry a b k)) /\
  (forall k, (k < n)%nat -> (S k < j)%nat ->
     cur s (s_o k) = Z.b2z (sum_bit a b k)).

(** A store with [a] and [b] applied and every other signal at 0. *)
Definition applied (a b : Z) : Store sig :=
  let v x := match x with
             | a_i k => Z.b2z (Z.testbit a (Z.of_nat k))
             | b_i k => Z.b2z (Z.testbit b (Z.of_nat k))
             | _ => 0
             end in
  mkStore v v.

End AdderBench.

(** ** The three-bit blinker of the script *)

Module Top.

Inductive sig : Type :=
| clk
| led
| cnt (k : nat)
| one (k : nat)
| next_cnt (k : nat)
| c (k : nat).

Definition sig_eq_dec (x y : sig) : {x = y} + {x <> y}.
Proof. decide equality; apply Nat.eq_dec. Defined.

Definition width (_ : sig) : Z := 1.

Definition design (length : nat) : list (LogicBlock sig) :=
  blinker clk led length cnt one next_cnt c.

Definition signals (length : nat) : list sig :=
  clk :: led :: map cnt (seq 0 length) ++ map one (seq 0 length)
  ++ map next_cnt (seq 0 length) ++ map c (seq 0 (S length)).

(** [Bus(length, init_val=1)] for [one]; every other signal starts at 0. *)
Definition power_up : Store sig :=
  let v x := match x with
             | one k => Z.b2z (Z.testbit 1 (Z.of_nat k))
             | _ => 0
             end in
  mkStore v v.

(** [clk_sim(clk, num_cycles)]: clock pulses and no other stimulus. *)
Definition clk_sim (fuel : nat) (length num_cycles : nat) : Outcome sig :=
  run sig_eq_dec width fuel (signals length) (design length) clk
      (repeat [] num_cycles) power_up.

Definition cnt_value (length : nat) (o : Outcome sig) : option Z :=
  match o with
  | Settled s => Some (bus_value cnt length s)
  | NoFixedPoint => None
  end.

End Top.

(** ** A register on its own, between a [d] and a [q] bus *)

Module RegBench.

Inductive sig : Type :=
| clk
| d (k : nat)
| q (k : nat).

Definition sig_eq_dec (x y : sig) : {x = y} + {x <> y}.
Proof. decide equality; apply Nat.eq_dec. Defined.

Definition width (_ : sig) : Z := 1.

Definition design (len : nat) : list (LogicBlock sig) := register clk d q len.

End RegBench.

End Blinker.

(* ===================================================================== *)
(** * pwm.py: the triangle ramp                                          *)
(* ===================================================================== *)

Module Pwm.
Import Kernel.
Local Open Scope prog_scope.

Inductive sig : Type := clk | ramp_o | delta.

Definition sig_eq_dec (x y : sig) : {x = y} + {x <> y}.
Proof. decide equality. Defined.

Section Ramp.

(** [len(ramp_o)]; [delta = Bus(len(ramp_o))] has the same width. *)
Variable len : Z.

Definition width (x : sig) : Z :=
  match x with clk => 1 | ramp_o => len | delta => len end.

(** [ramp_o.max]: one past the largest value of the bus. *)
Definition ramp_max : Z := 2 ^ len.

(** [ramp.logic]. *)
Definition logic : Prog sig unit :=
  r <- get ramp_o ;; d <- get delta ;;
  set ramp_o (r + d) ;;
  r1 <- get ramp_o ;;
  if r1 =? 1 then set delta 1
  else
    r2 <- get ramp_o ;;
    if r2 =? ramp_max - 2 then set delta (-1)
    else
      d0 <- get delta ;;
      if d0 =? 0 then (set delta 1 ;; set ramp_o 1)
      else skip.

Definition ramp : list (LogicBlock sig) :=
  [ mkBlock (Seq clk Rising) logic ].

Definition signals : list sig := [clk; ramp_o; delta].

(** After configuration every register holds 0. *)
Definition power_up : Store sig := mkStore (fun _ => 0) (fun _ => 0).

(** [clk_sim(clk, num_cycles)]. *)
Definition clk_sim (fuel : nat) (num_cycles : nat) : Outcome sig :=
  run sig_eq_dec width fuel signals ramp clk (repeat [] num_cycles) power_up.

(** The two registers of the ramp, and what one rising edge does to
    them. *)
Definition view (s : Store sig) : Z * Z := (cur s ramp_o, cur s delta).

Definition step (r : Z * Z) : Z * Z :=
  let '(v, d) := r in
  if v =? 1 then (wrap len (v + d), wrap len 1)
  else if v =? ramp_max - 2 then (wrap len (v + d), wrap len (-1))
  else if d =? 0 then (wrap len 1, wrap len 1)
  else (wrap len (v + d), d).

(** The triangle wave that rises from 0 to [ramp_max - 1] and falls back,
    with period [2 * (ramp_max - 1)]; [phase_regs] gives both registers at
    each point of the period. *)
Definition period : Z := 2 * (ramp_max - 1).

Definition triangle (n : Z) : Z :=
  let ph := n mod period in
  if ph <=? ramp_max - 1 then ph else period - ph.

Definition phase_regs (ph : Z) : Z * Z :=
  if ph <? ramp_max - 1 then (ph, 1) else (period - ph, ramp_max - 1).

End Ramp.

(** ** [pwm_simple]: a free-running counter compared with a threshold *)

Module Simple.

Inductive sig : Type := clk | pwm_o | threshold | cnt.

Definition sig_eq_dec (x y : sig) : {x = y} + {x <> y}.
Proof. decide equality. Defined.

Section Width.

(** [len(threshold)]; [cnt = Bus(len(threshold))]. *)
Variable len : Z.

Definition width (x : sig) : Z :=
  match x with clk | pwm_o => 1 | threshold | cnt => len end.

(** [pwm_simple.cntr_logic]. *)
Definition cntr_logic : Prog sig unit :=
  c <- get cnt ;; set cnt (c + 1).

(** [pwm_simple.output_logic]: [cnt < threshold] is True (1) or
    False (0). *)
Definition output_logic : Prog sig unit :=
  c <- get cnt ;; t <- get threshold ;; set pwm_o (Z.b2z (c <? t)).

Definition pwm_simple : list (LogicBlock sig) :=
  [ mkBlock (Seq clk Rising) cntr_logic; mkBlock Comb output_logic ].

Definition signals : list sig := [clk; pwm_o; threshold; cnt].

(** The threshold bus carries [th], a value of [len] bits
    ([0 <= th < 2 ^ len]); the other signals start at 0. *)
Definition power_up (th : Z) : Store sig :=
  let v x := match x with threshold => th | _ => 0 end in
  mkStore v v.

Definition clk_sim (fuel : nat) (th : Z) (num_cycles : nat) : Outcome sig :=
  run sig_eq_dec width fuel signals pwm_simple clk (repeat [] num_cycles)
      (power_up th).

(** Whether the output is high at the end of a run, and the number of
    high instants among the first [n] of a simulation. *)
Definition is_high (o : Outcome sig) : bool :=
  match probe pwm_o o with
  | Some v => v =? 1
  | None => false
  end.

Definition high_cycles (fuel : nat) (th : Z) (n : nat) : nat :=
  length (filter (fun k => is_high (clk_sim fuel th k)) (seq 0 n)).

End Width.

(** The registers of a settled store: the counter reads [v], the
    threshold bus carries [th] and the output compares them. *)
Definition compares (th v : Z) (s : Store sig) : Prop :=
  quiet s /\ cur s cnt = v /\ cur s threshold = th /\
  cur s pwm_o = Z.b2z (v <? th).

End Simple.

End Pwm.

(* ===================================================================== *)
(** * block_ram.py: single-port and dual-port RAM, reset generator       *)
(* ===================================================================== *)

Module BlockRam.
Import Kernel.
Local Open Scope prog_scope.

Section Chunks.

Context {Sig : Type}.

(** [ram.logic]: a cycle either writes or reads. *)
Definition ram_logic (wr_i addr_i data_i data_o : Sig) (mem : Z -> Sig)
  : Prog Sig unit :=
  w <- get wr_i ;;
  if negb (w =? 0) then
    d <- get data_i ;; a <- get addr_i ;; set (mem a) d
  else
    a <- get addr_i ;; m <- get (mem a) ;; set data_o m.

Definition ram (clk_i wr_i addr_i data_i data_o : Sig) (mem : Z -> Sig)
  : list (LogicBlock Sig) :=
  [ mkBlock (Seq clk_i Rising) (ram_logic wr_i addr_i data_i data_o mem) ].

(** [simpler_ram.logic]: the addressed location is always read out. *)
Definition simpler_ram_logic (wr_i addr_i data_i data_o : Sig) (mem : Z -> Sig)
  : Prog Sig unit :=
  w <- get wr_i ;;
  (if negb (w =? 0) then
     d <- get data_i ;; a <- get addr_i ;; set (mem a) d
   else skip) ;;
  a <- get addr_i ;; m <- get (mem a) ;; set data_o m.

Definition simpler_ram (clk_i wr_i addr_i data_i data_o : Sig) (mem : Z -> Sig)
  : list (LogicBlock Sig) :=
  [ mkBlock (Seq clk_i Rising)
            (simpler_ram_logic wr_i addr_i data_i data_o mem) ].

(** [dualport_ram.logic]: separate write and read addresses. *)
Definition dualport_ram_logic (wr_i wr_addr_i rd_addr_i data_i data_o : Sig)
           (mem : Z -> Sig) : Prog Sig unit :=
  w <- get wr_i ;;
  (if negb (w =? 0) then
     d <- get data_i ;; a <- get wr_addr_i ;; set (mem a) d
   else skip) ;;
  a <- get rd_addr_i ;; m <- get (mem a) ;; set data_o m.

Definition dualport_ram (clk_i wr_i wr_addr_i rd_addr_i data_i data_o : Sig)
           (mem : Z -> Sig) : list (LogicBlock Sig) :=
  [ mkBlock (Seq clk_i Rising)
            (dualport_ram_logic wr_i wr_addr_i rd_addr_i data_i data_o mem) ].

(** [gen_reset.logic]; the increment reads the counter's next slot
    ([cntr.next + 1]). *)
Definition gen_reset_logic (reset_o cntr : Sig) : Prog Sig unit :=
  c <- get cntr ;;
  if c <? 1 then
    n <- get_next cntr ;; set cntr (n + 1) ;; set reset_o 1
  else
    set reset_o 0.

Definition gen_reset (clk_i reset_o cntr : Sig) : list (LogicBlock Sig) :=
  [ mkBlock (Seq clk_i Rising) (gen_reset_logic reset_o cntr) ].

(** [sample_en.counter]; [rollover] is computed when the chunk is
    instantiated. *)
Definition sample_en_logic (do_sample_o cntr : Sig) (rollover : Z)
  : Prog Sig unit :=
  c <- get cntr ;; set cntr (c + 1) ;;
  set do_sample_o 0 ;;
  c1 <- get cntr ;;
  if c1 =? rollover then set do_sample_o 1 ;; set cntr 0
  else skip.

Definition sample_en (clk_i do_sample_o cntr : Sig) (rollover : Z)
  : list (LogicBlock Sig) :=
  [ mkBlock (Seq clk_i Rising) (sample_en_logic do_sample_o cntr rollover) ].

(** [concat(base, b1, ..., bn)] with single-bit extensions: every bit is
    appended below what is there. *)
Definition concat_bits (base : Z) (bits : list Z) : Z :=
  fold_left (fun acc b => 2 * acc + b) bits base.

(** The states of the record/playback controller. *)
Definition INIT : Z := 0.
Definition WAITING_TO_RECORD : Z := 1.
Definition RECORDING : Z := 2.
Definition WAITING_TO_PLAY : Z := 3.
Definition PLAYING : Z := 4.

(** [record_play.fsm]. *)
Definition record_play_fsm
           (button_a button_b leds_o reset do_sample wr addr end_addr
            data_i data_o state : Sig) : Prog Sig unit :=
  set wr 0 ;;
  r <- get reset ;;
  if negb (r =? 0) then set state INIT
  else
    ds <- get do_sample ;;
    if negb (ds =? 0) then
      st <- get state ;;
      if st =? INIT then
        set leds_o 21 ;;
        a <- get button_a ;;
        if a =? 1 then set state WAITING_TO_RECORD else skip
      else
        st1 <- get state ;;
        if st1 =? WAITING_TO_RECORD then
          set leds_o 26 ;;
          a <- get button_a ;;
          if a =? 0 then
            set addr 0 ;;
            b <- get button_b ;; set data_i b ;;
            set wr 1 ;;
            set state RECORDING
          else skip
        else
          st2 <- get state ;;
          if st2 =? RECORDING then
            ad <- get addr ;; set addr (ad + 1) ;;
            b <- get button_b ;; set data_i b ;;
            set wr 1 ;;
            b1 <- get button_b ;; b2 <- get button_b ;;
            b3 <- get button_b ;; b4 <- get button_b ;;
            set leds_o (concat_bits 1 [b1; b2; b3; b4]) ;;
            a <- get button_a ;;
            if a =? 1 then
              ad1 <- get addr ;; set end_addr (ad1 + 1) ;;
              set state WAITING_TO_PLAY
            else skip
          else
            st3 <- get state ;;
            if st3 =? WAITING_TO_PLAY then
              set leds_o 16 ;;
              a <- get button_a ;;
              if a =? 0 then set addr 0 ;; set state PLAYING else skip
            else
              st4 <- get state ;;
              if st4 =? PLAYING then
                d1 <- get data_o ;; d2 <- get data_o ;;
                d3 <- get data_o ;; d4 <- get data_o ;;
                set leds_o (concat_bits 1 [Z.b2z (Z.testbit d1 0);
                                           Z.b2z (Z.testbit d2 0);
                                           Z.b2z (Z.testbit d3 0);
                                           Z.b2z (Z.testbit d4 0)]) ;;
                ad <- get addr ;; set addr (ad + 1) ;;
                ad1 <- get addr ;; e <- get end_addr ;;
                (if ad1 =? e then set addr 0 else skip) ;;
                a <- get button_a ;;
                if a =? 1 then set state WAITING_TO_RECORD else skip
              else skip
    else skip.

(** [record_play]: reset generator, sampling pulse generator, RAM and
    controller on one clock. *)
Definition record_play
           (clk_i button_a button_b leds_o reset rst_cntr do_sample smp_cntr
            wr addr end_addr data_i data_o state : Sig) (mem : Z -> Sig)
           (rollover : Z) : list (LogicBlock Sig) :=
  gen_reset clk_i reset rst_cntr
  ++ sample_en clk_i do_sample smp_cntr rollover
  ++ ram clk_i wr addr data_i data_o mem
  ++ [ mkBlock (Seq clk_i Rising)
               (record_play_fsm button_a button_b leds_o reset do_sample wr
                                addr end_addr data_i data_o state) ].

End Chunks.

(** ** The RAMs on a bench: address width [aw], data width [dw] *)

Module Bench.

Inductive sig : Type :=
| clk
| wr
| addr
| wr_addr
| rd_addr
| data_i
| data_o
| mem (k : Z).

Definition sig_eq_dec (x y : sig) : {x = y} + {x <> y}.
Proof. decide equality; apply Z.eq_dec. Defined.

Section Widths.

Variables aw dw : Z.

Definition width (x : sig) : Z :=
  match x with
  | clk | wr => 1
  | addr | wr_addr | rd_addr => aw
  | data_i | data_o | mem _ => dw
  end.

(** [mem = [Bus(len(data_i)) for _ in range(2 ** len(addr_i))]]. *)
Definition locations : list sig :=
  map (fun k => mem (Z.of_nat k)) (seq 0 (Z.to_nat (2 ^ aw))).

Definition signals : list sig :=
  [clk; wr; addr; wr_addr; rd_addr; data_i; data_o] ++ locations.

Definition single : list (LogicBlock sig) := ram clk wr addr data_i data_o mem.
Definition simpler : list (LogicBlock sig) :=
  simpler_ram clk wr addr data_i data_o mem.
Definition dual : list (LogicBlock sig) :=
  dualport_ram clk wr wr_addr rd_addr data_i data_o mem.

(** One clock pulse of a bench that drives the given control and data
    values, as [ram_test_bench] does before pulsing the clock. *)
Definition cycle (fuel : nat) (d : list (LogicBlock sig))
           (stim : list (sig * Z)) (s : Store sig) : Outcome sig :=
  tick sig_eq_dec width fuel signals d clk stim s.

(** A bench cycle of the dual-port RAM: write request, write address,
    data, read address, as [ram_test_bench] sets them before each clock
    pulse. *)
Definition dual_stim (op : Z * Z * Z * Z) : list (sig * Z) :=
  let '(w, wa, d, ra) := op in
  [(wr, w); (wr_addr, wa); (data_i, d); (rd_addr, ra)].

Definition dual_bench (fuel : nat) (ops : list (Z * Z * Z * Z))
           (s : Store sig) : Outcome sig :=
  simulate sig_eq_dec width fuel signals dual clk (map dual_stim ops) s.

(** The operations are within the widths of the buses. *)
Definition op_in_range (op : Z * Z * Z * Z) : Prop :=
  let '(w, wa, d, ra) := op in
  (w = 0 \/ w = 1) /\ 0 <= wa < 2 ^ aw /\ 0 <= d < 2 ^ dw /\ 0 <= ra < 2 ^ aw.

(** The same for the single-port RAM: write request, address, data. *)
Definition single_stim (op : Z * Z * Z) : list (sig * Z) :=
  let '(w, a, d) := op in
  [(wr, w); (addr, a); (data_i, d)].

Definition single_bench (fuel : nat) (ops : list (Z * Z * Z))
           (s : Store sig) : Outcome sig :=
  simulate sig_eq_dec width fuel signals single clk (map single_stim ops) s.

Definition single_op_in_range (op : Z * Z * Z) : Prop :=
  let '(w, a, d) := op in
  (w = 0 \/ w = 1) /\ 0 <= a < 2 ^ aw /\ 0 <= d < 2 ^ dw.

(** The single-port operations played on [simpler_ram], and the dual-port
    operation that reads where it writes. *)
Definition simpler_bench (fuel : nat) (ops : list (Z * Z * Z))
           (s : Store sig) : Outcome sig :=
  simulate sig_eq_dec width fuel signals simpler clk (map single_stim ops) s.

Definition tied (op : Z * Z * Z) : Z * Z * Z * Z :=
  let '(w, a, d) := op in (w, a, d, a).

(** The memory as a map from addresses to data, paired with the value on
    [data_o], and the effect of one cycle on the pair. *)
Definition mem_write (m : Z -> Z) (a d : Z) : Z -> Z :=
  fun k => if k =? a then d else m k.

Definition dual_step (st : (Z -> Z) * Z) (op : Z * Z * Z * Z)
  : (Z -> Z) * Z :=
  let '(w, wa, d, ra) := op in
  (if w =? 0 then fst st else mem_write (fst st) wa d, fst st ra).

Definition single_step (st : (Z -> Z) * Z) (op : Z * Z * Z) : (Z -> Z) * Z :=
  let '(w, a, d) := op in
  (if w =? 0 then fst st else mem_write (fst st) a d,
   if w =? 0 then fst st a else snd st).

(** What a store holds in the locations and on [data_o]. *)
Definition contents (s : Store sig) : (Z -> Z) * Z :=
  (fun k => cur s (mem k), cur s data_o).

End Widths.

End Bench.

(** ** The reset generator on its own *)

Module Reset.

Inductive sig : Type := clk | reset_o | cntr.

Definition sig_eq_dec (x y : sig) : {x = y} + {x <> y}.
Proof. decide equality. Defined.

(** [cntr = Bus(1)]; [reset_o] is a wire. *)
Definition width (_ : sig) : Z := 1.

Definition design : list (LogicBlock sig) := gen_reset clk reset_o cntr.

Definition signals : list sig := [clk; reset_o; cntr].

Definition power_up : Store sig := mkStore (fun _ => 0) (fun _ => 0).

Definition clk_sim (fuel : nat) (num_cycles : nat) : Outcome sig :=
  run sig_eq_dec width fuel signals design clk (repeat [] num_cycles) power_up.

(** The counter and the reset output, and what one rising edge does to
    them. *)
Definition view (s : Store sig) : Z * Z := (cur s cntr, cur s reset_o).

Definition step (r : Z * Z) : Z * Z :=
  let '(c, _) := r in
  if c <? 1 then (wrap 1 (c + 1), wrap 1 1) else (c, wrap 1 0).

End Reset.

(** ** The sampling pulse generator on its own *)

Module Sampler.

Inductive sig : Type := clk | do_sample_o | cntr.

Definition sig_eq_dec (x y : sig) : {x = y} + {x <> y}.
Proof. decide equality. Defined.

Section Ratio.

(** The quotient [frq_in / frq_sample] of the two frequencies, an
    integer (120000 for the default 12 MHz and 100 Hz).  The source
    divides and takes the logarithm in double precision; [rollover] and
    [cntr_width] below are the exact values, which the float expressions
    yield while [ratio <= 2 ^ 48].  From [ratio = 2 ^ 49 + 1] on the
    float logarithm rounds down and the counter of the source is too
    narrow to reach [rollover]; the properties of the pulse generator
    are stated for [ratio <= 2 ^ 48]. *)
Variable ratio : Z.

(** [rollover = int(ceil(frq_in / frq_sample)) - 1]. *)
Definition rollover : Z := ratio - 1.

(** [cntr = Bus(int(ceil(log2(frq_in / frq_sample))))]. *)
Definition cntr_width : Z := Z.log2_up ratio.

Definition width (x : sig) : Z :=
  match x with cntr => cntr_width | _ => 1 end.

Definition design : list (LogicBlock sig) :=
  sample_en clk do_sample_o cntr rollover.

Definition signals : list sig := [clk; do_sample_o; cntr].

Definition power_up : Store sig := mkStore (fun _ => 0) (fun _ => 0).

Definition clk_sim (fuel : nat) (num_cycles : nat) : Outcome sig :=
  run sig_eq_dec width fuel signals design clk (repeat [] num_cycles) power_up.

(** The counter and the pulse output, and what one rising edge does to
    them. *)
Definition step (r : Z * Z) : Z * Z :=
  let '(c, _) := r in
  if c =? rollover then (wrap cntr_width 0, wrap 1 1)
  else (wrap cntr_width (c + 1), wrap 1 0).

End Ratio.

Definition view (s : Store sig) : Z * Z := (cur s cntr, cur s do_sample_o).

End Sampler.

(** ** The record/playback controller of the script *)

Module RecordPlay.

Inductive sig : Type :=
| clk
| button_a
| button_b
| leds_o
| reset
| rst_cntr
| do_sample
| smp_cntr
| wr
| addr
| end_addr
| data_i
| data_o
| state
| mem (k : Z).

Definition sig_eq_dec (x y : sig) : {x = y} + {x <> y}.
Proof. decide equality; apply Z.eq_dec. Defined.

(** [sample_en(clk_i, do_sample)] with its default frequencies. *)
Definition ratio : Z := 120000.

(** [addr = Bus(11)], [data_i = Bus(1)], [state = Bus(3)],
    [leds_o = Bus(5)]. *)
Definition width (x : sig) : Z :=
  match x with
  | clk | button_a | button_b | reset | do_sample | wr => 1
  | rst_cntr => 1
  | smp_cntr => Sampler.cntr_width ratio
  | leds_o => 5
  | addr | end_addr => 11
  | data_i | data_o | mem _ => 1
  | state => 3
  end.

Definition design : list (LogicBlock sig) :=
  record_play clk button_a button_b leds_o reset rst_cntr do_sample smp_cntr
              wr addr end_addr data_i data_o state mem
              (Sampler.rollover ratio).

Definition locations : list sig :=
  map (fun k => mem (Z.of_nat k)) (seq 0 (Z.to_nat (2 ^ 11))).

Definition signals : list sig :=
  [clk; button_a; button_b; leds_o; reset; rst_cntr; do_sample; smp_cntr;
   wr; addr; end_addr; data_i; data_o; state] ++ locations.

Definition power_up : Store sig := mkStore (fun _ => 0) (fun _ => 0).

(** A test bench that sets the two buttons before every clock pulse. *)
Definition bench (buttons : list (bool * bool)) : list (list (sig * Z)) :=
  map (fun ab => [(button_a, Z.b2z (fst ab)); (button_b, Z.b2z (snd ab))])
      buttons.

Definition simulate_buttons (fuel : nat) (buttons : list (bool * bool))
  : Outcome sig :=
  run sig_eq_dec width fuel signals design clk (bench buttons) power_up.

(** The controller has not been woken yet, [n] cycles after power-up: the
    reset generator and the pulse generator are where [n] edges take
    them, and the controller is in [INIT] with the LEDs dark and no write
    requested. *)
Definition dormant (n : nat) (s : Store sig) : Prop :=
  quiet s /\
  (cur s smp_cntr, cur s do_sample) = Nat.iter n (Sampler.step ratio) (0, 0) /\
  (cur s rst_cntr, cur s reset) = Nat.iter n Reset.step (0, 0) /\
  cur s state = INIT /\ cur s leds_o = 0 /\ cur s wr = 0.

End RecordPlay.

End BlockRam.

(* ===================================================================== *)
(** * fsm.py: debouncer and the four-state machine                       *)
(* ===================================================================== *)

Module Fsm.
Import Kernel.
Local Open Scope prog_scope.

Module Debouncer.

Section Chunk.

Context {Sig : Type}.
Variables (clk_i button_i button_o : Sig) (debounce_time : Z).
(** The state variables declared inside the chunk. *)
Variables (debounce_cnt prev_button : Sig).

(** [debouncer.next_state_logic]. *)
Definition next_state_logic : Prog Sig unit :=
  b <- get button_i ;; p <- get prev_button ;;
  (if b =? p then
     c <- get debounce_cnt ;;
     if negb (c =? 0) then
       c1 <- get debounce_cnt ;; set debounce_cnt (c1 - 1)
     else skip
   else set debounce_cnt debounce_time) ;;
  b1 <- get button_i ;; set prev_button b1.

(** [debouncer.output_logic]. *)
Definition output_logic : Prog Sig unit :=
  c <- get debounce_cnt ;;
  if c =? 0 then p <- get prev_button ;; set button_o p
  else skip.

Definition debouncer : list (LogicBlock Sig) :=
  [ mkBlock (Seq clk_i Rising) next_state_logic;
    mkBlock (Seq clk_i Rising) output_logic ].

End Chunk.

(** [int(ceil(log2(debounce_time + 1)))]: the width of the countdown.
    The source takes the logarithm in double precision; this is its exact
    value.  The two agree while [debounce_time + 1 <= 2 ^ 48]: the
    logarithm of [2 ^ k + 1] is then more than one unit in the last place
    above [k], so its ceiling is [k + 1].  From [debounce_time = 2 ^ 49]
    on the float logarithm of [2 ^ k + 1] rounds to [k] and the bus of
    the source is one bit narrower than this width; the properties that
    depend on the width are stated for [debounce_time < 2 ^ 48]. *)
Definition cnt_width (debounce_time : Z) : Z := Z.log2_up (debounce_time + 1).

(** ** One debouncer on a bench *)

Inductive sig : Type := clk | button_i | button_o | dbcnt | prev_button.

Definition sig_eq_dec (x y : sig) : {x = y} + {x <> y}.
Proof. decide equality. Defined.

Section Bench.

Variable debounce_time : Z.

Definition width (x : sig) : Z :=
  match x with dbcnt => cnt_width debounce_time | _ => 1 end.

Definition design : list (LogicBlock sig) :=
  debouncer clk button_i button_o debounce_time dbcnt prev_button.

Definition signals : list sig := [clk; button_i; button_o; dbcnt; prev_button].

Definition power_up : Store sig := mkStore (fun _ => 0) (fun _ => 0).

(** A test bench that puts one raw button sample on [button_i] per clock
    cycle. *)
Definition bench (samples : list Z) : list (list (sig * Z)) :=
  map (fun b => [(button_i, b)]) samples.

Definition simulate_buttons (fuel : nat) (samples : list Z) : Outcome sig :=
  run sig_eq_dec width fuel signals design clk (bench samples) power_up.

(** The three registers of the debouncer, and what one rising edge with
    the sample [b] on [button_i] does to them (the two blocks read the
    registers as they were before the edge). *)
Definition view (s : Store sig) : Z * Z * Z :=
  (cur s dbcnt, cur s prev_button, cur s button_o).

Definition step (b : Z) (r : Z * Z * Z) : Z * Z * Z :=
  let '(c, p, o) := r in
  (if b =? p
   then if c =? 0 then c else wrap (cnt_width debounce_time) (c - 1)
   else wrap (cnt_width debounce_time) debounce_time,
   wrap 1 b,
   if c =? 0 then wrap 1 p else o).

Definition regs_after (samples : list Z) : Z * Z * Z :=
  fold_left (fun r b => step (wrap 1 b) r) samples (0, 0, 0).

End Bench.

(** Raw inputs of the debounce property: [k] samples that alternate,
    starting with [b], and the steady level that follows them, which is the
    last of the alternating samples. *)
Fixpoint toggling (k : nat) (b : bool) : list Z :=
  match k with
  | O => []
  | S k' => Z.b2z b :: toggling k' (negb b)
  end.

Definition last_level (k : nat) (b : bool) : bool :=
  if Nat.even k then negb b else b.

Definition bouncing (k : nat) (b : bool) (steady : nat) : list Z :=
  toggling k b ++ repeat (Z.b2z (last_level k b)) steady.

End Debouncer.

Module Classic.

(** [State('A', 'B', 'C', 'D')] and its binary encoding. *)
Inductive state : Type := A | B | C | D.

Definition encode (st : state) : Z :=
  match st with A => 0 | B => 1 | C => 2 | D => 3 end.

Inductive sig : Type :=
| clk
| inputs (k : nat)
| outputs
| fsm_state
| reset_cnt
| prev_inputs
| input_chgs
| dbnc_inputs (k : nat)
| dbcnt (i : nat)
| prev_button (i : nat).

Definition sig_eq_dec (x y : sig) : {x = y} + {x <> y}.
Proof. decide equality; apply Nat.eq_dec. Defined.

(** [debounce_time = 120000]. *)
Definition debounce_time : Z := 120000.

(** [inputs = Bus(2)], [outputs = Bus(4)]. *)
Definition len_inputs : nat := 2.

Definition width (x : sig) : Z :=
  match x with
  | clk | inputs _ | dbnc_inputs _ | prev_button _ => 1
  | outputs => 4
  | fsm_state => 2
  | reset_cnt => 2
  | prev_inputs | input_chgs => Z.of_nat len_inputs
  | dbcnt _ => Debouncer.cnt_width debounce_time
  end.

(** [reset_cnt.max]. *)
Definition reset_cnt_max : Z := 2 ^ 2.

(** [detect_chg]: [input_chgs.next = dbnc_inputs & ~prev_inputs]; the
    complement is taken within the width of the bus. *)
Definition detect_chg : Prog sig unit :=
  d <- get_bus dbnc_inputs len_inputs ;; p <- get prev_inputs ;;
  set input_chgs (Z.land d (Z.lnot p mod 2 ^ Z.of_nat len_inputs)).

(** The branch taken in state [A], [B], [C] or [D]: bit 0 of the input
    changes moves one way, bit 1 the other. *)
Definition on_change (fwd bck : state) : Prog sig unit :=
  ch <- get input_chgs ;;
  if Z.testbit ch 0 then set fsm_state (encode fwd)
  else
    ch1 <- get input_chgs ;;
    if Z.testbit ch1 1 then set fsm_state (encode bck)
    else skip.

(** [classic_fsm.next_state_logic]. *)
Definition next_state_logic : Prog sig unit :=
  rc <- get reset_cnt ;;
  (if rc <? reset_cnt_max - 1 then
     set fsm_state (encode A) ;;
     rc1 <- get reset_cnt ;; set reset_cnt (rc1 + 1)
   else
     st <- get fsm_state ;;
     if st =? encode A then on_change B D
     else
       st <- get fsm_state ;;
       if st =? encode B then on_change C A
       else
         st <- get fsm_state ;;
         if st =? encode C then on_change D B
         else
           st <- get fsm_state ;;
           if st =? encode D then on_change A C
           else set fsm_state (encode A)) ;;
  d <- get_bus dbnc_inputs len_inputs ;; set prev_inputs d.

(** [classic_fsm.output_logic]. *)
Definition output_logic : Prog sig unit :=
  st <- get fsm_state ;;
  if st =? encode A then set outputs 1
  else
    st <- get fsm_state ;;
    if st =? encode B then set outputs 2
    else
      st <- get fsm_state ;;
      if st =? encode C then set outputs 4
      else
        st <- get fsm_state ;;
        if st =? encode D then set outputs 8
        else set outputs 15.

Definition classic_fsm : list (LogicBlock sig) :=
  Debouncer.debouncer clk (inputs 0%nat) (dbnc_inputs 0%nat) debounce_time
                      (dbcnt 0%nat) (prev_button 0%nat)
  ++ Debouncer.debouncer clk (inputs 1%nat) (dbnc_inputs 1%nat) debounce_time
                         (dbcnt 1%nat) (prev_button 1%nat)
  ++ [ mkBlock Comb detect_chg;
       mkBlock (Seq clk Rising) next_state_logic;
       mkBlock Comb output_logic ].

Definition signals : list sig :=
  [clk; inputs 0%nat; inputs 1%nat; outputs; fsm_state; reset_cnt;
   prev_inputs; input_chgs; dbnc_inputs 0%nat; dbnc_inputs 1%nat;
   dbcnt 0%nat; dbcnt 1%nat; prev_button 0%nat; prev_button 1%nat].

(** Every signal starts at 0, which is state [A]. *)
Definition power_up : Store sig := mkStore (fun _ => 0) (fun _ => 0).

(** [fsm_tb]: one value on the [inputs] bus per clock pulse. *)
Definition fsm_tb (ins : list Z) : list (list (sig * Z)) :=
  map (bus_stimulus inputs len_inputs) ins.

Definition simulate_fsm (fuel : nat) (ins : list Z) : Outcome sig :=
  run sig_eq_dec width fuel signals classic_fsm clk (fsm_tb ins) power_up.

(** What [output_logic] drives for an encoded state. *)
Definition output_of (st : Z) : Z :=
  if st =? encode A then 1
  else if st =? encode B then 2
  else if st =? encode C then 4
  else if st =? encode D then 8
  else 15.

(** The invariant of a run: nothing pending, the state register holds an
    encoded state, and [outputs] shows it. *)
Definition settled_state (s : Store sig) : Prop :=
  quiet s /\ 0 <= cur s fsm_state <= 3 /\
  cur s outputs = output_of (cur s fsm_state).

(** Exactly one of the four output bits is set. *)
Definition one_hot (v : Z) : bool :=
  (v =? 1) || (v =? 2) || (v =? 4) || (v =? 8).

Definition popcount4 (v : Z) : Z :=
  Z.b2z (Z.testbit v 0) + Z.b2z (Z.testbit v 1)
  + Z.b2z (Z.testbit v 2) + Z.b2z (Z.testbit v 3).

(** The moves of [next_state_logic] once the reset count is over: bit 0 of
    the input changes steps forward, otherwise bit 1 steps backward,
    otherwise the state stays. *)
Definition fwd (st : state) : state :=
  match st with A => B | B => C | C => D | D => A end.

Definition bck (st : state) : state :=
  match st with A => D | B => A | C => B | D => C end.

Definition advance (st : state) (chgs : Z) : state :=
  if Z.testbit chgs 0 then fwd st
  else if Z.testbit chgs 1 then bck st
  else st.

(** Bit [i] of an input value, as the test bench puts it on [inputs], and
    the three registers of debouncer [i]. *)
Definition bit_of (i : nat) (v : Z) : Z := Z.b2z (Z.testbit v (Z.of_nat i)).

Definition triple (i : nat) (s : Store sig) : Z * Z * Z :=
  (cur s (dbcnt i), cur s (prev_button i), cur s (dbnc_inputs i)).

(** What [detect_chg] drives onto [input_chgs] in a store. *)
Definition changes_of (s : Store sig) : Z :=
  wrap (Z.of_nat len_inputs)
       (Z.land (bus_value dbnc_inputs len_inputs s)
               (Z.lnot (cur s prev_inputs) mod 2 ^ Z.of_nat len_inputs)).

(** One debouncer of the machine, [n] cycles after power-up, has not let
    anything through: its output is 0, its countdown is in range, and if
    it has seen the button high the countdown cannot have run out. *)
Definition holding (i : nat) (n : nat) (s : Store sig) : Prop :=
  cur s (dbnc_inputs i) = 0 /\
  0 <= cur s (dbcnt i) <= debounce_time /\
  (cur s (prev_button i) = 0 \/ cur s (prev_button i) = 1) /\
  (cur s (prev_button i) = 1 ->
   debounce_time + 1 <= cur s (dbcnt i) + Z.of_nat n).

(** The machine [n] cycles after power-up, before any debounced input
    has moved: state [A], output 0b0001, no input change recorded. *)
Definition frozen (n : nat) (s : Store sig) : Prop :=
  quiet s /\ holding 0 n s /\ holding 1 n s /\
  cur s prev_inputs = 0 /\ cur s fsm_state = encode A /\ cur s outputs = 1.

End Classic.

End Fsm.

(* ===================================================================== *)
(** * Facts about the kernel                                             *)
(* ===================================================================== *)

Module KernelFacts.
Import Kernel.

Section WithSignals.

Variable Sig : Type.
Variable sig_eq_dec : forall x y : Sig, {x = y} + {x <> y}.
Variable width : Sig -> Z.

Local Notation "'exec'" := (exec sig_eq_dec width) (only parsing).
Local Notation "'reads'" := (reads sig_eq_dec width) (only parsing).
Local Notation "'assigns'" := (assigns sig_eq_dec width) (only parsing).
Local Notation "'run_blocks'" := (run_blocks sig_eq_dec width) (only parsing).
Local Notation "'driven'" := (driven sig_eq_dec width) (only parsing).
Local Notation "'schedule'" := (schedule sig_eq_dec width) (only parsing).
Local Notation "'last_set'" := (last_set sig_eq_dec width) (only parsing).
Local Notation "'settle'" := (settle sig_eq_dec width) (only parsing).
Local Notation "'clock_edge'" := (clock_edge sig_eq_dec width) (only parsing).
Local Notation "'comb_round'" := (comb_round sig_eq_dec width) (only parsing).
Local Notation "'drive'" := (drive sig_eq_dec width) (only parsing).
Local Notation "'tick'" := (tick sig_eq_dec width) (only parsing).

(** No block body can touch a current value. *)
Lemma exec_cur : forall (A : Type) (p : Prog Sig A) (s : Store Sig),
  cur (snd (exec p s)) = cur s.
Proof.
  induction p as [a | x k IH | x k IH | x v k IH]; intros s; simpl.
  - reflexivity.
  - apply IH.
  - apply IH.
  - rewrite IH. reflexivity.
Qed.

Lemma run_blocks_cur : forall bs (s : Store Sig),
  cur (run_blocks bs s) = cur s.
Proof.
  induction bs as [| b rest IH]; intros s; simpl.
  - reflexivity.
  - rewrite IH. apply exec_cur.
Qed.

(** Every current-value read of a run returns the current value the store
    had when the run began. *)
Lemma reads_current : forall (A : Type) (p : Prog Sig A) (s : Store Sig) x v,
  In (x, v) (reads p s) -> v = cur s x.
Proof.
  induction p as [a | y k IH | y k IH | y w k IH]; intros s x v Hin; simpl in Hin.
  - contradiction.
  - destruct Hin as [Heq | Hin].
    + inversion Heq; subst. reflexivity.
    + eapply IH; eassumption.
  - eapply IH; eassumption.
  - apply IH in Hin. exact Hin.
Qed.

(** The next slot after a run, by its last assignment. *)
Lemma exec_nxt : forall (A : Type) (p : Prog Sig A) (s : Store Sig) x,
  nxt (snd (exec p s)) x =
  match last_set p s x with Some w => w | None => nxt s x end.
Proof.
  induction p as [a | y k IH | y k IH | y v k IH]; intros s x; simpl.
  - reflexivity.
  - apply IH.
  - apply IH.
  - rewrite IH. destruct (last_set k (schedule y v s) x) as [w |].
    + reflexivity.
    + simpl. destruct (sig_eq_dec x y); reflexivity.
Qed.

Lemma last_set_assigned : forall (A : Type) (p : Prog Sig A) (s : Store Sig) x w,
  last_set p s x = Some w -> In x (assigns p s).
Proof.
  induction p as [a | y k IH | y k IH | y v k IH]; intros s x w H; simpl in *.
  - discriminate.
  - eapply IH; eassumption.
  - eapply IH; eassumption.
  - destruct (last_set k (schedule y v s) x) as [w' |] eqn:E.
    + right. eapply IH; eassumption.
    + destruct (sig_eq_dec x y) as [-> |]; [left; reflexivity | discriminate].
Qed.

(** A next slot that a run does not assign keeps its value. *)
Lemma exec_frame : forall (A : Type) (p : Prog Sig A) (s : Store Sig) x,
  ~ In x (assigns p s) -> nxt (snd (exec p s)) x = nxt s x.
Proof.
  intros A p s x Hnot. rewrite exec_nxt.
  destruct (last_set p s x) as [w |] eqn:E; [| reflexivity].
  exfalso. apply Hnot. eapply last_set_assigned; eassumption.
Qed.

Lemma run_blocks_frame : forall bs (s : Store Sig) x,
  ~ In x (driven bs s) -> nxt (run_blocks bs s) x = nxt s x.
Proof.
  induction bs as [| b rest IH]; intros s x Hnot; simpl in *.
  - reflexivity.
  - rewrite IH.
    + apply exec_frame. intro H. apply Hnot. apply in_or_app. left. exact H.
    + intro H. apply Hnot. apply in_or_app. right. exact H.
Qed.

Lemma assigns_may_set : forall (A : Type) (p : Prog Sig A) (s : Store Sig) x,
  In x (assigns p s) -> may_set x p.
Proof.
  induction p as [a | y k IH | y k IH | y v k IH]; intros s x H; simpl in H.
  - contradiction.
  - eapply ms_read. eapply IH; eassumption.
  - eapply ms_peek. eapply IH; eassumption.
  - destruct H as [-> | H].
    + apply ms_here.
    + apply ms_set. eapply IH; eassumption.
Qed.

(** A body that reads current values only leaves the same assignments on
    any two stores with the same current values. *)
Lemma last_set_no_peek : forall (A : Type) (p : Prog Sig A),
  no_peek p -> forall (s s' : Store Sig) x,
  (forall y, cur s y = cur s' y) -> last_set p s x = last_set p s' x.
Proof.
  induction 1 as [a | y k Hk IH | y v k Hk IH]; intros s s' x Hcur; simpl.
  - reflexivity.
  - rewrite (Hcur y). apply IH. exact Hcur.
  - rewrite (IH (schedule y v s) (schedule y v s') x).
    + reflexivity.
    + intros z. simpl. apply Hcur.
Qed.

Lemma reads_no_peek : forall (A : Type) (p : Prog Sig A),
  no_peek p -> forall (s s' : Store Sig),
  (forall y, cur s y = cur s' y) -> reads p s = reads p s'.
Proof.
  induction 1 as [a | y k Hk IH | y v k Hk IH]; intros s s' Hcur; simpl.
  - reflexivity.
  - rewrite (Hcur y). f_equal. apply IH. exact Hcur.
  - apply IH. intros z. simpl. apply Hcur.
Qed.

(** Running a body on pointwise equal stores gives pointwise equal
    stores. *)
Lemma exec_store_eq : forall (A : Type) (p : Prog Sig A) (s1 s2 : Store Sig),
  store_eq s1 s2 -> store_eq (snd (exec p s1)) (snd (exec p s2)).
Proof.
  induction p as [a | y k IH | y k IH | y v k IH]; intros s1 s2 [Hc Hn]; simpl.
  - split; assumption.
  - rewrite (Hc y). apply IH. split; assumption.
  - rewrite (Hn y). apply IH. split; assumption.
  - apply IH. split; simpl.
    + exact Hc.
    + intros x. destruct (sig_eq_dec x y); [reflexivity | apply Hn].
Qed.

Lemma run_blocks_store_eq : forall bs (s1 s2 : Store Sig),
  store_eq s1 s2 -> store_eq (run_blocks bs s1) (run_blocks bs s2).
Proof.
  induction bs as [| b rest IH]; intros s1 s2 H; simpl.
  - exact H.
  - apply IH. apply exec_store_eq. exact H.
Qed.

Lemma store_eq_trans : forall s1 s2 s3 : Store Sig,
  store_eq s1 s2 -> store_eq s2 s3 -> store_eq s1 s3.
Proof.
  intros s1 s2 s3 [Hc1 Hn1] [Hc2 Hn2]. split; intros x.
  - rewrite Hc1. apply Hc2.
  - rewrite Hn1. apply Hn2.
Qed.

(** Two bodies that read current values only and drive different signals
    can be evaluated in either order. *)
Lemma exec_swap : forall (p q : Prog Sig unit) (s : Store Sig),
  no_peek p -> no_peek q -> disjoint_drivers p q ->
  store_eq (snd (exec q (snd (exec p s)))) (snd (exec p (snd (exec q s)))).
Proof.
  intros p q s Hp Hq Hdis. split; intros x.
  - rewrite !exec_cur. reflexivity.
  - rewrite !exec_nxt.
    rewrite (@last_set_no_peek _ q Hq (snd (exec p s)) s x)
      by (intros y; rewrite exec_cur; reflexivity).
    rewrite (@last_set_no_peek _ p Hp (snd (exec q s)) s x)
      by (intros y; rewrite exec_cur; reflexivity).
    destruct (last_set q s x) as [wq |] eqn:Eq, (last_set p s x) as [wp |] eqn:Ep;
      try reflexivity.
    exfalso. apply (Hdis x).
    + eapply assigns_may_set, last_set_assigned; eassumption.
    + eapply assigns_may_set, last_set_assigned; eassumption.
Qed.

Lemma disjoint_drivers_sym : forall p q : Prog Sig unit,
  disjoint_drivers p q -> disjoint_drivers q p.
Proof. intros p q H x Hq Hp. exact (H x Hp Hq). Qed.

Lemma single_driver_perm : forall bs bs' : list (Prog Sig unit),
  Permutation bs bs' -> single_driver bs -> single_driver bs'.
Proof.
  induction 1 as [| b l l' Hperm IH | a b l | l l' l'' H1 IH1 H2 IH2];
    simpl; intros Hsd.
  - exact I.
  - destruct Hsd as [Hall Hrest]. split.
    + eapply Permutation_Forall; eassumption.
    + apply IH. exact Hrest.
  - destruct Hsd as [Hb [Ha Hrest]].
    inversion Hb as [| ? ? Hba Hbl]; subst.
    repeat split.
    + constructor; [apply disjoint_drivers_sym; exact Hba | exact Ha].
    + exact Hbl.
    + exact Hrest.
  - apply IH2. apply IH1. exact Hsd.
Qed.

(** The bodies of one edge may be evaluated in any order. *)
Lemma run_blocks_perm : forall bs bs' : list (Prog Sig unit),
  Permutation bs bs' ->
  Forall no_peek bs -> single_driver bs ->
  forall s1 s2 : Store Sig, store_eq s1 s2 ->
  store_eq (run_blocks bs s1) (run_blocks bs' s2).
Proof.
  induction 1 as [| b l l' Hperm IH | a b l | l l' l'' H1 IH1 H2 IH2];
    intros Hnp Hsd s1 s2 Heq.
  - exact Heq.
  - simpl. inversion Hnp; subst. destruct Hsd as [_ Hsd].
    apply IH; [assumption | assumption |]. apply exec_store_eq. exact Heq.
  - simpl. inversion Hnp as [| ? ? Hb Hnp']; subst.
    inversion Hnp' as [| ? ? Ha Hl]; subst.
    destruct Hsd as [Hb' _]. inversion Hb' as [| ? ? Hba _]; subst.
    apply run_blocks_store_eq.
    eapply store_eq_trans.
    + apply (@exec_swap _ _ s1 Hb Ha Hba).
    + apply exec_store_eq. apply exec_store_eq. exact Heq.
  - eapply store_eq_trans.
    + apply (IH1 Hnp Hsd s1 s1). split; reflexivity.
    + apply IH2.
      * eapply Permutation_Forall; eassumption.
      * eapply single_driver_perm; eassumption.
      * exact Heq.
Qed.

(** ** Settling *)

Lemma unchanged_same : forall signals (s s' : Store Sig),
  (forall x, cur s x = cur s' x) -> unchanged signals s s' = true.
Proof.
  intros signals s s' H. unfold unchanged. apply forallb_forall.
  intros x _. rewrite H. apply Z.eqb_refl.
Qed.

Lemma unchanged_true : forall signals (s s' : Store Sig) x,
  unchanged signals s s' = true -> In x signals -> cur s x = cur s' x.
Proof.
  intros signals s s' x H Hin. unfold unchanged in H.
  rewrite forallb_forall in H. apply Z.eqb_eq. apply H. exact Hin.
Qed.

(** A design without combinational blocks is settled as soon as its next
    slots are committed. *)
Lemma settle_seq_only : forall fuel signals (d : list (LogicBlock Sig)) s,
  comb_bodies d = [] ->
  settle (S fuel) signals d (commit s) = Settled (commit s).
Proof.
  intros fuel signals d s Hd. simpl. unfold comb_round. rewrite Hd. simpl.
  rewrite unchanged_same by reflexivity. reflexivity.
Qed.

Lemma tick_seq_only : forall fuel signals (d : list (LogicBlock Sig)) clk stim s,
  comb_bodies d = [] ->
  tick (S fuel) signals d clk stim s =
  Settled (clock_edge d clk Rising
             (commit (drive [(clk, 1)] (commit (drive (stim ++ [(clk, 0)]) s))))).
Proof.
  intros fuel signals d clk stim s Hd. unfold tick.
  rewrite settle_seq_only by exact Hd.
  unfold Kernel.clock_edge. rewrite settle_seq_only by exact Hd. reflexivity.
Qed.

(** When a second round repeats the first, two rounds of fuel are
    enough. *)
Lemma settle_two_rounds : forall fuel signals (d : list (LogicBlock Sig)) s,
  (forall x, cur (comb_round d (comb_round d s)) x = cur (comb_round d s) x) ->
  exists s',
    settle (S (S fuel)) signals d s = Settled s' /\
    quiet s' /\ (forall x, cur s' x = cur (comb_round d s) x).
Proof.
  intros fuel signals d s Hidem. cbn [Kernel.settle].
  destruct (unchanged signals s (comb_round d s)).
  - eexists. split; [reflexivity |]. split; intros x; reflexivity.
  - rewrite unchanged_same by (intros x; symmetry; apply Hidem).
    eexists. split; [reflexivity |]. split; intros x; [reflexivity | apply Hidem].
Qed.

(** Stimulus leaves the other next slots alone, and no current value
    moves before the commit. *)
Lemma drive_frame : forall stim (s : Store Sig) x,
  ~ In x (map fst stim) -> nxt (drive stim s) x = nxt s x.
Proof.
  induction stim as [| [y v] rest IH]; intros s x Hnot; cbn in *.
  - reflexivity.
  - rewrite IH by tauto. cbn.
    destruct (sig_eq_dec x y) as [-> |]; [exfalso; tauto | reflexivity].
Qed.

(** An invariant that every cycle of the test bench keeps holds at the
    end of the run, and the run settles at every instant. *)
Lemma simulate_invariant :
  forall (J : Store Sig -> Prop) fuel signals (d : list (LogicBlock Sig)) clk tb,
  (forall stim s, In stim tb -> J s ->
     exists s', tick fuel signals d clk stim s = Settled s' /\ J s') ->
  forall s, J s ->
  exists s', Kernel.simulate sig_eq_dec width fuel signals d clk tb s = Settled s'
             /\ J s'.
Proof.
  intros J fuel signals d clk tb. induction tb as [| stim rest IH]; intros Hstep s HJ.
  - exists s. split; [reflexivity | exact HJ].
  - destruct (Hstep stim s (or_introl eq_refl) HJ) as (s1 & Ht & HJ1).
    destruct (IH (fun st s0 Hin => Hstep st s0 (or_intror Hin)) s1 HJ1)
      as (s2 & Hs & HJ2).
    exists s2. cbn [Kernel.simulate]. rewrite Ht. split; assumption.
Qed.

(** Reordering the blocks of a design reorders the bodies of an edge. *)
Lemma edge_bodies_perm : forall (d d' : list (LogicBlock Sig)) clk pol,
  Permutation d d' ->
  Permutation (edge_bodies sig_eq_dec d clk pol)
              (edge_bodies sig_eq_dec d' clk pol).
Proof.
  intros d d' clk pol H. unfold edge_bodies. apply Permutation_map.
  induction H as [| b l l' H IH | x y l | l l' l'' H1 IH1 H2 IH2]; cbn.
  - constructor.
  - destruct (fires_on sig_eq_dec clk pol b); [constructor |]; exact IH.
  - destruct (fires_on sig_eq_dec clk pol x), (fires_on sig_eq_dec clk pol y);
      try apply Permutation_refl.
    apply perm_swap.
  - eapply perm_trans; eassumption.
Qed.

Lemma clock_edge_perm : forall (d d' : list (LogicBlock Sig)) clk pol s,
  Permutation d d' ->
  Forall no_peek (edge_bodies sig_eq_dec d clk pol) ->
  single_driver (edge_bodies sig_eq_dec d clk pol) ->
  store_eq (clock_edge d clk pol s) (clock_edge d' clk pol s).
Proof.
  intros d d' clk pol s Hperm Hnp Hsd.
  destruct (run_blocks_perm _ _ (edge_bodies_perm d d' clk pol Hperm) Hnp Hsd s s)
    as [Hc Hn].
  - split; reflexivity.
  - split; intros x; cbn; apply Hn.
Qed.

(** ** More fuel never changes an outcome that settled *)

Lemma settle_fuel_le : forall f f' signals (d : list (LogicBlock Sig)) s s',
  (f <= f')%nat ->
  settle f signals d s = Settled s' -> settle f' signals d s = Settled s'.
Proof.
  induction f as [| f IH]; intros f' signals d s s' Hle H.
  - discriminate H.
  - destruct f' as [| f']; [lia |]. cbn [Kernel.settle] in *.
    destruct (unchanged signals s (comb_round d s)).
    + exact H.
    + apply IH; [lia | exact H].
Qed.

Lemma tick_fuel_le : forall f f' signals (d : list (LogicBlock Sig)) clk stim s s',
  (f <= f')%nat ->
  tick f signals d clk stim s = Settled s' ->
  tick f' signals d clk stim s = Settled s'.
Proof.
  intros f f' signals d clk stim s s' Hle. unfold Kernel.tick.
  destruct (settle f signals d (commit (drive (stim ++ [(clk, 0)]) s)))
    as [s1 |] eqn:E; [| discriminate].
  rewrite (settle_fuel_le f f' _ _ _ _ Hle E).
  apply settle_fuel_le. exact Hle.
Qed.

Lemma simulate_fuel_le : forall f f' signals (d : list (LogicBlock Sig)) clk tb s s',
  (f <= f')%nat ->
  Kernel.simulate sig_eq_dec width f signals d clk tb s = Settled s' ->
  Kernel.simulate sig_eq_dec width f' signals d clk tb s = Settled s'.
Proof.
  intros f f' signals d clk tb. induction tb as [| stim rest IH];
    intros s s' Hle H; cbn [Kernel.simulate] in *.
  - exact H.
  - destruct (tick f signals d clk stim s) as [s1 |] eqn:E; [| discriminate].
    rewrite (tick_fuel_le f f' _ _ _ _ _ _ Hle E). apply IH; assumption.
Qed.

Lemma run_fuel_le : forall f f' signals (d : list (LogicBlock Sig)) clk tb s0 s',
  (f <= f')%nat ->
  Kernel.run sig_eq_dec width f signals d clk tb s0 = Settled s' ->
  Kernel.run sig_eq_dec width f' signals d clk tb s0 = Settled s'.
Proof.
  intros f f' signals d clk tb s0 s' Hle. unfold Kernel.run.
  destruct (settle f signals d s0) as [s1 |] eqn:E; [| discriminate].
  rewrite (settle_fuel_le f f' _ _ _ _ Hle E).
  apply simulate_fuel_le. exact Hle.
Qed.

End WithSignals.

End KernelFacts.

(* ===================================================================== *)
(** * The debouncer                                                      *)
(* ===================================================================== *)

(** Symbolic evaluation of block bodies: compute, and split on every
    condition that is still open. *)
Ltac split_ifs :=
  repeat (cbn in *;
          match goal with
          | H : ?c = _ |- context [if ?c then _ else _] => rewrite H
          | |- context [if negb ?c then _ else _] => destruct c eqn:?
          | |- context [if ?c then _ else _] =>
              let ty := type of c in
              let ty := eval hnf in ty in
              lazymatch ty with sumbool _ _ => destruct c end
          | |- context [if ?c then _ else _] => destruct c eqn:?
          end);
  cbn in *.

Module DebouncerFacts.
Import Kernel KernelFacts Fsm.Debouncer.

Section Bench.

Variable T : Z.

Local Notation "'edge'" :=
  (clock_edge sig_eq_dec (width T) (design T) clk Rising) (only parsing).

(** One rising edge, register by register, in terms of the store before
    the edge. *)
Lemma edge_regs : forall s : Store sig,
  cur (edge s) dbcnt =
    (if cur s button_i =? cur s prev_button
     then if cur s dbcnt =? 0 then nxt s dbcnt
          else wrap (cnt_width T) (cur s dbcnt - 1)
     else wrap (cnt_width T) T) /\
  cur (edge s) prev_button = wrap 1 (cur s button_i) /\
  cur (edge s) button_o =
    (if cur s dbcnt =? 0 then wrap 1 (cur s prev_button) else nxt s button_o).
Proof.
  intros s.
  cbv [clock_edge edge_bodies design debouncer filter fires_on trigger map
       body run_blocks next_state_logic output_logic get set skip].
  repeat split; split_ifs; congruence.
Qed.

Lemma debouncer_design_seq_only : comb_bodies (design T) = [].
Proof. reflexivity. Qed.

(** One cycle of the bench acts on the registers as [step] does. *)
Lemma debouncer_tick_view : forall fuel b (s : Store sig),
  quiet s ->
  exists s',
    tick sig_eq_dec (width T) (S fuel) signals (design T) clk [(button_i, b)] s
      = Settled s' /\
    quiet s' /\ view s' = step T (wrap 1 b) (view s).
Proof.
  intros fuel b s Hq.
  rewrite tick_seq_only by apply debouncer_design_seq_only.
  eexists. split; [reflexivity |]. split.
  - intros x. reflexivity.
  - unfold view.
    match goal with
    | |- context [Kernel.clock_edge _ _ _ _ _ ?pre] =>
        destruct (edge_regs pre) as (Hc & Hp & Ho)
    end.
    rewrite Hc, Hp, Ho. cbn. rewrite !Hq. reflexivity.
Qed.

Lemma debouncer_simulate_view : forall fuel samples (s : Store sig),
  quiet s ->
  exists s',
    simulate sig_eq_dec (width T) (S fuel) signals (design T) clk
             (bench samples) s = Settled s' /\
    quiet s' /\
    view s' = fold_left (fun r b => step T (wrap 1 b) r) samples (view s).
Proof.
  intros fuel samples. induction samples as [| b rest IH]; intros s Hq.
  - exists s. repeat split; exact Hq.
  - destruct (debouncer_tick_view fuel b s Hq) as (s1 & Ht & Hq1 & Hv1).
    destruct (IH s1 Hq1) as (s2 & Hs & Hq2 & Hv2).
    exists s2. cbn [bench map simulate]. rewrite Ht.
    split; [exact Hs |]. split; [exact Hq2 |].
    rewrite Hv2, Hv1. reflexivity.
Qed.

(** A run from power-up always settles, and its registers are those of
    [regs_after]. *)
Lemma run_view : forall fuel samples,
  exists s',
    simulate_buttons T (S fuel) samples = Settled s' /\
    view s' = regs_after T samples.
Proof.
  intros fuel samples. unfold simulate_buttons, run.
  change power_up with (commit power_up).
  rewrite settle_seq_only by apply debouncer_design_seq_only.
  destruct (@debouncer_simulate_view fuel samples (commit power_up)) as (s' & Hs & _ & Hv).
  - intros x. reflexivity.
  - exists s'. split; [exact Hs | exact Hv].
Qed.

Lemma probe_button_o : forall fuel samples,
  probe button_o (simulate_buttons T (S fuel) samples) =
  Some (snd (regs_after T samples)).
Proof.
  intros fuel samples. destruct (run_view fuel samples) as (s' & Hs & Hv).
  rewrite Hs. cbn. rewrite <- Hv. reflexivity.
Qed.

(** The two blocks read current values only and drive different
    signals. *)
Lemma bodies_no_peek :
  Forall no_peek (edge_bodies sig_eq_dec (design T) clk Rising).
Proof.
  cbv [edge_bodies design debouncer filter fires_on trigger map body
       next_state_logic output_logic get set skip].
  cbn.
  repeat first
    [ constructor
    | intro
    | match goal with
      | |- no_peek (bind (if ?c then _ else _) _) => destruct c; cbn [bind]
      | |- no_peek (if ?c then _ else _) => destruct c
      end ].
Qed.

Ltac invert_may_set :=
  repeat match goal with
         | H : may_set _ (Ret _) |- _ => inversion H
         | H : may_set _ (Read _ _) |- _ => inversion H; subst; clear H
         | H : may_set _ (SetNext _ _ _) |- _ => inversion H; subst; clear H
         | H : may_set _ (bind (if ?c then _ else _) _) |- _ =>
             destruct c; cbn [bind] in H
         | H : may_set _ (if ?c then _ else _) |- _ => destruct c
         end.

Lemma next_state_logic_drives : forall x,
  may_set x (next_state_logic button_i T dbcnt prev_button) ->
  x = dbcnt \/ x = prev_button.
Proof.
  intros x H. cbv [next_state_logic get set skip] in H. cbn in H.
  invert_may_set; tauto.
Qed.

Lemma output_logic_drives : forall x,
  may_set x (output_logic button_o dbcnt prev_button) -> x = button_o.
Proof.
  intros x H. cbv [output_logic get set skip] in H. cbn in H.
  invert_may_set; reflexivity.
Qed.

Lemma bodies_single_driver :
  single_driver (edge_bodies sig_eq_dec (design T) clk Rising).
Proof.
  cbn. repeat split; repeat constructor.
  intros x H1 H2.
  apply next_state_logic_drives in H1. apply output_logic_drives in H2.
  destruct H1; congruence.
Qed.

(** ** The registers under steady and bouncing inputs *)

Hypothesis T_pos : 1 <= T.

Local Notation "'run_from'" :=
  (fold_left (fun r b => step T (wrap 1 b) r)) (only parsing).

Lemma cnt_fits : T < 2 ^ cnt_width T.
Proof.
  unfold cnt_width.
  pose proof (Z.log2_up_spec (T + 1) ltac:(lia)) as [_ H]. lia.
Qed.

Lemma wrap_bit : forall b : bool, wrap 1 (Z.b2z b) = Z.b2z b.
Proof. destruct b; reflexivity. Qed.

Lemma wrap_cnt : forall c, 0 <= c <= T -> wrap (cnt_width T) c = c.
Proof.
  intros c Hc. unfold wrap. apply Z.mod_small.
  pose proof cnt_fits. lia.
Qed.

Lemma b2z_eqb : forall b p : bool, (Z.b2z b =? Z.b2z p) = Bool.eqb b p.
Proof. destruct b, p; reflexivity. Qed.

(** [step] on a sample and registers in range. *)
Lemma step_bits : forall (b p : bool) c o,
  0 <= c <= T ->
  step T (wrap 1 (Z.b2z b)) (c, Z.b2z p, o) =
  (if Bool.eqb b p then (if c =? 0 then 0 else c - 1) else T,
   Z.b2z b,
   if c =? 0 then Z.b2z p else o).
Proof.
  intros b p c o Hc. unfold step. rewrite !wrap_bit, b2z_eqb.
  destruct (Z.eqb_spec c 0) as [-> | Hne].
  - destruct (Bool.eqb b p); [reflexivity |].
    rewrite wrap_cnt by lia. reflexivity.
  - rewrite !wrap_cnt by lia. reflexivity.
Qed.

(** While the countdown runs and the input keeps its level, only the
    countdown moves. *)
Lemma steady_countdown : forall (m : nat) (l : bool) c o,
  0 <= c <= T -> Z.of_nat m <= c ->
  run_from (repeat (Z.b2z l) m) (c, Z.b2z l, o) = (c - Z.of_nat m, Z.b2z l, o).
Proof.
  induction m as [| m IH]; intros l c o Hc Hm.
  - cbn. f_equal. f_equal. lia.
  - cbn [repeat fold_left]. rewrite step_bits by exact Hc.
    rewrite Bool.eqb_reflx.
    destruct (Z.eqb_spec c 0) as [-> | Hne]; [lia |].
    rewrite IH by lia. f_equal. f_equal. lia.
Qed.

(** Once the countdown is at zero the output carries the level. *)
Lemma steady_latched : forall (m : nat) (l : bool),
  run_from (repeat (Z.b2z l) m) (0, Z.b2z l, Z.b2z l) = (0, Z.b2z l, Z.b2z l).
Proof.
  induction m as [| m IH]; intros l.
  - reflexivity.
  - cbn [repeat fold_left]. rewrite step_bits by lia.
    rewrite Bool.eqb_reflx. cbn. apply IH.
Qed.

Lemma steady_latch : forall (m : nat) (l : bool) o,
  run_from (repeat (Z.b2z l) (S m)) (0, Z.b2z l, o) = (0, Z.b2z l, Z.b2z l).
Proof.
  intros m l o. cbn [repeat fold_left]. rewrite step_bits by lia.
  rewrite Bool.eqb_reflx. cbn. apply steady_latched.
Qed.

(** A sample that differs from the previous one reloads the countdown. *)
Lemma bounce_reloads : forall (b : bool) c o,
  0 <= c <= T ->
  step T (wrap 1 (Z.b2z b)) (c, Z.b2z (negb b), o) =
  (T, Z.b2z b, if c =? 0 then Z.b2z (negb b) else o).
Proof.
  intros b c o Hc. rewrite step_bits by exact Hc.
  destruct b; reflexivity.
Qed.

Lemma power_up_high :
  step T (wrap 1 (Z.b2z true)) (0, 0, 0) = (T, Z.b2z true, 0).
Proof. exact (bounce_reloads true 0 0 ltac:(lia)). Qed.

Lemma steady_low : forall m : nat,
  fold_left (fun r b => step T (wrap 1 b) r) (repeat (Z.b2z false) m) (0, 0, 0)
  = (0, 0, 0).
Proof. intros m. exact (steady_latched m false). Qed.

Lemma last_level_step : forall k b,
  last_level (S k) (negb b) = last_level (S (S k)) b.
Proof.
  intros k b. unfold last_level.
  rewrite Nat.even_succ_succ, Nat.even_succ, <- Nat.negb_even.
  destruct (Nat.even k), b; reflexivity.
Qed.

(** Samples that alternate keep the countdown loaded and the output where
    it was. *)
Lemma toggling_reloads : forall (k : nat) (b : bool) c,
  0 <= c <= T -> (c = 0 -> b = true) ->
  run_from (toggling (S k) b) (c, Z.b2z (negb b), 0) =
  (T, Z.b2z (last_level (S k) b), 0).
Proof.
  induction k as [| k IH]; intros b c Hc Hz.
  - cbn [toggling fold_left]. rewrite bounce_reloads by exact Hc.
    destruct (Z.eqb_spec c 0) as [E | _]; [rewrite (Hz E) |]; reflexivity.
  - change (toggling (S (S k)) b) with (Z.b2z b :: toggling (S k) (negb b)).
    cbn [fold_left]. rewrite bounce_reloads by exact Hc.
    replace (if c =? 0 then Z.b2z (negb b) else 0) with 0
      by (destruct (Z.eqb_spec c 0) as [E | _]; [rewrite (Hz E) |]; reflexivity).
    pose proof (IH (negb b) T ltac:(lia) ltac:(lia)) as H.
    rewrite Bool.negb_involutive in H. rewrite H.
    rewrite last_level_step. reflexivity.
Qed.

(** From power-up, alternating samples leave the registers either
    untouched or with a loaded countdown; the output is 0 both ways. *)
Lemma toggling_from_power_up : forall (k : nat) (b : bool),
  (regs_after T (toggling k b) = (0, 0, 0) /\
   (k = O \/ last_level k b = false)) \/
  regs_after T (toggling k b) = (T, Z.b2z (last_level k b), 0).
Proof.
  intros k b. unfold regs_after. destruct k as [| k].
  - left. split; [reflexivity | left; reflexivity].
  - destruct b.
    + right. apply (toggling_reloads k true 0); [lia | reflexivity].
    + change (toggling (S k) false) with (0 :: toggling k true).
      cbn [fold_left].
      replace (step T (wrap 1 0) (0, 0, 0)) with (0, 0, 0)
        by (symmetry; apply (step_bits false false 0 0); lia).
      destruct k as [| k].
      * left. split; [reflexivity | right; reflexivity].
      * right. rewrite <- last_level_step.
        apply (toggling_reloads k true 0); [lia | reflexivity].
Qed.

(** Output after a bouncing input followed by at most [T] steady
    samples. *)
Lemma bouncing_holds : forall (k : nat) (b : bool) (m : nat),
  Z.of_nat m <= T -> snd (regs_after T (bouncing k b m)) = 0.
Proof.
  intros k b m Hm. unfold regs_after, bouncing. rewrite fold_left_app.
  destruct (toggling_from_power_up k b) as [[E Hk] | E];
    unfold regs_after in E; rewrite E.
  - destruct Hk as [-> | Hl].
    + destruct (last_level 0 b).
      * destruct m as [| m]; [reflexivity |].
        cbn [repeat fold_left].
        rewrite power_up_high.
        rewrite (steady_countdown m true) by lia. reflexivity.
      * rewrite steady_low. reflexivity.
    + rewrite Hl. rewrite steady_low. reflexivity.
  - rewrite steady_countdown by lia. reflexivity.
Qed.

(** Output one cycle after [T] steady samples. *)
Lemma bouncing_latches : forall (k : nat) (b : bool),
  (1 <= k)%nat ->
  snd (regs_after T (bouncing k b (S (Z.to_nat T)))) = Z.b2z (last_level k b).
Proof.
  intros k b Hk. unfold regs_after, bouncing. rewrite fold_left_app.
  destruct (toggling_from_power_up k b) as [[E Hl] | E];
    unfold regs_after in E; rewrite E.
  - destruct Hl as [-> | Hl]; [lia |].
    rewrite Hl. rewrite steady_low. reflexivity.
  - replace (S (Z.to_nat T)) with (Z.to_nat T + 1)%nat by lia.
    rewrite repeat_app, fold_left_app.
    rewrite steady_countdown by lia.
    replace (T - Z.of_nat (Z.to_nat T)) with 0 by lia.
    rewrite (steady_latch 0). reflexivity.
Qed.

Lemma firstn_toggling : forall (n k : nat) (b : bool),
  firstn n (toggling k b) = toggling (Nat.min n k) b.
Proof.
  induction n as [| n IH]; intros k b.
  - reflexivity.
  - destruct k as [| k]; [reflexivity |].
    cbn. f_equal. apply IH.
Qed.

Lemma firstn_repeat_min : forall (A : Type) (x : A) (n m : nat),
  firstn n (repeat x m) = repeat x (Nat.min n m).
Proof.
  induction n as [| n IH]; intros m.
  - reflexivity.
  - destruct m as [| m]; [reflexivity |].
    cbn. f_equal. apply IH.
Qed.

Lemma length_toggling : forall k b, length (toggling k b) = k.
Proof.
  induction k as [| k IH]; intros b; [reflexivity |].
  cbn. f_equal. apply IH.
Qed.

(** A prefix of a bouncing input is a bouncing input. *)
Lemma firstn_bouncing : forall (n k : nat) (b : bool) (m : nat),
  exists m', (m' <= n - k)%nat /\
    snd (regs_after T (firstn n (bouncing k b m))) =
    snd (regs_after T (bouncing (Nat.min n k) b m')).
Proof.
  intros n k b m. unfold bouncing at 1.
  rewrite firstn_app, firstn_toggling, length_toggling, firstn_repeat_min.
  destruct (Nat.le_gt_cases k n) as [Hle | Hgt].
  - exists (Nat.min (n - k) m). split; [lia |].
    rewrite Nat.min_r by lia. reflexivity.
  - exists O. split; [lia |].
    replace (n - k)%nat with O by lia. reflexivity.
Qed.

(** Registers under an input that never moves. *)
Lemma steady_from_power_up : forall (v : bool) (n : nat),
  T + 2 <= Z.of_nat n ->
  snd (regs_after T (repeat (Z.b2z v) n)) = Z.b2z v.
Proof.
  intros v n Hn. unfold regs_after. destruct v.
  - replace n with (1 + (Z.to_nat T + S (n - 2 - Z.to_nat T)))%nat by lia.
    rewrite !repeat_app, !fold_left_app.
    cbn [repeat fold_left].
    rewrite power_up_high.
    rewrite (steady_countdown _ true) by lia.
    replace (T - Z.of_nat (Z.to_nat T)) with 0 by lia.
    rewrite (step_bits true true 0 0) by lia. cbn [Bool.eqb Z.eqb].
    rewrite steady_latched. reflexivity.
  - rewrite steady_low. reflexivity.
Qed.

Lemma steady_high_pending : forall n : nat,
  Z.of_nat n <= T + 1 ->
  snd (regs_after T (repeat (Z.b2z true) n)) = 0.
Proof.
  intros n Hn. unfold regs_after. destruct n as [| n]; [reflexivity |].
  cbn [repeat fold_left]. rewrite power_up_high.
  rewrite (steady_countdown n true) by lia. reflexivity.
Qed.

End Bench.

End DebouncerFacts.

(* ===================================================================== *)
(** * The ramp                                                           *)
(* ===================================================================== *)

Module RampFacts.
Import Kernel KernelFacts Pwm.

Section Ramp.

Variable len : Z.

Local Notation "'edge'" :=
  (clock_edge sig_eq_dec (width len) (ramp len) clk Rising) (only parsing).

(** One rising edge, for a store with nothing pending. *)
Lemma ramp_edge_view : forall s : Store sig,
  quiet s -> view (edge s) = step len (view s).
Proof.
  intros s Hq. unfold view, step.
  cbv [clock_edge edge_bodies ramp filter fires_on trigger map body
       run_blocks logic get set skip].
  split_ifs; rewrite ?Hq; reflexivity.
Qed.

Lemma ramp_seq_only : comb_bodies (ramp len) = [].
Proof. reflexivity. Qed.

Lemma ramp_tick_view : forall fuel (s : Store sig),
  quiet s ->
  exists s',
    tick sig_eq_dec (width len) (S fuel) signals (ramp len) clk [] s
      = Settled s' /\
    quiet s' /\ view s' = step len (view s).
Proof.
  intros fuel s Hq.
  rewrite tick_seq_only by apply ramp_seq_only.
  eexists. split; [reflexivity |]. split.
  - intros x. reflexivity.
  - rewrite ramp_edge_view.
    + unfold view. cbn. rewrite !Hq. reflexivity.
    + intros x. reflexivity.
Qed.

Lemma ramp_simulate_view : forall fuel (n : nat) (s : Store sig),
  quiet s ->
  exists s',
    simulate sig_eq_dec (width len) (S fuel) signals (ramp len) clk
             (repeat [] n) s = Settled s' /\
    quiet s' /\ view s' = Nat.iter n (step len) (view s).
Proof.
  intros fuel n. induction n as [| n IH]; intros s Hq.
  - exists s. repeat split; exact Hq.
  - destruct (ramp_tick_view fuel s Hq) as (s1 & Ht & Hq1 & Hv1).
    destruct (IH s1 Hq1) as (s2 & Hs & Hq2 & Hv2).
    exists s2. cbn [repeat simulate]. rewrite Ht.
    split; [exact Hs |]. split; [exact Hq2 |].
    rewrite Hv2, Hv1. symmetry. apply Nat.iter_succ_r.
Qed.

(** A run from power-up always settles; its registers are [step]
    iterated from (0, 0). *)
Lemma probe_ramp_o : forall fuel (n : nat),
  probe ramp_o (clk_sim len (S fuel) n) =
  Some (fst (Nat.iter n (step len) (0, 0))).
Proof.
  intros fuel n. unfold clk_sim, run.
  change power_up with (commit power_up).
  rewrite settle_seq_only by apply ramp_seq_only.
  destruct (ramp_simulate_view fuel n (commit power_up)) as (s' & Hs & _ & Hv).
  - intros x. reflexivity.
  - rewrite Hs. cbn [probe]. f_equal.
    change (cur s' ramp_o) with (fst (view s')). rewrite Hv. reflexivity.
Qed.

(** ** The registers follow the triangle wave *)

Hypothesis len_ge_2 : 2 <= len.

Lemma ramp_max_ge_4 : 4 <= ramp_max len.
Proof.
  unfold ramp_max. change 4 with (2 ^ 2).
  apply Z.pow_le_mono_r; lia.
Qed.

Lemma wrap_unique : forall v q r,
  0 <= r < ramp_max len -> v = ramp_max len * q + r -> wrap len v = r.
Proof.
  intros v q r Hr Hv. unfold wrap. fold (ramp_max len).
  symmetry. apply (Z.mod_unique v (ramp_max len) q r); [left; exact Hr | exact Hv].
Qed.

(** One edge moves the registers from one point of the period to the
    next. *)
Lemma step_phase : forall ph,
  0 <= ph < period len ->
  step len (phase_regs len ph) =
  phase_regs len (if ph + 1 =? period len then 0 else ph + 1).
Proof.
  intros ph Hph. pose proof ramp_max_ge_4 as HM.
  unfold phase_regs, step, period in *.
  set (M := ramp_max len) in *.
  assert (W1 : wrap len 1 = 1) by (apply (wrap_unique 1 0); lia).
  assert (Wm : wrap len (-1) = M - 1)
    by (apply (wrap_unique (-1) (-1)); fold M; lia).
  destruct (Z.ltb_spec ph (M - 1)) as [Hup | Hdown].
  - (* rising *)
    assert (E : (ph + 1 =? 2 * (M - 1)) = false) by (apply Z.eqb_neq; lia).
    rewrite E.
    assert (Wup : wrap len (ph + 1) = ph + 1)
      by (apply (wrap_unique _ 0); fold M; lia).
    rewrite W1, Wm, Wup.
    destruct (Z.eqb_spec ph 1) as [-> | H1].
    + destruct (Z.ltb_spec (1 + 1) (M - 1)); [reflexivity | lia].
    + destruct (Z.eqb_spec ph (M - 2)) as [-> | H2].
      * destruct (Z.ltb_spec (M - 2 + 1) (M - 1)); [lia |].
        f_equal. lia.
      * cbn [Z.eqb].
        destruct (Z.ltb_spec (ph + 1) (M - 1)); [reflexivity | lia].
  - (* falling *)
    assert (Wdn : wrap len (2 * (M - 1) - ph + (M - 1)) = 2 * (M - 1) - ph - 1)
      by (apply (wrap_unique _ 1); fold M; lia).
    rewrite W1, Wm, Wdn.
    assert (E0 : (M - 1 =? 0) = false) by (apply Z.eqb_neq; lia).
    rewrite E0.
    destruct (Z.eqb_spec (2 * (M - 1) - ph) 1) as [H1 | H1].
    + assert (E : (ph + 1 =? 2 * (M - 1)) = true) by (apply Z.eqb_eq; lia).
      rewrite E.
      destruct (Z.ltb_spec 0 (M - 1)); [| lia].
      f_equal. lia.
    + assert (E : (ph + 1 =? 2 * (M - 1)) = false) by (apply Z.eqb_neq; lia).
      rewrite E.
      destruct (Z.ltb_spec (ph + 1) (M - 1)); [lia |].
      destruct (Z.eqb_spec (2 * (M - 1) - ph) (M - 2)); f_equal; lia.
Qed.

Lemma mod_succ : forall n p,
  0 < p -> (n + 1) mod p = if n mod p + 1 =? p then 0 else n mod p + 1.
Proof.
  intros n p Hp.
  pose proof (Z.mod_pos_bound n p Hp) as Hb.
  pose proof (Z.div_mod n p ltac:(lia)) as Hd.
  destruct (Z.eqb_spec (n mod p + 1) p) as [E | E]; symmetry.
  - apply (Z.mod_unique (n + 1) p (n / p + 1) 0); [left; lia | lia].
  - apply (Z.mod_unique (n + 1) p (n / p) (n mod p + 1)); [left; lia | lia].
Qed.

Lemma period_ge_6 : 6 <= period len.
Proof. pose proof ramp_max_ge_4. unfold period. lia. Qed.

(** After [n >= 1] edges from power-up the registers are at phase
    [n mod period]. *)
Lemma iter_phase : forall n : nat,
  Nat.iter (S n) (step len) (0, 0) =
  phase_regs len (Z.of_nat (S n) mod period len).
Proof.
  pose proof ramp_max_ge_4 as HM. pose proof period_ge_6 as HP.
  induction n as [| n IH].
  - change (Nat.iter 1 (step len) (0, 0)) with (step len (0, 0)).
    change (Z.of_nat 1) with 1.
    rewrite Z.mod_small by lia.
    unfold step, phase_regs.
    assert (W1 : wrap len 1 = 1) by (apply (wrap_unique 1 0); lia).
    rewrite W1.
    destruct (Z.eqb_spec 0 1); [lia |].
    destruct (Z.eqb_spec 0 (ramp_max len - 2)); [lia |].
    cbn [Z.eqb].
    destruct (Z.ltb_spec 1 (ramp_max len - 1)); [reflexivity | lia].
  - change (Nat.iter (S (S n)) (step len) (0, 0))
      with (step len (Nat.iter (S n) (step len) (0, 0))).
    rewrite IH.
    rewrite step_phase by (apply Z.mod_pos_bound; lia).
    replace (Z.of_nat (S (S n))) with (Z.of_nat (S n) + 1) by lia.
    rewrite (mod_succ (Z.of_nat (S n)) (period len)) by lia.
    reflexivity.
Qed.

Lemma ramp_value : forall n : nat,
  fst (Nat.iter n (step len) (0, 0)) = triangle len (Z.of_nat n).
Proof.
  pose proof ramp_max_ge_4 as HM. pose proof period_ge_6 as HP.
  intros [| n].
  - unfold triangle. cbn [Nat.iter nat_rect fst Z.of_nat]. rewrite Zmod_0_l.
    destruct (Z.leb_spec 0 (ramp_max len - 1)); lia.
  - rewrite iter_phase. unfold triangle, phase_regs.
    pose proof (Z.mod_pos_bound (Z.of_nat (S n)) (period len) ltac:(lia)) as Hb.
    set (ph := Z.of_nat (S n) mod period len) in *.
    unfold period in *.
    destruct (Z.ltb_spec ph (ramp_max len - 1)),
             (Z.leb_spec ph (ramp_max len - 1)); cbn [fst]; lia.
Qed.

(** The wave moves by one each cycle: up in the first half of the period,
    down in the second. *)
Lemma triangle_succ : forall n,
  0 <= n ->
  triangle len (n + 1) =
  if n mod period len <? ramp_max len - 1
  then triangle len n + 1 else triangle len n - 1.
Proof.
  pose proof ramp_max_ge_4 as HM. pose proof period_ge_6 as HP.
  intros n Hn. unfold triangle.
  rewrite (mod_succ n (period len)) by lia.
  pose proof (Z.mod_pos_bound n (period len) ltac:(lia)) as Hb.
  set (ph := n mod period len) in *.
  unfold period in *.
  destruct (Z.eqb_spec (ph + 1) (2 * (ramp_max len - 1)));
    destruct (Z.ltb_spec ph (ramp_max len - 1));
    repeat match goal with
           | |- context [?a <=? ?b] => destruct (Z.leb_spec a b)
           end; lia.
Qed.

Lemma triangle_periodic : forall n,
  triangle len (n + period len) = triangle len n.
Proof.
  pose proof period_ge_6 as HP.
  intros n. unfold triangle.
  replace (n + period len) with (n + 1 * period len) by lia.
  rewrite Z.mod_add by lia. reflexivity.
Qed.

Lemma triangle_range : forall n,
  0 <= triangle len n <= ramp_max len - 1.
Proof.
  pose proof ramp_max_ge_4 as HM. pose proof period_ge_6 as HP.
  intros n. unfold triangle.
  pose proof (Z.mod_pos_bound n (period len) ltac:(lia)) as Hb.
  set (ph := n mod period len) in *. unfold period in *.
  destruct (Z.leb_spec ph (ramp_max len - 1)); lia.
Qed.

Lemma triangle_top : triangle len (ramp_max len - 1) = ramp_max len - 1.
Proof.
  pose proof ramp_max_ge_4 as HM.
  unfold triangle. rewrite Z.mod_small by (unfold period; lia).
  destruct (Z.leb_spec (ramp_max len - 1) (ramp_max len - 1)); lia.
Qed.

End Ramp.

End RampFacts.

(* ===================================================================== *)
(** * The reset generator and the RAMs                                   *)
(* ===================================================================== *)

Module ResetFacts.
Import Kernel KernelFacts BlockRam BlockRam.Reset.

Local Notation "'edge'" :=
  (clock_edge sig_eq_dec width design clk Rising) (only parsing).

Lemma reset_edge_view : forall s : Store sig,
  quiet s -> view (edge s) = step (view s).
Proof.
  intros s Hq. unfold view, step.
  cbv [clock_edge edge_bodies design gen_reset filter fires_on trigger map
       body run_blocks gen_reset_logic get get_next set skip].
  split_ifs; rewrite ?Hq; reflexivity.
Qed.

Lemma reset_design_seq_only : comb_bodies design = [].
Proof. reflexivity. Qed.

Lemma reset_tick_view : forall fuel (s : Store sig),
  quiet s ->
  exists s',
    tick sig_eq_dec width (S fuel) signals design clk [] s = Settled s' /\
    quiet s' /\ view s' = step (view s).
Proof.
  intros fuel s Hq.
  rewrite tick_seq_only by apply reset_design_seq_only.
  eexists. split; [reflexivity |]. split.
  - intros x. reflexivity.
  - rewrite reset_edge_view.
    + unfold view. cbn. rewrite !Hq. reflexivity.
    + intros x. reflexivity.
Qed.

Lemma reset_simulate_view : forall fuel (n : nat) (s : Store sig),
  quiet s ->
  exists s',
    simulate sig_eq_dec width (S fuel) signals design clk (repeat [] n) s
      = Settled s' /\
    quiet s' /\ view s' = Nat.iter n step (view s).
Proof.
  intros fuel n. induction n as [| n IH]; intros s Hq.
  - exists s. repeat split; exact Hq.
  - destruct (reset_tick_view fuel s Hq) as (s1 & Ht & Hq1 & Hv1).
    destruct (IH s1 Hq1) as (s2 & Hs & Hq2 & Hv2).
    exists s2. cbn [repeat simulate]. rewrite Ht.
    split; [exact Hs |]. split; [exact Hq2 |].
    rewrite Hv2, Hv1. symmetry. apply Nat.iter_succ_r.
Qed.

Lemma probe_reset_o : forall fuel (n : nat),
  probe reset_o (clk_sim (S fuel) n) = Some (snd (Nat.iter n step (0, 0))).
Proof.
  intros fuel n. unfold clk_sim, run.
  change power_up with (commit power_up).
  rewrite settle_seq_only by apply reset_design_seq_only.
  destruct (reset_simulate_view fuel n (commit power_up)) as (s' & Hs & _ & Hv).
  - intros x. reflexivity.
  - rewrite Hs. cbn [probe]. f_equal.
    change (cur s' reset_o) with (snd (view s')). rewrite Hv. reflexivity.
Qed.

(** After the first edge the counter sits at 1 for good. *)
Lemma iter_released : forall n : nat,
  Nat.iter (S (S n)) step (0, 0) = (1, 0).
Proof.
  induction n as [| n IH].
  - reflexivity.
  - change (Nat.iter (S (S (S n))) step (0, 0))
      with (step (Nat.iter (S (S n)) step (0, 0))).
    rewrite IH. reflexivity.
Qed.

End ResetFacts.

Module RamFacts.
Import Kernel KernelFacts BlockRam BlockRam.Bench.

Section Widths.

Variables aw dw : Z.

Lemma wrap_small : forall w v, 0 <= v < 2 ^ w -> wrap w v = v.
Proof. intros w v H. apply Z.mod_small. exact H. Qed.

Lemma single_seq_only : comb_bodies single = [].
Proof. reflexivity. Qed.

Lemma simpler_seq_only : comb_bodies simpler = [].
Proof. reflexivity. Qed.

Lemma dual_seq_only : comb_bodies dual = [].
Proof. reflexivity. Qed.

Ltac unwrap :=
  repeat match goal with
         | H : 0 <= ?v < 2 ^ ?w |- context [wrap ?w ?v] =>
             rewrite (wrap_small w v H)
         | H : 0 <= ?v < 2 ^ ?w, H' : context [wrap ?w ?v] |- _ =>
             rewrite (wrap_small w v H) in H'
         end.

Ltac run_cycle H :=
  unfold cycle; rewrite tick_seq_only by exact H;
  eexists; split; [reflexivity |].

Ltac eval_edge :=
  cbv [clock_edge edge_bodies single simpler dual ram simpler_ram dualport_ram
       filter fires_on trigger map body run_blocks ram_logic
       simpler_ram_logic dualport_ram_logic get set skip app drive];
  cbn.


(** [ram]: a read cycle puts the addressed location on [data_o] and
    leaves the memory alone. *)
Lemma single_read : forall fuel i (s : Store sig),
  0 <= i < 2 ^ aw ->
  exists s1,
    cycle aw dw (S fuel) single [(wr, 0); (addr, i)] s = Settled s1 /\
    quiet s1 /\ cur s1 data_o = wrap dw (nxt s (mem i)).
Proof.
  intros fuel i s Hi. run_cycle single_seq_only.
  split; [intros x; reflexivity |].
  eval_edge. rewrite ?(wrap_small aw i Hi).
  split_ifs; unwrap; congruence.
Qed.




(** [dualport_ram]: one cycle with a write request [w] at address [j] and
    a read at address [r].  The read returns what the location held
    before the edge, whatever is written. *)
Lemma dual_cycle : forall fuel w j v r (s : Store sig),
  0 <= j < 2 ^ aw -> 0 <= r < 2 ^ aw -> 0 <= v < 2 ^ dw ->
  exists s1,
    cycle aw dw (S fuel) dual
          [(wr, w); (wr_addr, j); (data_i, v); (rd_addr, r)] s = Settled s1 /\
    quiet s1 /\
    cur s1 data_o = wrap dw (nxt s (mem r)) /\
    (wrap 1 w <> 0 -> cur s1 (mem j) = v) /\
    (forall k, k <> j -> cur s1 (mem k) = nxt s (mem k)).
Proof.
  intros fuel w j v r s Hj Hr Hv. run_cycle dual_seq_only.
  split; [intros x; reflexivity |].
  eval_edge.
  rewrite ?(wrap_small aw j Hj), ?(wrap_small aw r Hr), ?(wrap_small dw v Hv).
  repeat split.
  - split_ifs; unwrap; congruence.
  - intros Hw. apply Z.eqb_neq in Hw. rewrite Hw. split_ifs; unwrap; congruence.
  - intros k Hk. split_ifs; unwrap; congruence.
Qed.

(** The same cycle seen before the commit: the write sits in the next
    slot of the location while its current value is still the old one. *)
Lemma dual_edge_slots : forall j v (s : Store sig),
  cur s wr <> 0 -> cur s wr_addr = j -> cur s rd_addr = j ->
  cur s data_i = v ->
  let mid := run_blocks sig_eq_dec (width aw dw)
                        (edge_bodies sig_eq_dec dual clk Rising) s in
  nxt mid (mem j) = wrap dw v /\
  cur mid (mem j) = cur s (mem j) /\
  nxt mid data_o = wrap dw (cur s (mem j)).
Proof.
  intros j v s Hw Hj Hr Hv. apply Z.eqb_neq in Hw.
  cbv [edge_bodies dual dualport_ram filter fires_on trigger map body
       run_blocks dualport_ram_logic get set skip].
  cbn. rewrite Hw. cbn. rewrite ?Hj, ?Hr, ?Hv.
  repeat split; split_ifs; congruence.
Qed.

End Widths.

End RamFacts.

(* ===================================================================== *)
(** * The four-state machine                                             *)
(* ===================================================================== *)

Module ClassicFacts.
Import Kernel KernelFacts Fsm Fsm.Classic.

Local Notation "'edge'" :=
  (clock_edge sig_eq_dec width classic_fsm clk Rising) (only parsing).
Local Notation "'round'" :=
  (comb_round sig_eq_dec width classic_fsm) (only parsing).

(** The state register after a rising edge is an encoded state, provided
    the value scheduled before the edge was one. *)
Lemma edge_state : forall s : Store sig,
  0 <= nxt s fsm_state <= 3 -> 0 <= cur (edge s) fsm_state <= 3.
Proof.
  intros s H.
  cbv [clock_edge edge_bodies classic_fsm Debouncer.debouncer app filter
       fires_on trigger map body run_blocks
       Debouncer.next_state_logic Debouncer.output_logic
       next_state_logic on_change get set skip get_bus len_inputs].
  split_ifs; lia.
Qed.

Ltac eval_round :=
  cbv [comb_round comb_bodies classic_fsm Debouncer.debouncer app filter
       is_comb trigger map body run_blocks detect_chg output_logic
       get set skip get_bus len_inputs].

(** A combinational round drives [outputs] and [input_chgs] and nothing
    else. *)
Lemma round_frame : forall (s : Store sig) x,
  x <> outputs -> x <> input_chgs -> cur (round s) x = nxt s x.
Proof.
  intros s x Ho Hc. eval_round. split_ifs; congruence.
Qed.

Lemma round_outputs : forall s : Store sig,
  cur (round s) outputs = output_of (cur s fsm_state).
Proof.
  intros s. unfold output_of. eval_round. split_ifs; congruence.
Qed.

Lemma round_chgs : forall s t : Store sig,
  cur s (dbnc_inputs 0%nat) = cur t (dbnc_inputs 0%nat) ->
  cur s (dbnc_inputs 1%nat) = cur t (dbnc_inputs 1%nat) ->
  cur s prev_inputs = cur t prev_inputs ->
  cur (round s) input_chgs = cur (round t) input_chgs.
Proof.
  intros s t H0 H1 Hp. eval_round. cbn. rewrite H0, H1, Hp.
  split_ifs; reflexivity.
Qed.

Lemma round_quiet : forall s : Store sig, quiet (round s).
Proof. intros s x. reflexivity. Qed.

(** On a store with nothing pending a second round changes nothing. *)
Lemma round_idempotent : forall (s : Store sig) x,
  quiet s -> cur (round (round s)) x = cur (round s) x.
Proof.
  intros s x Hq.
  destruct (sig_eq_dec x outputs) as [-> | Ho].
  - rewrite !round_outputs. rewrite round_frame by discriminate.
    rewrite Hq. reflexivity.
  - destruct (sig_eq_dec x input_chgs) as [-> | Hc].
    + apply round_chgs; rewrite round_frame by discriminate; apply Hq.
    + rewrite round_frame by assumption. apply round_quiet.
Qed.

(** Settling: two rounds of fuel suffice, the registers stay, and
    [outputs] shows the state. *)
Lemma settle_outputs : forall fuel (s : Store sig),
  quiet s ->
  exists s',
    settle sig_eq_dec width (S (S fuel)) signals classic_fsm s = Settled s' /\
    quiet s' /\
    cur s' fsm_state = cur s fsm_state /\
    cur s' outputs = output_of (cur s fsm_state).
Proof.
  intros fuel s Hq.
  destruct (settle_two_rounds _ sig_eq_dec width fuel signals classic_fsm s)
    as (s' & Hs & Hq' & Hcur).
  - intros x. apply round_idempotent. exact Hq.
  - exists s'. split; [exact Hs |]. split; [exact Hq' |]. split.
    + rewrite Hcur, round_frame by discriminate. apply Hq.
    + rewrite Hcur. apply round_outputs.
Qed.

Lemma tick_settled : forall fuel v (s : Store sig),
  settled_state s ->
  exists s',
    tick sig_eq_dec width (S (S fuel)) signals classic_fsm clk
         (bus_stimulus inputs len_inputs v) s = Settled s' /\
    settled_state s'.
Proof.
  intros fuel v s (Hq & Hst & _). unfold tick.
  match goal with
  | |- context [Kernel.settle _ _ _ _ _ (commit ?a)] =>
      destruct (settle_outputs fuel (commit a)) as (s1 & Hs1 & Hq1 & Hst1 & _);
      [intros x; reflexivity |]
  end.
  rewrite Hs1.
  assert (Hst1' : 0 <= cur s1 fsm_state <= 3).
  { rewrite Hst1. cbn. rewrite Hq. exact Hst. }
  match goal with
  | |- context [Kernel.clock_edge _ _ _ _ _ ?pre] =>
      pose proof (edge_state pre) as Hedge;
      destruct (settle_outputs fuel
                  (clock_edge sig_eq_dec width classic_fsm clk Rising pre))
        as (s2 & Hs2 & Hq2 & Hst2 & Hout2);
      [intros x; reflexivity |]
  end.
  exists s2. split; [exact Hs2 |]. split; [exact Hq2 |]. split.
  - rewrite Hst2. apply Hedge. cbn. rewrite Hq1. exact Hst1'.
  - rewrite Hout2, Hst2. reflexivity.
Qed.

Lemma power_up_settled : forall fuel,
  exists s0,
    settle sig_eq_dec width (S (S fuel)) signals classic_fsm power_up
      = Settled s0 /\
    settled_state s0.
Proof.
  intros fuel.
  destruct (settle_outputs fuel power_up) as (s0 & Hs & Hq & Hst & Hout).
  - intros x. reflexivity.
  - exists s0. split; [exact Hs |]. split; [exact Hq |]. split.
    + rewrite Hst. cbn. lia.
    + rewrite Hout, Hst. reflexivity.
Qed.

Lemma run_settled : forall fuel ins,
  exists s, simulate_fsm (S (S fuel)) ins = Settled s /\ settled_state s.
Proof.
  intros fuel ins. unfold simulate_fsm, run.
  destruct (power_up_settled fuel) as (s0 & Hs0 & HJ0). rewrite Hs0.
  apply (simulate_invariant _ sig_eq_dec width settled_state); [| exact HJ0].
  intros stim s Hin HJ. unfold fsm_tb in Hin. apply in_map_iff in Hin.
  destruct Hin as (v & <- & _). apply tick_settled. exact HJ.
Qed.

Lemma output_of_one_hot : forall st,
  0 <= st <= 3 ->
  one_hot (output_of st) = true /\ popcount4 (output_of st) = 1.
Proof.
  intros st H.
  assert (C : st = 0 \/ st = 1 \/ st = 2 \/ st = 3) by lia.
  destruct C as [-> | [-> | [-> | ->]]]; split; reflexivity.
Qed.

End ClassicFacts.

(* ===================================================================== *)
(** * The ripple-carry adder                                             *)
(* ===================================================================== *)

Module AdderFacts.
Import Kernel KernelFacts Blinker Blinker.AdderBench.

Local Notation "'stage'" :=
  (fun k => full_adder_logic (a_i k) (b_i k) (c k) (s_o k) (c (S k)))
  (only parsing).

(** The combinational bodies of an [n]-stage adder: the tie of the first
    carry, then the stages in order. *)
Lemma comb_bodies_stages : forall l : list nat,
  comb_bodies
    (flat_map (fun k => full_adder_bit (a_i k) (b_i k) (c k) (s_o k) (c (S k))) l)
  = map stage l.
Proof.
  induction l as [| k l IH].
  - reflexivity.
  - cbn. f_equal. exact IH.
Qed.

Lemma comb_bodies_design : forall n,
  comb_bodies (design n) = set (c O) 0 :: map stage (seq 0 n).
Proof.
  intros n. unfold design, adder.
  change (comb_bodies (?b :: ?r)) with (body b :: comb_bodies r).
  f_equal. apply comb_bodies_stages.
Qed.

(** What the stages of a list leave in each next slot. *)
Lemma run_stages_sum : forall (l : list nat) (s : Store sig) k,
  nxt (run_blocks sig_eq_dec width (map stage l) s) (s_o k) =
  if existsb (Nat.eqb k) l then wrap 1 (Z.lxor (Z.lxor (cur s (a_i k)) (cur s (b_i k))) (cur s (c k))) else nxt s (s_o k).
Proof.
  induction l as [| j l IH]; intros s k.
  - reflexivity.
  - cbn [map Kernel.run_blocks existsb]. rewrite IH.
    rewrite !exec_cur.
    destruct (existsb (Nat.eqb k) l).
    + rewrite Bool.orb_true_r. reflexivity.
    + rewrite Bool.orb_false_r. cbn -[sig_eq_dec].
      destruct (sig_eq_dec (s_o k) (c (S j))) as [E | _]; [discriminate E |].
      destruct (sig_eq_dec (s_o k) (s_o j)) as [E | E].
      * injection E as ->. rewrite Nat.eqb_refl. reflexivity.
      * destruct (Nat.eqb_spec k j) as [-> | _]; [congruence | reflexivity].
Qed.

Lemma run_stages_carry : forall (l : list nat) (s : Store sig) k,
  nxt (run_blocks sig_eq_dec width (map stage l) s) (c (S k)) =
  if existsb (Nat.eqb k) l then wrap 1 (Z.lor (Z.lor (Z.land (cur s (a_i k)) (cur s (b_i k)))
                (Z.land (cur s (a_i k)) (cur s (c k))))
         (Z.land (cur s (b_i k)) (cur s (c k)))) else nxt s (c (S k)).
Proof.
  induction l as [| j l IH]; intros s k.
  - reflexivity.
  - cbn [map Kernel.run_blocks existsb]. rewrite IH.
    rewrite !exec_cur.
    destruct (existsb (Nat.eqb k) l).
    + rewrite Bool.orb_true_r. reflexivity.
    + rewrite Bool.orb_false_r. cbn -[sig_eq_dec].
      destruct (sig_eq_dec (c (S k)) (c (S j))) as [E | E].
      * injection E as ->. rewrite Nat.eqb_refl. reflexivity.
      * destruct (sig_eq_dec (c (S k)) (s_o j)) as [E' | _]; [discriminate E' |].
        destruct (Nat.eqb_spec k j) as [-> | _]; [congruence | reflexivity].
Qed.

Lemma run_stages_other : forall (l : list nat) (s : Store sig) x,
  (forall k, x <> s_o k) -> (forall k, x <> c (S k)) ->
  nxt (run_blocks sig_eq_dec width (map stage l) s) x = nxt s x.
Proof.
  induction l as [| j l IH]; intros s x Hs Hc.
  - reflexivity.
  - cbn [map Kernel.run_blocks]. rewrite IH by assumption. cbn -[sig_eq_dec].
    destruct (sig_eq_dec x (c (S j))) as [E | _]; [exfalso; exact (Hc j E) |].
    destruct (sig_eq_dec x (s_o j)) as [E | _]; [exfalso; exact (Hs j E) |].
    reflexivity.
Qed.

Lemma existsb_seq : forall k n,
  existsb (Nat.eqb k) (seq 0 n) = (k <? n)%nat.
Proof.
  intros k n. destruct (Nat.ltb_spec k n) as [Hlt | Hge].
  - apply existsb_exists. exists k. split; [| apply Nat.eqb_refl].
    apply in_seq. lia.
  - destruct (existsb (Nat.eqb k) (seq 0 n)) eqn:E; [| reflexivity].
    apply existsb_exists in E. destruct E as (j & Hin & Hj).
    apply Nat.eqb_eq in Hj. apply in_seq in Hin. lia.
Qed.


(** One round of the adder, signal by signal. *)
Lemma round_sum : forall n (s : Store sig) k,
  (k < n)%nat -> cur (comb_round sig_eq_dec width (design n) s) (s_o k) = wrap 1 (Z.lxor (Z.lxor (cur s (a_i k)) (cur s (b_i k))) (cur s (c k))).
Proof.
  intros n s k Hk. unfold comb_round. rewrite comb_bodies_design.
  cbn [commit cur Kernel.run_blocks]. rewrite run_stages_sum, existsb_seq.
  apply Nat.ltb_lt in Hk. rewrite Hk. reflexivity.
Qed.

Lemma round_carry : forall n (s : Store sig) k,
  (k < n)%nat -> cur (comb_round sig_eq_dec width (design n) s) (c (S k)) = wrap 1 (Z.lor (Z.lor (Z.land (cur s (a_i k)) (cur s (b_i k)))
                (Z.land (cur s (a_i k)) (cur s (c k))))
         (Z.land (cur s (b_i k)) (cur s (c k)))).
Proof.
  intros n s k Hk. unfold comb_round. rewrite comb_bodies_design.
  cbn [commit cur Kernel.run_blocks]. rewrite run_stages_carry, existsb_seq.
  apply Nat.ltb_lt in Hk. rewrite Hk. reflexivity.
Qed.

Lemma round_tie : forall n (s : Store sig), cur (comb_round sig_eq_dec width (design n) s) (c O) = 0.
Proof.
  intros n s. unfold comb_round. rewrite comb_bodies_design.
  cbn [commit cur Kernel.run_blocks].
  rewrite run_stages_other by discriminate. reflexivity.
Qed.

Lemma round_input_a : forall n (s : Store sig) k,
  cur (comb_round sig_eq_dec width (design n) s) (a_i k) = nxt s (a_i k).
Proof.
  intros n s k. unfold comb_round. rewrite comb_bodies_design.
  cbn [commit cur Kernel.run_blocks].
  rewrite run_stages_other by discriminate. reflexivity.
Qed.

Lemma round_input_b : forall n (s : Store sig) k,
  cur (comb_round sig_eq_dec width (design n) s) (b_i k) = nxt s (b_i k).
Proof.
  intros n s k. unfold comb_round. rewrite comb_bodies_design.
  cbn [commit cur Kernel.run_blocks].
  rewrite run_stages_other by discriminate. reflexivity.
Qed.

(** ** Bits as integers *)

Lemma wrap_b2z : forall x : bool, wrap 1 (Z.b2z x) = Z.b2z x.
Proof. destruct x; reflexivity. Qed.

Lemma xor3_b2z : forall x y z : bool,
  Z.lxor (Z.lxor (Z.b2z x) (Z.b2z y)) (Z.b2z z) = Z.b2z (xorb (xorb x y) z).
Proof. destruct x, y, z; reflexivity. Qed.

Lemma maj_b2z : forall x y z : bool,
  Z.lor (Z.lor (Z.land (Z.b2z x) (Z.b2z y)) (Z.land (Z.b2z x) (Z.b2z z)))
        (Z.land (Z.b2z y) (Z.b2z z))
  = Z.b2z ((x && y) || (x && z) || (y && z)).
Proof. destruct x, y, z; reflexivity. Qed.

Lemma full_adder_arith : forall x y z : bool,
  Z.b2z (xorb (xorb x y) z) + 2 * Z.b2z ((x && y) || (x && z) || (y && z))
  = Z.b2z x + Z.b2z y + Z.b2z z.
Proof. destruct x, y, z; reflexivity. Qed.

(** ** The ripple, round by round *)

Section Ripple.

Variable n : nat.
Variables a b : Z.

Lemma rippled_weaken : forall j j' (s : Store sig),
  (j' <= j)%nat -> rippled n a b j s -> rippled n a b j' s.
Proof.
  intros j j' s Hle (Hin & Hc & Hs). split; [exact Hin |]. split.
  - intros k Hk Hj. apply Hc; lia.
  - intros k Hk Hj. apply Hs; lia.
Qed.

(** A round extends the settled part of the ripple by one stage. *)
Lemma rippled_round : forall j (s : Store sig),
  rippled n a b j s -> rippled n a b (S j) (comb_round sig_eq_dec width (design n) s).
Proof.
  intros j s (Hin & Hc & Hs). split; [| split].
  - intros k Hk. destruct (Hin k Hk) as (_ & Ha & _ & Hb).
    rewrite round_input_a, round_input_b.
    change (nxt (comb_round sig_eq_dec width (design n) s) (a_i k)) with (cur (comb_round sig_eq_dec width (design n) s) (a_i k)).
    change (nxt (comb_round sig_eq_dec width (design n) s) (b_i k)) with (cur (comb_round sig_eq_dec width (design n) s) (b_i k)).
    rewrite round_input_a, round_input_b. tauto.
  - intros [| k] Hk Hj.
    + apply round_tie.
    + rewrite round_carry by lia.
      destruct (Hin k ltac:(lia)) as (Ha & _ & Hb & _).
      rewrite Ha, Hb, (Hc k) by lia.
      rewrite maj_b2z, wrap_b2z. reflexivity.
  - intros k Hk Hj. rewrite round_sum by lia.
    destruct (Hin k Hk) as (Ha & _ & Hb & _).
    rewrite Ha, Hb, (Hc k) by lia.
    rewrite xor3_b2z, wrap_b2z. reflexivity.
Qed.

Lemma in_signals : forall x,
  In x (signals n) <->
  exists k, (x = a_i k /\ (k < n)%nat) \/ (x = b_i k /\ (k < n)%nat) \/
            (x = s_o k /\ (k < n)%nat) \/ (x = c k /\ (k <= n)%nat).
Proof.
  intros x. unfold signals. rewrite !in_app_iff, !in_map_iff. split.
  - intros [(k & <- & H) | [(k & <- & H) | [(k & <- & H) | (k & <- & H)]]];
      apply in_seq in H; exists k; [left | right; left | right; right; left
                                    | right; right; right]; split;
      try reflexivity; lia.
  - intros (k & [(-> & H) | [(-> & H) | [(-> & H) | (-> & H)]]]);
      [left | right; left | right; right; left | right; right; right];
      exists k; (split; [reflexivity | apply in_seq; lia]).
Qed.

(** A fully rippled store is a fixed point of the round. *)
Lemma rippled_fixed : forall s : Store sig,
  rippled n a b (S n) s ->
  forall x, In x (signals n) -> cur s x = cur (comb_round sig_eq_dec width (design n) s) x.
Proof.
  intros s Hr x Hx.
  pose proof (rippled_round (S n) s Hr) as (Hin' & Hc' & Hs').
  destruct Hr as (Hin & Hc & Hs).
  apply in_signals in Hx.
  destruct Hx as (k & [(-> & H) | [(-> & H) | [(-> & H) | (-> & H)]]]).
  - destruct (Hin k H) as (E & _). destruct (Hin' k H) as (E' & _). congruence.
  - destruct (Hin k H) as (_ & _ & E & _).
    destruct (Hin' k H) as (_ & _ & E' & _). congruence.
  - rewrite Hs, Hs' by lia. reflexivity.
  - rewrite Hc, Hc' by lia. reflexivity.
Qed.

(** A fixed point of the round that carries the inputs is fully
    rippled. *)
Lemma fixed_rippled : forall s : Store sig,
  inputs_hold n a b s ->
  (forall x, In x (signals n) -> cur s x = cur (comb_round sig_eq_dec width (design n) s) x) ->
  rippled n a b (S n) s.
Proof.
  intros s Hin Hfix.
  assert (Hc : forall k, (k <= n)%nat -> cur s (c k) = Z.b2z (carry a b k)).
  { induction k as [| k IH]; intros Hk.
    - rewrite Hfix by (apply in_signals; exists O; tauto). apply round_tie.
    - rewrite Hfix by (apply in_signals; exists (S k); tauto).
      rewrite round_carry by lia.
      destruct (Hin k ltac:(lia)) as (Ha & _ & Hb & _).
      rewrite Ha, Hb, IH by lia.
      rewrite maj_b2z, wrap_b2z. reflexivity. }
  split; [exact Hin |]. split.
  - intros k Hk _. apply Hc. exact Hk.
  - intros k Hk _.
    rewrite Hfix by (apply in_signals; exists k; tauto).
    rewrite round_sum by lia.
    destruct (Hin k Hk) as (Ha & _ & Hb & _).
    rewrite Ha, Hb, Hc by lia.
    rewrite xor3_b2z, wrap_b2z. reflexivity.
Qed.

Lemma unchanged_in : forall (signals : list sig) (s s' : Store sig),
  (forall x, In x signals -> cur s x = cur s' x) ->
  unchanged signals s s' = true.
Proof.
  intros signals s s' H. unfold unchanged. apply forallb_forall.
  intros x Hx. apply Z.eqb_eq. apply H. exact Hx.
Qed.

(** Settling ends, with the ripple complete, as soon as the fuel covers
    the stages that are still to settle. *)
Lemma settle_rippled : forall fuel j (s : Store sig),
  rippled n a b j s -> (n + 1 <= j + fuel)%nat ->
  exists s',
    settle sig_eq_dec width (S fuel) (signals n) (design n) s = Settled s' /\
    rippled n a b (S n) s'.
Proof.
  induction fuel as [| fuel IH]; intros j s Hr Hfuel;
    cbn [Kernel.settle];
    destruct (unchanged (signals n) s (comb_round sig_eq_dec width (design n) s)) eqn:U.
  - eexists. split; [reflexivity |].
    apply (rippled_weaken (S (S n))); [lia |].
    apply rippled_round. apply fixed_rippled; [apply Hr |].
    intros x Hx. eapply unchanged_true; eassumption.
  - exfalso. rewrite unchanged_in in U; [discriminate |].
    apply rippled_fixed. apply (rippled_weaken j); [lia | exact Hr].
  - eexists. split; [reflexivity |].
    apply (rippled_weaken (S (S n))); [lia |].
    apply rippled_round. apply fixed_rippled; [apply Hr |].
    intros x Hx. eapply unchanged_true; eassumption.
  - apply (IH (S j)); [apply rippled_round; exact Hr | lia].
Qed.

(** ** The settled bits add up *)

Lemma bus_value_bits : forall (f : nat -> bool) (s : Store sig) m,
  (forall k, (k < m)%nat -> cur s (s_o k) = Z.b2z (f k)) ->
  bus_value s_o m s = bits_value f m.
Proof.
  induction m as [| m IH]; intros H.
  - reflexivity.
  - cbn [bus_value bits_value]. rewrite IH by (intros k Hk; apply H; lia).
    rewrite H by lia. reflexivity.
Qed.

Lemma bits_value_bound : forall (f : nat -> bool) m,
  0 <= bits_value f m < 2 ^ Z.of_nat m.
Proof.
  induction m as [| m IH].
  - cbn. lia.
  - cbn [bits_value]. rewrite Nat2Z.inj_succ, Z.pow_succ_r by lia.
    destruct (f m); cbn [Z.b2z]; lia.
Qed.

Lemma mod_pow2_succ : forall v m,
  v mod 2 ^ Z.of_nat (S m) =
  v mod 2 ^ Z.of_nat m + Z.b2z (Z.testbit v (Z.of_nat m)) * 2 ^ Z.of_nat m.
Proof.
  intros v m. rewrite Nat2Z.inj_succ, Z.pow_succ_r by lia.
  rewrite (Z.mul_comm 2).
  rewrite Z.rem_mul_r by (try apply Z.pow_nonzero; lia).
  rewrite Z.testbit_spec' by lia. lia.
Qed.

Lemma ripple_value : forall m,
  bits_value (sum_bit a b) m + Z.b2z (carry a b m) * 2 ^ Z.of_nat m
  = a mod 2 ^ Z.of_nat m + b mod 2 ^ Z.of_nat m.
Proof.
  induction m as [| m IH].
  - cbn. rewrite !Z.mod_1_r. reflexivity.
  - rewrite !mod_pow2_succ.
    cbn [bits_value carry]. unfold sum_bit at 2.
    pose proof (full_adder_arith (Z.testbit a (Z.of_nat m))
                                 (Z.testbit b (Z.of_nat m)) (carry a b m)) as E.
    rewrite Nat2Z.inj_succ, Z.pow_succ_r by lia.
    set (P := 2 ^ Z.of_nat m) in *.
    set (sb := Z.b2z (xorb (xorb (Z.testbit a (Z.of_nat m))
                                 (Z.testbit b (Z.of_nat m))) (carry a b m))) in *.
    set (cb := Z.b2z (Z.testbit a (Z.of_nat m) && Z.testbit b (Z.of_nat m)
                      || Z.testbit a (Z.of_nat m) && carry a b m
                      || Z.testbit b (Z.of_nat m) && carry a b m)) in *.
    set (xa := Z.b2z (Z.testbit a (Z.of_nat m))) in *.
    set (xb := Z.b2z (Z.testbit b (Z.of_nat m))) in *.
    set (cm := Z.b2z (carry a b m)) in *.
    assert (H : sb * P + cb * (2 * P) = (xa + xb + cm) * P)
      by (rewrite <- E; ring).
    lia.
Qed.

End Ripple.

End AdderFacts.

(* ===================================================================== *)
(** * The three-bit blinker                                              *)
(* ===================================================================== *)

Module BlinkerFacts.
Import Kernel KernelFacts Blinker Blinker.Top.

(** Four rounds of fuel settle the three-bit blinker at every instant of
    the first sixteen cycles; with them the counter and the LED are as
    follows. *)
Lemma first_cycles : forall k : nat,
  (k <= 16)%nat ->
  cnt_value 3 (clk_sim 4 3 k) = Some (Z.of_nat k mod 8) /\
  probe led (clk_sim 4 3 k) = Some ((Z.of_nat k / 4) mod 2) /\
  probe (cnt 2%nat) (clk_sim 4 3 k) = Some ((Z.of_nat k / 4) mod 2).
Proof.
  intros k Hk.
  do 17 (destruct k as [| k]; [vm_compute; repeat split; reflexivity |]).
  lia.
Qed.

Lemma more_fuel : forall fuel k s,
  (4 <= fuel)%nat ->
  clk_sim 4 3 k = Settled s -> clk_sim fuel 3 k = Settled s.
Proof.
  intros fuel k s Hf H. unfold clk_sim in *.
  apply (run_fuel_le _ sig_eq_dec width 4 fuel); assumption.
Qed.

Lemma cycles : forall fuel k,
  (4 <= fuel)%nat -> (k <= 16)%nat ->
  cnt_value 3 (clk_sim fuel 3 k) = Some (Z.of_nat k mod 8) /\
  probe led (clk_sim fuel 3 k) = Some ((Z.of_nat k / 4) mod 2) /\
  probe (cnt 2%nat) (clk_sim fuel 3 k) = Some ((Z.of_nat k / 4) mod 2).
Proof.
  intros fuel k Hf Hk. pose proof (first_cycles k Hk) as H.
  destruct (clk_sim 4 3 k) as [s |] eqn:E.
  - rewrite (more_fuel fuel k s Hf E). exact H.
  - destruct H as (H & _). discriminate H.
Qed.

End BlinkerFacts.

(* ===================================================================== *)
(** * The properties of the specification                                *)
(* ===================================================================== *)

Module Properties.
Import Kernel KernelFacts.

(** C1.  At a clock edge every sequential block reads the current values
    the signals had before the edge, whatever blocks were evaluated before
    it; the next slots become current only in the commit that follows the
    evaluation of all of them; and for blocks that read current values and
    obey the single-driver rule the store after the edge does not depend
    on the order of the blocks.  In the debouncer both orders of its two
    blocks give the same store, [prev_button] takes the button sample, and
    when the countdown is at zero [button_o] takes the value [prev_button]
    had before the edge. *)
Theorem simultaneous_commit :
  (forall (Sig : Type) (sig_eq_dec : forall x y : Sig, {x = y} + {x <> y})
          (width : Sig -> Z) (before : list (Prog Sig unit))
          (b : Prog Sig unit) (s : Store Sig) (x : Sig) (v : Z),
      In (x, v) (reads sig_eq_dec width b (run_blocks sig_eq_dec width before s)) ->
      v = cur s x) /\
  (forall (Sig : Type) (sig_eq_dec : forall x y : Sig, {x = y} + {x <> y})
          (width : Sig -> Z) (d : list (LogicBlock Sig)) clk pol
          (s : Store Sig) (x : Sig),
      cur (run_blocks sig_eq_dec width (edge_bodies sig_eq_dec d clk pol) s) x
        = cur s x /\
      cur (clock_edge sig_eq_dec width d clk pol s) x
        = nxt (run_blocks sig_eq_dec width (edge_bodies sig_eq_dec d clk pol) s) x) /\
  (forall (Sig : Type) (sig_eq_dec : forall x y : Sig, {x = y} + {x <> y})
          (width : Sig -> Z) (d d' : list (LogicBlock Sig)) clk pol
          (s : Store Sig),
      Permutation d d' ->
      Forall no_peek (edge_bodies sig_eq_dec d clk pol) ->
      single_driver (edge_bodies sig_eq_dec d clk pol) ->
      store_eq (clock_edge sig_eq_dec width d clk pol s)
               (clock_edge sig_eq_dec width d' clk pol s)) /\
  (forall (T : Z) (s : Store Fsm.Debouncer.sig),
      let edge d :=
        clock_edge Fsm.Debouncer.sig_eq_dec (Fsm.Debouncer.width T) d
                   Fsm.Debouncer.clk Rising s in
      store_eq (edge (Fsm.Debouncer.design T))
               (edge (rev (Fsm.Debouncer.design T))) /\
      cur (edge (Fsm.Debouncer.design T)) Fsm.Debouncer.prev_button
        = wrap 1 (cur s Fsm.Debouncer.button_i) /\
      (cur s Fsm.Debouncer.dbcnt = 0 ->
       cur (edge (Fsm.Debouncer.design T)) Fsm.Debouncer.button_o
         = wrap 1 (cur s Fsm.Debouncer.prev_button))).
Proof.
  split; [| split; [| split]].
  - intros Sig sig_eq_dec width before b s x v Hin.
    apply reads_current in Hin. rewrite run_blocks_cur in Hin. exact Hin.
  - intros Sig sig_eq_dec width d clk pol s x. split.
    + rewrite run_blocks_cur. reflexivity.
    + reflexivity.
  - intros Sig sig_eq_dec width d d' clk pol s. apply clock_edge_perm.
  - intros T s edge. split; [| split].
    + apply clock_edge_perm.
      * apply Permutation_rev.
      * apply DebouncerFacts.bodies_no_peek.
      * apply DebouncerFacts.bodies_single_driver.
    + apply (DebouncerFacts.edge_regs T s).
    + intros Hz. destruct (DebouncerFacts.edge_regs T s) as (_ & _ & Ho).
      unfold edge. rewrite Ho, Hz. reflexivity.
Qed.

(** The debouncer with threshold 3 at an edge where the countdown is at
    zero, [prev_button] is 0 and the button reads 1. *)
Lemma simultaneous_commit_witness :
  let s := mkStore (fun x => match x with
                             | Fsm.Debouncer.button_i => 1
                             | _ => 0
                             end)
                   (fun _ : Fsm.Debouncer.sig => 0) in
  let s' := clock_edge Fsm.Debouncer.sig_eq_dec (Fsm.Debouncer.width 3)
                       (Fsm.Debouncer.design 3) Fsm.Debouncer.clk Rising s in
  cur s Fsm.Debouncer.dbcnt = 0 /\
  cur s' Fsm.Debouncer.button_o = 0 /\
  cur s' Fsm.Debouncer.prev_button = 1 /\
  store_eq s'
    (clock_edge Fsm.Debouncer.sig_eq_dec (Fsm.Debouncer.width 3)
                (rev (Fsm.Debouncer.design 3)) Fsm.Debouncer.clk Rising s).
Proof.
  intros s s'.
  destruct simultaneous_commit as (_ & _ & Hperm & Hdeb).
  destruct (Hdeb 3 s) as (_ & Hp & Ho).
  split; [reflexivity |]. split; [| split].
  - exact (Ho eq_refl).
  - exact Hp.
  - apply Hperm.
    + apply Permutation_rev.
    + apply DebouncerFacts.bodies_no_peek.
    + apply DebouncerFacts.bodies_single_driver.
Defined.

(** C2.  A next slot that no block assigns during a round keeps the value
    scheduled before, through the evaluation and through the commit; it
    is not reset.  In the ramp, at an edge where [ramp_o] is neither 1 nor
    [max - 2] and [delta] is not 0, the next slot of [delta] is unchanged;
    in the debouncer, at an edge where the countdown is not 0, the next
    slot of [button_o] is unchanged. *)
Theorem next_slot_persists :
  (forall (Sig : Type) (sig_eq_dec : forall x y : Sig, {x = y} + {x <> y})
          (width : Sig -> Z) (bs : list (Prog Sig unit)) (s : Store Sig)
          (x : Sig),
      ~ In x (driven sig_eq_dec width bs s) ->
      nxt (run_blocks sig_eq_dec width bs s) x = nxt s x /\
      nxt (commit (run_blocks sig_eq_dec width bs s)) x = nxt s x /\
      cur (commit (run_blocks sig_eq_dec width bs s)) x = nxt s x) /\
  (forall (len : Z) (s : Store Pwm.sig),
      cur s Pwm.ramp_o <> 1 ->
      cur s Pwm.ramp_o <> Pwm.ramp_max len - 2 ->
      cur s Pwm.delta <> 0 ->
      nxt (clock_edge Pwm.sig_eq_dec (Pwm.width len) (Pwm.ramp len)
                      Pwm.clk Rising s) Pwm.delta
        = nxt s Pwm.delta) /\
  (forall (T : Z) (s : Store Fsm.Debouncer.sig),
      cur s Fsm.Debouncer.dbcnt <> 0 ->
      nxt (clock_edge Fsm.Debouncer.sig_eq_dec (Fsm.Debouncer.width T)
                      (Fsm.Debouncer.design T) Fsm.Debouncer.clk Rising s)
          Fsm.Debouncer.button_o
        = nxt s Fsm.Debouncer.button_o).
Proof.
  split; [| split].
  - intros Sig sig_eq_dec width bs s x Hnot.
    pose proof (run_blocks_frame Sig sig_eq_dec width bs s x Hnot) as H.
    repeat split; exact H.
  - intros len s H1 Htop Hd.
    apply Z.eqb_neq in H1, Htop, Hd.
    cbv [clock_edge edge_bodies Pwm.ramp filter fires_on trigger map body
         run_blocks Pwm.logic get set skip].
    cbn. rewrite H1. cbn. rewrite Htop. cbn. rewrite Hd. reflexivity.
  - intros T s Hc. apply Z.eqb_neq in Hc.
    cbv [clock_edge edge_bodies Fsm.Debouncer.design Fsm.Debouncer.debouncer
         filter fires_on trigger map body run_blocks
         Fsm.Debouncer.next_state_logic Fsm.Debouncer.output_logic
         get set skip].
    split_ifs; congruence.
Qed.

(** The six-bit ramp on its way up at 5, and the debouncer with threshold
    3 in the middle of its countdown: the pending values 1 of [delta] and
    1 of [button_o] stay. *)
Lemma next_slot_persists_witness :
  let r := mkStore (fun x => match x with
                             | Pwm.ramp_o => 5
                             | Pwm.delta => 1
                             | Pwm.clk => 0
                             end)
                   (fun x => match x with
                             | Pwm.ramp_o => 5
                             | Pwm.delta => 1
                             | Pwm.clk => 0
                             end) in
  let d := mkStore (fun x => match x with
                             | Fsm.Debouncer.dbcnt => 2
                             | _ => 1
                             end)
                   (fun x => match x with
                             | Fsm.Debouncer.dbcnt => 2
                             | _ => 1
                             end) in
  nxt (clock_edge Pwm.sig_eq_dec (Pwm.width 6) (Pwm.ramp 6) Pwm.clk Rising r)
      Pwm.delta = 1 /\
  nxt (clock_edge Fsm.Debouncer.sig_eq_dec (Fsm.Debouncer.width 3)
                  (Fsm.Debouncer.design 3) Fsm.Debouncer.clk Rising d)
      Fsm.Debouncer.button_o = 1 /\
  nxt (run_blocks Pwm.sig_eq_dec (Pwm.width 6) [Pwm.logic 6] r) Pwm.clk = 0.
Proof.
  intros r d.
  destruct next_slot_persists as (Hgen & Hramp & Hdeb).
  split; [| split].
  - apply (Hramp 6 r); cbn; lia.
  - apply (Hdeb 3 d); cbn; lia.
  - apply (Hgen Pwm.sig Pwm.sig_eq_dec (Pwm.width 6) [Pwm.logic 6] r Pwm.clk).
    cbn. intros [H | []]. discriminate H.
Defined.

(** C3.  The [n]-stage ripple-carry adder, carry input tied to 0: for all
    [a] and [b] in [[0, 2^n)] put on the input buses, and whatever the
    other signals held, the combinational blocks settle within [n + 2]
    rounds; in the settled store the sum bus reads [(a + b) mod 2^n] and
    the last carry bit reads [(a + b) >> n]. *)
Theorem ripple_carry_adder_settles :
  forall (n : nat) (a b : Z) (fuel : nat) (s : Store Blinker.AdderBench.sig),
    0 <= a < 2 ^ Z.of_nat n ->
    0 <= b < 2 ^ Z.of_nat n ->
    Blinker.AdderBench.inputs_hold n a b s ->
    (n + 2 <= fuel)%nat ->
    exists s',
      settle Blinker.AdderBench.sig_eq_dec Blinker.AdderBench.width fuel
             (Blinker.AdderBench.signals n) (Blinker.AdderBench.design n) s
        = Settled s' /\
      bus_value Blinker.AdderBench.s_o n s' = (a + b) mod 2 ^ Z.of_nat n /\
      cur s' (Blinker.AdderBench.c n) = Z.shiftr (a + b) (Z.of_nat n).
Proof.
  intros n a b fuel s Ha Hb Hin Hfuel.
  destruct fuel as [| fuel]; [lia |].
  destruct (AdderFacts.settle_rippled n a b fuel O s) as (s' & Hs & Hr).
  - split; [exact Hin |]. split; intros k _ Hk; lia.
  - lia.
  - exists s'. split; [exact Hs |].
    destruct Hr as (_ & Hc & Hsum).
    pose proof (AdderFacts.ripple_value a b n) as Hv.
    rewrite (Z.mod_small a), (Z.mod_small b) in Hv by assumption.
    pose proof (AdderFacts.bits_value_bound
                  (Blinker.AdderBench.sum_bit a b) n) as Hbound.
    assert (Hcn : 0 <= Z.b2z (Blinker.AdderBench.carry a b n) <= 1)
      by (destruct (Blinker.AdderBench.carry a b n); cbn; lia).
    split.
    + rewrite (AdderFacts.bus_value_bits (Blinker.AdderBench.sum_bit a b))
        by (intros k Hk; apply Hsum; lia).
      apply (Z.mod_unique _ _ (Z.b2z (Blinker.AdderBench.carry a b n)));
        [left; exact Hbound | lia].
    + rewrite Hc by lia. rewrite Z.shiftr_div_pow2 by lia.
      apply (Z.div_unique _ _ _
               (Blinker.AdderBench.bits_value (Blinker.AdderBench.sum_bit a b) n));
        [left; exact Hbound | lia].
Qed.

(** The two-stage adder on 3 + 2: sum 1, carry 1. *)
Lemma ripple_carry_adder_settles_witness :
  exists s',
    settle Blinker.AdderBench.sig_eq_dec Blinker.AdderBench.width 4
           (Blinker.AdderBench.signals 2) (Blinker.AdderBench.design 2)
           (Blinker.AdderBench.applied 3 2)
      = Settled s' /\
    bus_value Blinker.AdderBench.s_o 2 s' = 1 /\
    cur s' (Blinker.AdderBench.c 2%nat) = 1.
Proof.
  apply (ripple_carry_adder_settles 2 3 2 4 (Blinker.AdderBench.applied 3 2)).
  - cbn. lia.
  - cbn. lia.
  - intros k Hk.
    destruct k as [| [| k]]; [| | lia]; cbn; repeat split; reflexivity.
  - lia.
Defined.

(** C4.  The three-bit blinker of the script, from power-up: before each
    of 16 rising clock edges the counter reads 0, 1, ..., 7, 0, 1, ..., 7
    and after the sixteenth it is back at 0; [led_o] equals the most
    significant counter bit at every instant and changes level every 4
    edges. *)
Theorem blinker_counts_and_blinks :
  forall fuel : nat,
    (4 <= fuel)%nat ->
    map (fun k => Blinker.Top.cnt_value 3 (Blinker.Top.clk_sim fuel 3 k))
        (seq 0 16)
      = map Some [0; 1; 2; 3; 4; 5; 6; 7; 0; 1; 2; 3; 4; 5; 6; 7] /\
    Blinker.Top.cnt_value 3 (Blinker.Top.clk_sim fuel 3 16) = Some 0 /\
    map (fun k => probe Blinker.Top.led (Blinker.Top.clk_sim fuel 3 k))
        (seq 0 17)
      = map Some [0; 0; 0; 0; 1; 1; 1; 1; 0; 0; 0; 0; 1; 1; 1; 1; 0] /\
    (forall k : nat,
        (k <= 16)%nat ->
        Blinker.Top.cnt_value 3 (Blinker.Top.clk_sim fuel 3 k)
          = Some (Z.of_nat k mod 8) /\
        probe Blinker.Top.led (Blinker.Top.clk_sim fuel 3 k)
          = probe (Blinker.Top.cnt 2%nat) (Blinker.Top.clk_sim fuel 3 k) /\
        probe Blinker.Top.led (Blinker.Top.clk_sim fuel 3 k)
          = Some ((Z.of_nat k / 4) mod 2)).
Proof.
  intros fuel Hf.
  assert (Hc : forall k, (k <= 16)%nat ->
             Blinker.Top.cnt_value 3 (Blinker.Top.clk_sim fuel 3 k)
             = Some (Z.of_nat k mod 8))
    by (intros k Hk; apply (BlinkerFacts.cycles fuel k Hf Hk)).
  assert (Hl : forall k, (k <= 16)%nat ->
             probe Blinker.Top.led (Blinker.Top.clk_sim fuel 3 k)
             = Some ((Z.of_nat k / 4) mod 2))
    by (intros k Hk; apply (BlinkerFacts.cycles fuel k Hf Hk)).
  split; [| split; [| split]].
  - cbn [map seq]. rewrite !Hc by lia. reflexivity.
  - rewrite Hc by lia. reflexivity.
  - cbn [map seq]. rewrite !Hl by lia. reflexivity.
  - intros k Hk. destruct (BlinkerFacts.cycles fuel k Hf Hk) as (H1 & H2 & H3).
    split; [exact H1 |]. split; [congruence | exact H2].
Qed.

(** With four rounds of fuel, the LED after 4 and after 8 edges. *)
Lemma blinker_counts_and_blinks_witness :
  probe Blinker.Top.led (Blinker.Top.clk_sim 4 3 4) = Some 1 /\
  probe Blinker.Top.led (Blinker.Top.clk_sim 4 3 8) = Some 0 /\
  Blinker.Top.cnt_value 3 (Blinker.Top.clk_sim 4 3 16) = Some 0.
Proof.
  destruct (blinker_counts_and_blinks 4 ltac:(lia)) as (_ & H16 & _ & H).
  split; [| split].
  - apply (H 4%nat). lia.
  - apply (H 8%nat). lia.
  - exact H16.
Defined.

(** C5 (amended).  The debouncer with threshold [1 <= T < 2 ^ 48], the
    range in which the counter of the source has the width [cnt_width T],
    from power-up.  For a raw input that alternates for [k] cycles and then holds its last
    level, [button_o] still has its power-up value 0 after every one of
    the first [k + T] cycles, and, when [k >= 1], carries the held level
    after [k + T + 1] cycles.  For an input held at one level from the
    start, [button_o] equals that level after every number of cycles from
    [T + 2] on; held high, it is still 0 after [T + 1] cycles or fewer. *)
Theorem debounce_latency :
  forall (T : Z) (fuel : nat),
    1 <= T < 2 ^ 48 ->
    (forall (k : nat) (b : bool) (steady n : nat),
        Z.of_nat n <= Z.of_nat k + T ->
        probe Fsm.Debouncer.button_o
              (Fsm.Debouncer.simulate_buttons T (S fuel)
                 (firstn n (Fsm.Debouncer.bouncing k b steady)))
          = Some 0) /\
    (forall (k : nat) (b : bool),
        (1 <= k)%nat ->
        probe Fsm.Debouncer.button_o
              (Fsm.Debouncer.simulate_buttons T (S fuel)
                 (Fsm.Debouncer.bouncing k b (S (Z.to_nat T))))
          = Some (Z.b2z (Fsm.Debouncer.last_level k b))) /\
    (forall (v : bool) (n : nat),
        T + 2 <= Z.of_nat n ->
        probe Fsm.Debouncer.button_o
              (Fsm.Debouncer.simulate_buttons T (S fuel) (repeat (Z.b2z v) n))
          = Some (Z.b2z v)) /\
    (forall n : nat,
        Z.of_nat n <= T + 1 ->
        probe Fsm.Debouncer.button_o
              (Fsm.Debouncer.simulate_buttons T (S fuel) (repeat 1 n))
          = Some 0).
Proof.
  intros T fuel [HT _]. split; [| split; [| split]].
  - intros k b steady n Hn. rewrite DebouncerFacts.probe_button_o. f_equal.
    destruct (DebouncerFacts.firstn_bouncing T n k b steady) as (m' & Hm & E).
    rewrite E. apply DebouncerFacts.bouncing_holds; [exact HT | lia].
  - intros k b Hk. rewrite DebouncerFacts.probe_button_o. f_equal.
    apply DebouncerFacts.bouncing_latches; assumption.
  - intros v n Hn. rewrite DebouncerFacts.probe_button_o. f_equal.
    apply DebouncerFacts.steady_from_power_up; assumption.
  - intros n Hn. rewrite DebouncerFacts.probe_button_o. f_equal.
    apply (DebouncerFacts.steady_high_pending T HT n Hn).
Qed.

(** Threshold 3: the button held high from the start shows on [button_o]
    after 5 cycles and not after 4; after two bounces and three steady
    cycles the output has not moved. *)
Lemma debounce_latency_witness :
  probe Fsm.Debouncer.button_o
        (Fsm.Debouncer.simulate_buttons 3 1 (repeat 1 5)) = Some 1 /\
  probe Fsm.Debouncer.button_o
        (Fsm.Debouncer.simulate_buttons 3 1 (repeat 1 4)) = Some 0 /\
  probe Fsm.Debouncer.button_o
        (Fsm.Debouncer.simulate_buttons 3 1
           (firstn 5 (Fsm.Debouncer.bouncing 2 false 6))) = Some 0.
Proof.
  destruct (debounce_latency 3 0 ltac:(cbn; lia)) as (Hb & _ & Hs & Hp).
  split; [| split].
  - apply (Hs true 5%nat). cbn. lia.
  - apply (Hp 4%nat). cbn. lia.
  - apply (Hb 2%nat false 6%nat 5%nat). cbn. lia.
Defined.

(** C5 as stated fails: with threshold 3 and the button held high from the
    start, [button_o] does not equal the input after 3 cycles. *)
Lemma debounce_latency_counterexample :
  probe Fsm.Debouncer.button_o
        (Fsm.Debouncer.simulate_buttons 3 1 (repeat 1 3)) <> Some 1.
Proof. vm_compute. discriminate. Qed.

(** C6 (amended).  The ramp register of width [len >= 2], from the
    post-reset state (ramp 0, delta 0): after [n] rising edges [ramp_o]
    reads [triangle len n].  The first edge moves it to 1; from there it
    rises by one each cycle up to [max - 1], one past the value [max - 2]
    at which [delta] is turned, falls by one each cycle down to 0, one
    past the value 1 at which [delta] is turned back, and rises again: a
    triangle wave between 0 and [max - 1] with period [2 * (max - 1)]. *)
Theorem ramp_triangle_wave :
  forall (len : Z) (fuel : nat),
    2 <= len ->
    (forall n : nat,
        probe Pwm.ramp_o (Pwm.clk_sim len (S fuel) n)
          = Some (Pwm.triangle len (Z.of_nat n))) /\
    probe Pwm.ramp_o (Pwm.clk_sim len (S fuel) 1) = Some 1 /\
    (forall n,
        0 <= n ->
        Pwm.triangle len (n + 1) =
        if n mod Pwm.period len <? Pwm.ramp_max len - 1
        then Pwm.triangle len n + 1
        else Pwm.triangle len n - 1) /\
    (forall n, 0 <= Pwm.triangle len n <= Pwm.ramp_max len - 1) /\
    Pwm.triangle len (Pwm.ramp_max len - 1) = Pwm.ramp_max len - 1 /\
    Pwm.triangle len (Pwm.period len) = 0 /\
    (forall n, Pwm.triangle len (n + Pwm.period len) = Pwm.triangle len n).
Proof.
  intros len fuel Hlen.
  assert (Hrun : forall n : nat,
             probe Pwm.ramp_o (Pwm.clk_sim len (S fuel) n)
             = Some (Pwm.triangle len (Z.of_nat n))).
  { intros n. rewrite RampFacts.probe_ramp_o. f_equal.
    apply RampFacts.ramp_value. exact Hlen. }
  pose proof (RampFacts.period_ge_6 len Hlen) as HP.
  pose proof (RampFacts.ramp_max_ge_4 len Hlen) as HM.
  split; [exact Hrun |]. split; [| split; [| split; [| split; [| split]]]].
  - rewrite Hrun. f_equal. unfold Pwm.triangle.
    change (Z.of_nat 1) with 1. rewrite Z.mod_small by lia.
    destruct (Z.leb_spec 1 (Pwm.ramp_max len - 1)); [reflexivity | lia].
  - apply RampFacts.triangle_succ. exact Hlen.
  - apply RampFacts.triangle_range. exact Hlen.
  - apply RampFacts.triangle_top. exact Hlen.
  - unfold Pwm.triangle. rewrite Z.mod_same by lia.
    destruct (Z.leb_spec 0 (Pwm.ramp_max len - 1)); [reflexivity | lia].
  - apply RampFacts.triangle_periodic. exact Hlen.
Qed.

(** The six-bit ramp of the script: 63 after 63 edges, 0 after 126. *)
Lemma ramp_triangle_wave_witness :
  probe Pwm.ramp_o (Pwm.clk_sim 6 1 63) = Some 63 /\
  probe Pwm.ramp_o (Pwm.clk_sim 6 1 126) = Some 0 /\
  probe Pwm.ramp_o (Pwm.clk_sim 6 1 1) = Some 1.
Proof.
  destruct (ramp_triangle_wave 6 0 ltac:(lia)) as (Hrun & H1 & _).
  split; [| split].
  - exact (Hrun 63%nat).
  - exact (Hrun 126%nat).
  - exact H1.
Defined.

(** C6 as stated fails: the six-bit ramp leaves the band from 1 to
    [max - 2] = 62.  It reads 63 after 63 edges and 0 after 126. *)
Lemma ramp_triangle_wave_counterexample :
  Pwm.ramp_max 6 - 2 = 62 /\
  probe Pwm.ramp_o (Pwm.clk_sim 6 1 63) = Some 63 /\
  probe Pwm.ramp_o (Pwm.clk_sim 6 1 126) = Some 0.
Proof. vm_compute. repeat split; reflexivity. Qed.



(** C8.  In the dual-port RAM a cycle that writes [v] to location [i] and
    reads location [i] settles without error; [data_o] then holds what
    the location held before the edge and the location holds [v].
    Between the evaluation of the block and the commit the write sits in
    the next slot of the location, whose current value, the one the read
    takes, is still the old one. *)
Theorem dualport_read_during_write :
  forall (aw dw : Z) (fuel : nat) (i v : Z) (s : Store BlockRam.Bench.sig),
    0 <= i < 2 ^ aw -> 0 <= v < 2 ^ dw ->
    quiet s -> 0 <= cur s (BlockRam.Bench.mem i) < 2 ^ dw ->
    (exists s1,
        BlockRam.Bench.cycle aw dw (S fuel) BlockRam.Bench.dual
          [(BlockRam.Bench.wr, 1); (BlockRam.Bench.wr_addr, i);
           (BlockRam.Bench.data_i, v); (BlockRam.Bench.rd_addr, i)] s
          = Settled s1 /\
        cur s1 BlockRam.Bench.data_o = cur s (BlockRam.Bench.mem i) /\
        cur s1 (BlockRam.Bench.mem i) = v) /\
    (forall p : Store BlockRam.Bench.sig,
        cur p BlockRam.Bench.wr <> 0 ->
        cur p BlockRam.Bench.wr_addr = i ->
        cur p BlockRam.Bench.rd_addr = i ->
        cur p BlockRam.Bench.data_i = v ->
        let mid :=
          run_blocks BlockRam.Bench.sig_eq_dec (BlockRam.Bench.width aw dw)
            (edge_bodies BlockRam.Bench.sig_eq_dec BlockRam.Bench.dual
                         BlockRam.Bench.clk Rising) p in
        nxt mid (BlockRam.Bench.mem i) = v /\
        cur mid (BlockRam.Bench.mem i) = cur p (BlockRam.Bench.mem i) /\
        nxt mid BlockRam.Bench.data_o
          = wrap dw (cur p (BlockRam.Bench.mem i))).
Proof.
  intros aw dw fuel i v s Hi Hv Hq Hrange. split.
  - destruct (RamFacts.dual_cycle aw dw fuel 1 i v i s Hi Hi Hv)
      as (s1 & E1 & _ & Ho & Hm & _).
    exists s1. split; [exact E1 |]. split.
    + rewrite Ho, Hq. apply RamFacts.wrap_small. exact Hrange.
    + apply Hm. discriminate.
  - intros p Hw Hwa Hra Hd.
    destruct (RamFacts.dual_edge_slots aw dw i v p Hw Hwa Hra Hd)
      as (Hn & Hc & Ho).
    split; [| split].
    + rewrite Hn. apply RamFacts.wrap_small. exact Hv.
    + exact Hc.
    + exact Ho.
Qed.

(** The 8-bit dual-port RAM holding 9 at address 5, with 16 written to and
    read from that address in one cycle. *)
Lemma dualport_read_during_write_witness :
  let v x := match x with BlockRam.Bench.mem 5 => 9 | _ => 0 end in
  let s := mkStore v v in
  exists s1,
    BlockRam.Bench.cycle 8 8 1 BlockRam.Bench.dual
      [(BlockRam.Bench.wr, 1); (BlockRam.Bench.wr_addr, 5);
       (BlockRam.Bench.data_i, 16); (BlockRam.Bench.rd_addr, 5)] s
      = Settled s1 /\
    cur s1 BlockRam.Bench.data_o = 9 /\
    cur s1 (BlockRam.Bench.mem 5) = 16.
Proof.
  intros v s.
  apply (dualport_read_during_write 8 8 0 5 16 s).
  - cbn. lia.
  - cbn. lia.
  - intros x. reflexivity.
  - cbn. lia.
Defined.

(** C9.  The reset generator, from power-up with its counter at 0:
    [reset_o] is 1 after the first rising clock edge and 0 after every
    later one (and 0 before the first), so once released the reset is
    not asserted again. *)
Theorem reset_pulse_once :
  forall fuel n : nat,
    probe BlockRam.Reset.reset_o (BlockRam.Reset.clk_sim (S fuel) n)
      = Some (if (n =? 1)%nat then 1 else 0).
Proof.
  intros fuel n. rewrite ResetFacts.probe_reset_o. f_equal.
  destruct n as [| [| n]]; [reflexivity | reflexivity |].
  rewrite ResetFacts.iter_released. reflexivity.
Qed.

(** C10.  In the four-state machine, from power-up and for every sequence
    of input values, every instant settles within two rounds; at each one
    [fsm_state] holds the code of one of the states A, B, C, D and
    [outputs] holds the one-hot code of that state: one of 1, 2, 4, 8,
    with exactly one of its four bits set. *)
Theorem fsm_outputs_one_hot :
  forall (fuel : nat) (ins : list Z),
    exists (s : Store Fsm.Classic.sig) (st : Fsm.Classic.state),
      Fsm.Classic.simulate_fsm (S (S fuel)) ins = Settled s /\
      cur s Fsm.Classic.fsm_state = Fsm.Classic.encode st /\
      cur s Fsm.Classic.outputs = 2 ^ Fsm.Classic.encode st /\
      Fsm.Classic.one_hot (cur s Fsm.Classic.outputs) = true /\
      Fsm.Classic.popcount4 (cur s Fsm.Classic.outputs) = 1.
Proof.
  intros fuel ins.
  destruct (ClassicFacts.run_settled fuel ins) as (s & Hs & _ & Hst & Hout).
  assert (C : cur s Fsm.Classic.fsm_state = 0 \/ cur s Fsm.Classic.fsm_state = 1
              \/ cur s Fsm.Classic.fsm_state = 2
              \/ cur s Fsm.Classic.fsm_state = 3) by lia.
  exists s.
  destruct C as [E | [E | [E | E]]]; rewrite E in Hout;
    [exists Fsm.Classic.A | exists Fsm.Classic.B
     | exists Fsm.Classic.C | exists Fsm.Classic.D];
    rewrite Hout, E; repeat split; first [exact Hs | reflexivity].
Qed.

End Properties.

(* ===================================================================== *)
(** * The debouncer under arbitrary inputs                               *)
(* ===================================================================== *)

Module DebouncerTraces.
Import Kernel KernelFacts Fsm.Debouncer DebouncerFacts.

Section Traces.

Variable T : Z.
Hypothesis T_pos : 1 <= T.

Lemma regs_after_snoc : forall (bs : list bool) (b : bool),
  regs_after T (map Z.b2z (bs ++ [b])) =
  step T (wrap 1 (Z.b2z b)) (regs_after T (map Z.b2z bs)).
Proof.
  intros bs b. unfold regs_after. rewrite map_app, fold_left_app. reflexivity.
Qed.

(** The registers after any sequence of samples: the countdown is in
    range, and either no sample has differed from the power-up level yet,
    or the last [T - cnt + 1] samples all equal [prev_button]. *)
Lemma regs_shape : forall bs : list bool,
  exists c (pb ob : bool),
    regs_after T (map Z.b2z bs) = (c, Z.b2z pb, Z.b2z ob) /\
    0 <= c <= T /\
    ((Forall (fun x => x = false) bs /\ c = 0 /\ pb = false /\ ob = false) \/
     (exists pre, bs = pre ++ repeat pb (Z.to_nat (T - c + 1)))).
Proof.
  induction bs as [| b bs IH] using rev_ind.
  - exists 0, false, false. split; [reflexivity |]. split; [lia |].
    left. repeat split. constructor.
  - destruct IH as (c & pb & ob & E & Hc & Hshape).
    rewrite regs_after_snoc, E, (step_bits T T_pos b pb c (Z.b2z ob) Hc).
    destruct (Bool.eqb b pb) eqn:Eb.
    + apply Bool.eqb_prop in Eb. subst b.
      destruct (Z.eqb_spec c 0) as [-> | Hne].
      * exists 0, pb, pb. split; [reflexivity |]. split; [lia |].
        destruct Hshape as [(Hall & _ & -> & _) | (pre & ->)].
        -- left. repeat split. apply Forall_app. split; [exact Hall |].
           repeat constructor.
        -- right. exists (pre ++ [pb]).
           replace (Z.to_nat (T - 0 + 1)) with (S (Z.to_nat T)) by lia.
           rewrite <- !app_assoc. f_equal.
           change [pb] with (repeat pb 1). rewrite <- !repeat_app.
           f_equal. lia.
      * exists (c - 1), pb, ob. split; [reflexivity |]. split; [lia |].
        destruct Hshape as [(_ & Hz & _) | (pre & ->)]; [lia |].
        right. exists pre. rewrite <- app_assoc. f_equal.
        change [pb] with (repeat pb 1). rewrite <- repeat_app.
        f_equal. lia.
    + exists T, b, (if c =? 0 then pb else ob).
      split; [destruct (c =? 0); reflexivity |]. split; [lia |].
      right. exists bs. replace (Z.to_nat (T - T + 1)) with 1%nat by lia.
      reflexivity.
Qed.

(** The output moves only to a level that the last [T + 1] samples all
    had. *)
Lemma output_moves_after_stable : forall (bs : list bool) (b v : bool),
  snd (regs_after T (map Z.b2z (bs ++ [b]))) = Z.b2z v ->
  snd (regs_after T (map Z.b2z bs)) <> Z.b2z v ->
  exists pre, bs = pre ++ repeat v (S (Z.to_nat T)).
Proof.
  intros bs b v Hnew Hold.
  destruct (regs_shape bs) as (c & pb & ob & E & Hc & Hshape).
  rewrite regs_after_snoc, E, (step_bits T T_pos b pb c (Z.b2z ob) Hc) in Hnew.
  rewrite E in Hold. cbn [snd] in *.
  destruct (Z.eqb_spec c 0) as [-> | Hne]; [| congruence].
  assert (pb = v) by (destruct pb, v; cbn in Hnew; congruence). subst pb.
  destruct Hshape as [(_ & _ & -> & ->) | (pre & ->)]; [congruence |].
  exists pre. f_equal. f_equal. lia.
Qed.

(** After [T + 2] equal samples the output has their level, whatever came
    before. *)
Lemma output_follows_stable : forall (bs : list bool) (v : bool) (m : nat),
  snd (regs_after T (map Z.b2z (bs ++ repeat v (Z.to_nat T + 2 + m)))) = Z.b2z v.
Proof.
  intros bs v m.
  destruct (regs_shape bs) as (c & pb & ob & E & Hc & _).
  unfold regs_after in *. rewrite map_app, fold_left_app, E.
  rewrite map_repeat.
  assert (Hfirst : exists c1 o1, 0 <= c1 <= T /\
            step T (wrap 1 (Z.b2z v)) (c, Z.b2z pb, Z.b2z ob) = (c1, Z.b2z v, o1)).
  { rewrite (step_bits T T_pos v pb c (Z.b2z ob) Hc).
    destruct (Bool.eqb v pb).
    - destruct (Z.eqb_spec c 0).
      + exists 0. eexists. split; [lia | reflexivity].
      + exists (c - 1). eexists. split; [lia | reflexivity].
    - exists T. eexists. split; [lia | reflexivity]. }
  destruct Hfirst as (c1 & o1 & Hc1 & Hstep).
  replace (Z.to_nat T + 2 + m)%nat
    with (1 + (Z.to_nat c1 + S (Z.to_nat T - Z.to_nat c1 + m)))%nat by lia.
  rewrite !repeat_app, !fold_left_app.
  change (fold_left (fun r b => step T (wrap 1 b) r) (repeat (Z.b2z v) 1)
            (c, Z.b2z pb, Z.b2z ob))
    with (step T (wrap 1 (Z.b2z v)) (c, Z.b2z pb, Z.b2z ob)).
  rewrite Hstep.
  rewrite (steady_countdown T T_pos (Z.to_nat c1) v c1 o1) by lia.
  replace (c1 - Z.of_nat (Z.to_nat c1)) with 0 by lia.
  rewrite (steady_latch T T_pos). reflexivity.
Qed.

End Traces.

End DebouncerTraces.

(* ===================================================================== *)
(** * The RAMs as maps                                                   *)
(* ===================================================================== *)

Module RamModel.
Import Kernel KernelFacts BlockRam BlockRam.Bench RamFacts.

Section Widths.

Variables aw dw : Z.

Ltac run_cycle H :=
  unfold cycle; rewrite tick_seq_only by exact H;
  eexists; split; [reflexivity |].

Ltac eval_ram :=
  cbv [clock_edge edge_bodies single dual ram dualport_ram
       filter fires_on trigger map body run_blocks ram_logic
       dualport_ram_logic get set skip app drive dual_stim single_stim];
  cbn.

Ltac unwrap :=
  repeat match goal with
         | H : 0 <= ?v < 2 ^ ?w |- context [wrap ?w ?v] =>
             rewrite (wrap_small w v H)
         | H : 0 <= ?v < 2 ^ ?w, H' : context [wrap ?w ?v] |- _ =>
             rewrite (wrap_small w v H) in H'
         end.

(** One cycle of the dual-port RAM on the pair of memory and output. *)
Lemma dual_cycle_model : forall fuel op (s : Store sig),
  op_in_range aw dw op -> quiet s ->
  (forall k, 0 <= cur s (mem k) < 2 ^ dw) ->
  exists s1,
    cycle aw dw (S fuel) dual (dual_stim op) s = Settled s1 /\
    quiet s1 /\
    (forall k, cur s1 (mem k) = fst (dual_step (contents s) op) k) /\
    cur s1 data_o = snd (dual_step (contents s) op).
Proof.
  intros fuel [[[w wa] d] ra] s (Hw & Hwa & Hd & Hra) Hq Hrange.
  run_cycle dual_seq_only.
  split; [intros x; reflexivity |].
  unfold dual_step, contents, mem_write. cbn [fst snd].
  split.
  - intros k. destruct Hw as [-> | ->]; eval_ram; unwrap; rewrite ?Hq.
    + split_ifs; congruence.
    + destruct (Z.eqb_spec k wa) as [-> | Hne]; split_ifs; congruence.
  - destruct Hw as [-> | ->]; eval_ram; unwrap; rewrite ?Hq;
      rewrite ?(wrap_small dw _ (Hrange ra)); split_ifs; congruence.
Qed.

(** One cycle of the single-port RAM on the pair. *)
Lemma single_cycle_model : forall fuel op (s : Store sig),
  single_op_in_range aw dw op -> quiet s ->
  (forall k, 0 <= cur s (mem k) < 2 ^ dw) ->
  exists s1,
    cycle aw dw (S fuel) single (single_stim op) s = Settled s1 /\
    quiet s1 /\
    (forall k, cur s1 (mem k) = fst (single_step (contents s) op) k) /\
    cur s1 data_o = snd (single_step (contents s) op).
Proof.
  intros fuel [[w a] d] s (Hw & Ha & Hd) Hq Hrange.
  run_cycle single_seq_only.
  split; [intros x; reflexivity |].
  unfold single_step, contents, mem_write. cbn [fst snd].
  split.
  - intros k. destruct Hw as [-> | ->]; eval_ram; unwrap; rewrite ?Hq.
    + split_ifs; congruence.
    + destruct (Z.eqb_spec k a) as [-> | Hne]; split_ifs; congruence.
  - destruct Hw as [-> | ->]; eval_ram; unwrap; rewrite ?Hq;
      rewrite ?(wrap_small dw _ (Hrange a)); split_ifs; congruence.
Qed.

(** The steps respect pointwise equality of memories and keep the data in
    range. *)
Lemma dual_step_ext : forall (m m' : Z -> Z) o o' op,
  (forall k, m k = m' k) ->
  (forall k, fst (dual_step (m, o) op) k = fst (dual_step (m', o') op) k) /\
  snd (dual_step (m, o) op) = snd (dual_step (m', o') op).
Proof.
  intros m m' o o' [[[w wa] d] ra] H. unfold dual_step, mem_write. cbn [fst snd].
  split; [| apply H].
  intros k. destruct (w =? 0); [apply H |]. destruct (k =? wa); [reflexivity | apply H].
Qed.

Lemma single_step_ext : forall (m m' : Z -> Z) o op,
  (forall k, m k = m' k) ->
  (forall k, fst (single_step (m, o) op) k = fst (single_step (m', o) op) k) /\
  snd (single_step (m, o) op) = snd (single_step (m', o) op).
Proof.
  intros m m' o [[w a] d] H. unfold single_step, mem_write. cbn [fst snd].
  split.
  - intros k. destruct (w =? 0); [apply H |].
    destruct (k =? a); [reflexivity | apply H].
  - destruct (w =? 0); [apply H | reflexivity].
Qed.

Lemma dual_fold_ext : forall ops (m m' : Z -> Z) o,
  (forall k, m k = m' k) ->
  (forall k, fst (fold_left dual_step ops (m, o)) k
             = fst (fold_left dual_step ops (m', o)) k) /\
  snd (fold_left dual_step ops (m, o)) = snd (fold_left dual_step ops (m', o)).
Proof.
  induction ops as [| op ops IH]; intros m m' o H.
  - split; [exact H | reflexivity].
  - cbn [fold_left].
    destruct (dual_step_ext m m' o o op H) as (Hm & Ho).
    destruct (dual_step (m, o) op) as [m1 o1] eqn:E1.
    destruct (dual_step (m', o) op) as [m1' o1'] eqn:E1'.
    cbn [fst snd] in Hm, Ho. subst o1'. apply IH. exact Hm.
Qed.

Lemma single_fold_ext : forall ops (m m' : Z -> Z) o,
  (forall k, m k = m' k) ->
  (forall k, fst (fold_left single_step ops (m, o)) k
             = fst (fold_left single_step ops (m', o)) k) /\
  snd (fold_left single_step ops (m, o))
  = snd (fold_left single_step ops (m', o)).
Proof.
  induction ops as [| op ops IH]; intros m m' o H.
  - split; [exact H | reflexivity].
  - cbn [fold_left].
    destruct (single_step_ext m m' o op H) as (Hm & Ho).
    destruct (single_step (m, o) op) as [m1 o1] eqn:E1.
    destruct (single_step (m', o) op) as [m1' o1'] eqn:E1'.
    cbn [fst snd] in Hm, Ho. subst o1'. apply IH. exact Hm.
Qed.

(** A run of the dual-port bench follows the map. *)
Lemma dual_bench_model : forall fuel ops (s : Store sig),
  Forall (op_in_range aw dw) ops -> quiet s ->
  (forall k, 0 <= cur s (mem k) < 2 ^ dw) ->
  exists s',
    dual_bench aw dw (S fuel) ops s = Settled s' /\
    (forall k, cur s' (mem k) = fst (fold_left dual_step ops (contents s)) k) /\
    cur s' data_o = snd (fold_left dual_step ops (contents s)).
Proof.
  intros fuel ops. induction ops as [| op ops IH]; intros s Hops Hq Hrange.
  - exists s. split; [reflexivity |]. split; [intros k |]; reflexivity.
  - inversion Hops as [| ? ? Hop Hrest]; subst.
    destruct (dual_cycle_model fuel op s Hop Hq Hrange)
      as (s1 & E1 & Hq1 & Hm1 & Ho1).
    assert (Hrange1 : forall k, 0 <= cur s1 (mem k) < 2 ^ dw).
    { intros k. rewrite Hm1. destruct op as [[[w wa] d] ra].
      destruct Hop as (_ & _ & Hd & _).
      unfold dual_step, contents, mem_write. cbn [fst].
      destruct (w =? 0); [apply Hrange |].
      destruct (k =? wa); [exact Hd | apply Hrange]. }
    destruct (IH s1 Hrest Hq1 Hrange1) as (s' & E' & Hm' & Ho').
    exists s'. unfold dual_bench in *. cbn [map simulate].
    unfold cycle in E1. rewrite E1. split; [exact E' |].
    cbn [fold_left].
    destruct (dual_step (contents s) op) as [m1 o1] eqn:Est.
    cbn [fst snd] in Hm1, Ho1.
    destruct (dual_fold_ext ops (fun k => cur s1 (mem k)) m1 (cur s1 data_o) Hm1)
      as (Hfm & Hfo).
    unfold contents in Hm', Ho'. rewrite Ho1 in *.
    split.
    + intros k. rewrite Hm'. apply Hfm.
    + rewrite Ho'. exact Hfo.
Qed.

(** One cycle of [simpler_ram] is a dual-port cycle that reads where it
    writes. *)
Lemma simpler_cycle_model : forall fuel op (s : Store sig),
  single_op_in_range aw dw op -> quiet s ->
  (forall k, 0 <= cur s (mem k) < 2 ^ dw) ->
  exists s1,
    cycle aw dw (S fuel) simpler (single_stim op) s = Settled s1 /\
    quiet s1 /\
    (forall k, cur s1 (mem k) = fst (dual_step (contents s) (tied op)) k) /\
    cur s1 data_o = snd (dual_step (contents s) (tied op)).
Proof.
  intros fuel [[w a] d] s (Hw & Ha & Hd) Hq Hrange.
  run_cycle simpler_seq_only.
  split; [intros x; reflexivity |].
  unfold tied, dual_step, contents, mem_write. cbn [fst snd].
  split.
  - intros k. destruct Hw as [-> | ->];
      cbv [clock_edge edge_bodies simpler simpler_ram filter fires_on trigger
           map body run_blocks simpler_ram_logic get set skip app drive
           single_stim];
      cbn; unwrap; rewrite ?Hq.
    + split_ifs; congruence.
    + destruct (Z.eqb_spec k a) as [-> | Hne]; split_ifs; congruence.
  - destruct Hw as [-> | ->];
      cbv [clock_edge edge_bodies simpler simpler_ram filter fires_on trigger
           map body run_blocks simpler_ram_logic get set skip app drive
           single_stim];
      cbn; unwrap; rewrite ?Hq;
      rewrite ?(wrap_small dw _ (Hrange a)); split_ifs; congruence.
Qed.

Lemma tied_in_range : forall ops,
  Forall (single_op_in_range aw dw) ops ->
  Forall (op_in_range aw dw) (map tied ops).
Proof.
  intros ops H. induction H as [| [[w a] d] ops (Hw & Ha & Hd) _ IH].
  - constructor.
  - cbn [map]. constructor; [| exact IH].
    repeat split; solve [exact Hw | apply Ha | apply Hd].
Qed.

(** A run of [simpler_ram] follows the dual-port map with the addresses
    tied together. *)
Lemma simpler_bench_model : forall fuel ops (s : Store sig),
  Forall (single_op_in_range aw dw) ops -> quiet s ->
  (forall k, 0 <= cur s (mem k) < 2 ^ dw) ->
  exists s',
    simpler_bench aw dw (S fuel) ops s = Settled s' /\
    (forall k, cur s' (mem k)
               = fst (fold_left dual_step (map tied ops) (contents s)) k) /\
    cur s' data_o = snd (fold_left dual_step (map tied ops) (contents s)).
Proof.
  intros fuel ops. induction ops as [| op ops IH]; intros s Hops Hq Hrange.
  - exists s. split; [reflexivity |]. split; [intros k |]; reflexivity.
  - inversion Hops as [| ? ? Hop Hrest]; subst.
    destruct (simpler_cycle_model fuel op s Hop Hq Hrange)
      as (s1 & E1 & Hq1 & Hm1 & Ho1).
    assert (Hrange1 : forall k, 0 <= cur s1 (mem k) < 2 ^ dw).
    { intros k. rewrite Hm1. destruct op as [[w a] d].
      destruct Hop as (_ & _ & Hd).
      unfold tied, dual_step, contents, mem_write. cbn [fst].
      destruct (w =? 0); [apply Hrange |].
      destruct (k =? a); [exact Hd | apply Hrange]. }
    destruct (IH s1 Hrest Hq1 Hrange1) as (s' & E' & Hm' & Ho').
    exists s'. unfold simpler_bench in *. cbn [map simulate].
    unfold cycle in E1. rewrite E1. split; [exact E' |].
    cbn [fold_left].
    destruct (dual_step (contents s) (tied op)) as [m1 o1] eqn:Est.
    cbn [fst snd] in Hm1, Ho1.
    destruct (dual_fold_ext (map tied ops) (fun k => cur s1 (mem k)) m1
                            (cur s1 data_o) Hm1)
      as (Hfm & Hfo).
    unfold contents in Hm', Ho'. rewrite Ho1 in *.
    split.
    + intros k. rewrite Hm'. apply Hfm.
    + rewrite Ho'. exact Hfo.
Qed.

(** A run of the single-port bench follows the map. *)
Lemma single_bench_model : forall fuel ops (s : Store sig),
  Forall (single_op_in_range aw dw) ops -> quiet s ->
  (forall k, 0 <= cur s (mem k) < 2 ^ dw) ->
  exists s',
    single_bench aw dw (S fuel) ops s = Settled s' /\
    (forall k, cur s' (mem k) = fst (fold_left single_step ops (contents s)) k) /\
    cur s' data_o = snd (fold_left single_step ops (contents s)).
Proof.
  intros fuel ops. induction ops as [| op ops IH]; intros s Hops Hq Hrange.
  - exists s. split; [reflexivity |]. split; [intros k |]; reflexivity.
  - inversion Hops as [| ? ? Hop Hrest]; subst.
    destruct (single_cycle_model fuel op s Hop Hq Hrange)
      as (s1 & E1 & Hq1 & Hm1 & Ho1).
    assert (Hrange1 : forall k, 0 <= cur s1 (mem k) < 2 ^ dw).
    { intros k. rewrite Hm1. destruct op as [[w a] d].
      destruct Hop as (_ & _ & Hd).
      unfold single_step, contents, mem_write. cbn [fst].
      destruct (w =? 0); [apply Hrange |].
      destruct (k =? a); [exact Hd | apply Hrange]. }
    destruct (IH s1 Hrest Hq1 Hrange1) as (s' & E' & Hm' & Ho').
    exists s'. unfold single_bench in *. cbn [map simulate].
    unfold cycle in E1. rewrite E1. split; [exact E' |].
    cbn [fold_left].
    destruct (single_step (contents s) op) as [m1 o1] eqn:Est.
    cbn [fst snd] in Hm1, Ho1.
    destruct (single_fold_ext ops (fun k => cur s1 (mem k)) m1 (cur s1 data_o) Hm1)
      as (Hfm & Hfo).
    unfold contents in Hm', Ho'. rewrite Ho1 in *.
    split.
    + intros k. rewrite Hm'. apply Hfm.
    + rewrite Ho'. exact Hfo.
Qed.

End Widths.

End RamModel.

(* ===================================================================== *)
(** * The sampling pulse generator                                       *)
(* ===================================================================== *)

Module SamplerFacts.
Import Kernel KernelFacts BlockRam BlockRam.Sampler.

Section Ratio.

Variable ratio : Z.

Local Notation "'edge'" :=
  (clock_edge sig_eq_dec (width ratio) (design ratio) clk Rising)
  (only parsing).

Lemma sampler_edge_view : forall s : Store sig,
  view (edge s) = step ratio (view s).
Proof.
  intros s. unfold view, step.
  cbv [clock_edge edge_bodies design sample_en filter fires_on trigger map
       body run_blocks sample_en_logic get set skip].
  split_ifs; reflexivity.
Qed.

Lemma sampler_seq_only : comb_bodies (design ratio) = [].
Proof. reflexivity. Qed.

Lemma sampler_tick_view : forall fuel (s : Store sig),
  quiet s ->
  exists s',
    tick sig_eq_dec (width ratio) (S fuel) signals (design ratio) clk [] s
      = Settled s' /\
    quiet s' /\ view s' = step ratio (view s).
Proof.
  intros fuel s Hq.
  rewrite tick_seq_only by apply sampler_seq_only.
  eexists. split; [reflexivity |]. split.
  - intros x. reflexivity.
  - rewrite sampler_edge_view. unfold view. cbn. rewrite !Hq. reflexivity.
Qed.

Lemma sampler_simulate_view : forall fuel (n : nat) (s : Store sig),
  quiet s ->
  exists s',
    simulate sig_eq_dec (width ratio) (S fuel) signals (design ratio) clk
             (repeat [] n) s = Settled s' /\
    quiet s' /\ view s' = Nat.iter n (step ratio) (view s).
Proof.
  intros fuel n. induction n as [| n IH]; intros s Hq.
  - exists s. repeat split; exact Hq.
  - destruct (sampler_tick_view fuel s Hq) as (s1 & Ht & Hq1 & Hv1).
    destruct (IH s1 Hq1) as (s2 & Hs & Hq2 & Hv2).
    exists s2. cbn [repeat simulate]. rewrite Ht.
    split; [exact Hs |]. split; [exact Hq2 |].
    rewrite Hv2, Hv1. symmetry. apply Nat.iter_succ_r.
Qed.

Lemma sampler_run_view : forall fuel (n : nat),
  exists s,
    clk_sim ratio (S fuel) n = Settled s /\
    view s = Nat.iter n (step ratio) (0, 0).
Proof.
  intros fuel n. unfold clk_sim, run.
  change power_up with (commit power_up).
  rewrite settle_seq_only by apply sampler_seq_only.
  destruct (sampler_simulate_view fuel n (commit power_up)) as (s' & Hs & _ & Hv).
  - intros x. reflexivity.
  - exists s'. split; [exact Hs | exact Hv].
Qed.

(** ** The counter counts modulo [ratio] *)

Hypothesis ratio_ge_2 : 2 <= ratio.

Lemma rollover_fits : rollover ratio < 2 ^ cntr_width ratio.
Proof.
  unfold rollover, cntr_width.
  pose proof (Z.log2_up_spec ratio ltac:(lia)) as [_ H]. lia.
Qed.

(** One edge from the registers at count [n mod ratio]. *)
Lemma step_count : forall n o,
  0 <= n ->
  step ratio (n mod ratio, o) =
  ((n + 1) mod ratio, if (n + 1) mod ratio =? 0 then 1 else 0).
Proof.
  intros n o Hn. unfold step.
  pose proof rollover_fits as Hfit. unfold rollover in *.
  pose proof (Z.mod_pos_bound n ratio ltac:(lia)) as Hb.
  rewrite (RampFacts.mod_succ n ratio) by lia.
  destruct (Z.eqb_spec (n mod ratio) (ratio - 1)) as [E | E].
  - destruct (Z.eqb_spec (n mod ratio + 1) ratio); [| lia]. reflexivity.
  - destruct (Z.eqb_spec (n mod ratio + 1) ratio); [lia |].
    destruct (Z.eqb_spec (n mod ratio + 1) 0); [lia |].
    unfold wrap. rewrite Z.mod_small by lia. reflexivity.
Qed.

Lemma sampler_iter_count : forall n : nat,
  Nat.iter (S n) (step ratio) (0, 0) =
  (Z.of_nat (S n) mod ratio,
   if Z.of_nat (S n) mod ratio =? 0 then 1 else 0).
Proof.
  induction n as [| n IH].
  - change (Nat.iter 1 (step ratio) (0, 0)) with (step ratio (0, 0)).
    rewrite <- (Zmod_0_l ratio) at 1.
    rewrite step_count by lia. reflexivity.
  - change (Nat.iter (S (S n)) (step ratio) (0, 0))
      with (step ratio (Nat.iter (S n) (step ratio) (0, 0))).
    rewrite IH, step_count by lia.
    replace (Z.of_nat (S n) + 1) with (Z.of_nat (S (S n))) by lia.
    reflexivity.
Qed.

End Ratio.

End SamplerFacts.

(* ===================================================================== *)
(** * The simple PWM                                                     *)
(* ===================================================================== *)

Module PwmSimpleFacts.
Import Kernel KernelFacts Pwm.Simple.

Section Width.

Variable len : Z.

Local Notation "'edge'" :=
  (clock_edge sig_eq_dec (width len) pwm_simple clk Rising)
  (only parsing).
Local Notation "'round'" :=
  (comb_round sig_eq_dec (width len) pwm_simple) (only parsing).

Ltac eval_pwm :=
  cbv [comb_round comb_bodies clock_edge edge_bodies pwm_simple filter
       is_comb fires_on trigger map body run_blocks cntr_logic output_logic
       get set skip].

Lemma pwm_round_frame : forall (s : Store sig) x,
  x <> pwm_o -> cur (round s) x = nxt s x.
Proof. intros s x H. eval_pwm. split_ifs; congruence. Qed.

Lemma pwm_round_output : forall s : Store sig,
  cur (round s) pwm_o = Z.b2z (cur s cnt <? cur s threshold).
Proof.
  intros s. eval_pwm. cbn. destruct (cur s cnt <? cur s threshold); reflexivity.
Qed.

Lemma pwm_round_idempotent : forall (s : Store sig) x,
  quiet s -> cur (round (round s)) x = cur (round s) x.
Proof.
  intros s x Hq. destruct (sig_eq_dec x pwm_o) as [-> | Hne].
  - rewrite !pwm_round_output, !pwm_round_frame by discriminate.
    rewrite !Hq. reflexivity.
  - rewrite pwm_round_frame by exact Hne. reflexivity.
Qed.

Lemma pwm_settle : forall fuel (s : Store sig),
  quiet s ->
  exists s',
    settle sig_eq_dec (width len) (S (S fuel)) signals pwm_simple s
      = Settled s' /\
    quiet s' /\
    cur s' cnt = cur s cnt /\ cur s' threshold = cur s threshold /\
    cur s' pwm_o = Z.b2z (cur s cnt <? cur s threshold).
Proof.
  intros fuel s Hq.
  destruct (settle_two_rounds _ sig_eq_dec (width len) fuel signals
              pwm_simple s) as (s' & Hs & Hq' & Hcur).
  - intros x. apply pwm_round_idempotent. exact Hq.
  - exists s'. split; [exact Hs |]. split; [exact Hq' |].
    rewrite !Hcur, pwm_round_output, !pwm_round_frame by discriminate.
    rewrite !Hq. repeat split.
Qed.

Lemma pwm_edge_regs : forall s : Store sig,
  cur (edge s) cnt = wrap len (cur s cnt + 1) /\
  cur (edge s) threshold = nxt s threshold.
Proof. intros s. eval_pwm. split; reflexivity. Qed.

Lemma pwm_tick : forall fuel th v (s : Store sig),
  compares th v s ->
  exists s',
    tick sig_eq_dec (width len) (S (S fuel)) signals pwm_simple clk [] s
      = Settled s' /\
    compares th (wrap len (v + 1)) s'.
Proof.
  intros fuel th v s (Hq & Hv & Hth & _). unfold tick.
  match goal with
  | |- context [Kernel.settle _ _ _ _ _ (commit ?a)] =>
      destruct (pwm_settle fuel (commit a)) as (s1 & Hs1 & Hq1 & Hc1 & Ht1 & _);
      [intros x; reflexivity |]
  end.
  rewrite Hs1. cbn in Hc1, Ht1. rewrite Hq in Hc1, Ht1.
  match goal with
  | |- context [Kernel.clock_edge _ _ _ _ _ ?p] => set (pre := p)
  end.
  assert (Hpc : cur pre cnt = cur s1 cnt) by (subst pre; cbn; apply Hq1).
  assert (Hpt : nxt pre threshold = cur s1 threshold)
    by (subst pre; cbn; apply Hq1).
  destruct (pwm_edge_regs pre) as (Hec & Het).
  destruct (pwm_settle fuel
              (clock_edge sig_eq_dec (width len) pwm_simple clk Rising pre))
    as (s2 & Hs2 & Hq2 & Hc2 & Ht2 & Ho2);
    [intros x; reflexivity |].
  exists s2. split; [exact Hs2 |]. split; [exact Hq2 |].
  rewrite Ho2, Hc2, Ht2, Hec, Het, Hpc, Hpt, Hc1, Ht1, Hv, Hth. repeat split.
Qed.

Lemma pwm_simulate : forall fuel th (n : nat) v (s : Store sig),
  compares th v s ->
  exists s',
    simulate sig_eq_dec (width len) (S (S fuel)) signals pwm_simple clk
             (repeat [] n) s = Settled s' /\
    compares th (Nat.iter n (fun v => wrap len (v + 1)) v) s'.
Proof.
  intros fuel th n. induction n as [| n IH]; intros v s Hc.
  - exists s. split; [reflexivity | exact Hc].
  - destruct (pwm_tick fuel th v s Hc) as (s1 & Ht & Hc1).
    destruct (IH _ s1 Hc1) as (s2 & Hs & Hc2).
    exists s2. cbn [repeat simulate]. rewrite Ht. split; [exact Hs |].
    rewrite Nat.iter_succ_r. exact Hc2.
Qed.

Hypothesis len_nonneg : 0 <= len.

Lemma pwm_iter_count : forall n : nat,
  Nat.iter n (fun v => wrap len (v + 1)) 0 = Z.of_nat n mod 2 ^ len.
Proof.
  assert (HM : 0 < 2 ^ len) by (apply Z.pow_pos_nonneg; lia).
  induction n as [| n IH].
  - change (Z.of_nat 0) with 0. rewrite Zmod_0_l. reflexivity.
  - change (Nat.iter (S n) (fun v => wrap len (v + 1)) 0)
      with (wrap len (Nat.iter n (fun v => wrap len (v + 1)) 0 + 1)).
    rewrite IH. unfold wrap. rewrite Z.add_mod_idemp_l by lia.
    f_equal. lia.
Qed.

(** A run from power-up with [th] on the threshold bus. *)
Lemma pwm_run : forall fuel th (n : nat),
  exists s,
    clk_sim len (S (S fuel)) th n = Settled s /\
    compares th (Z.of_nat n mod 2 ^ len) s.
Proof.
  intros fuel th n. unfold clk_sim, run.
  destruct (pwm_settle fuel (power_up th)) as (s0 & Hs0 & Hq0 & Hc0 & Ht0 & Ho0).
  - intros x. reflexivity.
  - rewrite Hs0.
    destruct (pwm_simulate fuel th n 0 s0) as (s & Hs & Hc).
    + split; [exact Hq0 |]. repeat split; assumption.
    + exists s. split; [exact Hs |]. rewrite <- pwm_iter_count. exact Hc.
Qed.

(** The numbers below [n] that are below [th]. *)
Lemma count_below : forall (n : nat) th,
  0 <= th <= Z.of_nat n ->
  length (filter (fun k => Z.of_nat k <? th) (seq 0 n)) = Z.to_nat th.
Proof.
  induction n as [| n IH]; intros th Hth.
  - cbn. lia.
  - rewrite seq_S, filter_app, length_app. cbn [filter Nat.add].
    destruct (Z.ltb_spec (Z.of_nat n) th) as [Hlt | Hge].
    + assert (th = Z.of_nat (S n)) by lia. subst th.
      assert (E : filter (fun k => Z.of_nat k <? Z.of_nat (S n)) (seq 0 n)
                  = seq 0 n).
      { apply forallb_filter_id. apply forallb_forall. intros k Hk.
        apply in_seq in Hk. apply Z.ltb_lt. lia. }
      rewrite E, length_seq. cbn. lia.
    + rewrite IH by lia. cbn. lia.
Qed.

End Width.

End PwmSimpleFacts.

(* ===================================================================== *)
(** * The record/playback controller                                     *)
(* ===================================================================== *)

Module RecordPlayFacts.
Import Kernel KernelFacts BlockRam BlockRam.RecordPlay.

Local Notation "'edge'" :=
  (clock_edge sig_eq_dec width design clk Rising) (only parsing).

Ltac eval_rp :=
  cbv [clock_edge edge_bodies design record_play gen_reset sample_en ram app
       filter fires_on trigger map body run_blocks gen_reset_logic
       sample_en_logic ram_logic record_play_fsm get get_next set skip
       INIT WAITING_TO_RECORD RECORDING WAITING_TO_PLAY PLAYING];
  repeat (progress (cbn; rewrite ?exec_cur)).

(** After the case split: bring every read back to the store before the
    edge and turn the tests into equations. *)
Ltac clean_reads :=
  repeat (progress
            (cbn in *;
             repeat match goal with
                    | H : context [cur (snd (exec _ _ _ _))] |- _ =>
                        rewrite exec_cur in H
                    end));
  repeat match goal with
         | H : (_ =? _) = true |- _ => apply Z.eqb_eq in H
         | H : (_ =? _) = false |- _ => apply Z.eqb_neq in H
         end.

Lemma rp_seq_only : comb_bodies design = [].
Proof. reflexivity. Qed.

(** The state register keeps to the five declared states. *)
Lemma rp_edge_state_range : forall s : Store sig,
  0 <= nxt s state <= 4 -> 0 <= cur (edge s) state <= 4.
Proof. intros s H. eval_rp. split_ifs; lia. Qed.

(** The write request is a bit, and it is raised only on a sampling pulse
    outside reset, in state [RECORDING] or in state [WAITING_TO_RECORD]
    with button A released. *)
Lemma rp_edge_wr : forall s : Store sig,
  (cur (edge s) wr = 0 \/ cur (edge s) wr = 1) /\
  (cur (edge s) wr = 1 ->
   cur s reset = 0 /\ cur s do_sample <> 0 /\
   (cur s state = RECORDING \/
    (cur s state = WAITING_TO_RECORD /\ cur s button_a = 0))).
Proof.
  intros s. eval_rp.
  split; split_ifs; clean_reads;
    first [ tauto | discriminate | solve [intuition (try discriminate; try lia)] ].
Qed.

(** Without a write request the memory keeps its contents. *)
Lemma rp_edge_mem_frame : forall (s : Store sig) k,
  cur s wr = 0 -> cur (edge s) (mem k) = nxt s (mem k).
Proof.
  intros s k Hw. eval_rp. split_ifs; clean_reads; congruence.
Qed.

(** Between sampling pulses the controller only follows the reset. *)
Lemma rp_edge_idle : forall s : Store sig,
  cur s do_sample = 0 ->
  cur (edge s) state = (if cur s reset =? 0 then nxt s state else 0) /\
  cur (edge s) leds_o = nxt s leds_o /\
  cur (edge s) wr = 0 /\
  cur (edge s) addr = nxt s addr /\
  cur (edge s) end_addr = nxt s end_addr.
Proof.
  intros s Hd. eval_rp.
  repeat split; split_ifs; clean_reads; congruence.
Qed.

(** A sampling pulse in state [INIT]. *)
Lemma rp_edge_init : forall s : Store sig,
  cur s reset = 0 -> cur s do_sample = 1 -> cur s state = INIT ->
  cur (edge s) leds_o = 21 /\
  cur (edge s) state = (if cur s button_a =? 1 then 1 else nxt s state).
Proof.
  intros s Hr Hd Hs. unfold INIT in Hs. eval_rp.
  split; split_ifs; clean_reads; first [congruence | lia].
Qed.

(** The two generators run as they do on their own. *)
Lemma rp_edge_sampler : forall s : Store sig,
  (cur (edge s) smp_cntr, cur (edge s) do_sample)
  = Sampler.step ratio (cur s smp_cntr, cur s do_sample).
Proof.
  intros s. unfold Sampler.step. eval_rp. split_ifs; reflexivity.
Qed.

Lemma rp_edge_reset : forall s : Store sig,
  quiet s ->
  (cur (edge s) rst_cntr, cur (edge s) reset)
  = Reset.step (cur s rst_cntr, cur s reset).
Proof.
  intros s Hq. unfold Reset.step. eval_rp. split_ifs; rewrite ?Hq; reflexivity.
Qed.

(** One bench cycle is a rising edge on the store that carries the two
    button levels. *)
Lemma rp_tick : forall fuel (a b : bool) (s : Store sig),
  quiet s ->
  exists pre,
    tick sig_eq_dec width (S fuel) signals design clk
         [(button_a, Z.b2z a); (button_b, Z.b2z b)] s
      = Settled (edge pre) /\
    quiet pre /\
    cur pre button_a = Z.b2z a /\ cur pre button_b = Z.b2z b /\
    (forall x, x <> button_a -> x <> button_b -> x <> clk ->
               cur pre x = cur s x).
Proof.
  intros fuel a b s Hq.
  rewrite tick_seq_only by apply rp_seq_only.
  eexists. split; [reflexivity |]. split; [intros x; reflexivity |].
  split; [destruct a; reflexivity |]. split; [destruct b; reflexivity |].
  intros x Ha Hb Hc. cbn. split_ifs; first [congruence | apply Hq].
Qed.

(** ** The first sampling period *)

Lemma rp_ratio_ge_2 : 2 <= ratio.
Proof. unfold ratio. lia. Qed.

(** The pulse output during the first period. *)
Lemma first_period_pulse : forall n : nat,
  Z.of_nat n <= ratio ->
  snd (Nat.iter n (Sampler.step ratio) (0, 0))
  = if Z.of_nat n =? ratio then 1 else 0.
Proof.
  intros [| n] Hn.
  - reflexivity.
  - rewrite (SamplerFacts.sampler_iter_count ratio rp_ratio_ge_2). cbn [snd].
    destruct (Z.eqb_spec (Z.of_nat (S n)) ratio) as [E | E].
    + rewrite E, Z.mod_same by (unfold ratio; lia). reflexivity.
    + rewrite Z.mod_small by lia.
      destruct (Z.eqb_spec (Z.of_nat (S n)) 0); [lia | reflexivity].
Qed.

Lemma reset_level : forall n : nat,
  snd (Nat.iter n Reset.step (0, 0)) = if (n =? 1)%nat then 1 else 0.
Proof.
  intros [| [| n]]; [reflexivity | reflexivity |].
  rewrite ResetFacts.iter_released. reflexivity.
Qed.

(** A cycle before the first pulse leaves the controller dormant. *)
Lemma dormant_tick : forall fuel (n : nat) (a b : bool) (s : Store sig),
  Z.of_nat n < ratio -> dormant n s ->
  exists s',
    tick sig_eq_dec width (S fuel) signals design clk
         [(button_a, Z.b2z a); (button_b, Z.b2z b)] s = Settled s' /\
    dormant (S n) s'.
Proof.
  intros fuel n a b s Hn (Hq & Hsmp & Hrst & Hst & Hleds & Hwr).
  destruct (rp_tick fuel a b s Hq) as (pre & Ht & Hqp & _ & _ & Hsame).
  exists (clock_edge sig_eq_dec width design clk Rising pre).
  split; [exact Ht |].
  assert (Hd : cur pre do_sample = 0).
  { rewrite Hsame by discriminate.
    change (cur s do_sample) with (snd (cur s smp_cntr, cur s do_sample)).
    rewrite Hsmp, first_period_pulse by lia.
    destruct (Z.eqb_spec (Z.of_nat n) ratio); [lia | reflexivity]. }
  destruct (rp_edge_idle pre Hd) as (Es & El & Ew & _).
  split; [intros x; reflexivity |].
  split; [| split; [| split; [| split]]].
  - rewrite rp_edge_sampler, !Hsame by discriminate. rewrite Hsmp. reflexivity.
  - rewrite (rp_edge_reset pre Hqp), !Hsame by discriminate.
    rewrite Hrst. reflexivity.
  - rewrite Es, Hqp, (Hsame state), Hst by discriminate.
    destruct (cur pre reset =? 0); reflexivity.
  - rewrite El, Hqp, (Hsame leds_o) by discriminate. exact Hleds.
  - exact Ew.
Qed.

Lemma dormant_simulate : forall fuel buttons (n : nat) (s : Store sig),
  Z.of_nat n + Z.of_nat (length buttons) <= ratio -> dormant n s ->
  exists s',
    simulate sig_eq_dec width (S fuel) signals design clk (bench buttons) s
      = Settled s' /\
    dormant (n + length buttons) s'.
Proof.
  intros fuel buttons. induction buttons as [| [a b] rest IH]; intros n s Hn Hd.
  - exists s. split; [reflexivity |]. rewrite Nat.add_0_r. exact Hd.
  - cbn [length] in Hn.
    destruct (dormant_tick fuel n a b s ltac:(lia) Hd) as (s1 & Ht & Hd1).
    destruct (IH (S n) s1 ltac:(lia) Hd1) as (s' & Hs & Hd').
    exists s'. cbn [bench map simulate fst snd]. rewrite Ht.
    split; [exact Hs |].
    replace (n + length ((a, b) :: rest))%nat with (S n + length rest)%nat
      by (cbn [length]; lia).
    exact Hd'.
Qed.

Lemma dormant_power_up : dormant 0 (commit power_up).
Proof. repeat split. Qed.

Lemma dormant_run : forall fuel buttons,
  Z.of_nat (length buttons) <= ratio ->
  exists s,
    simulate_buttons (S fuel) buttons = Settled s /\
    dormant (length buttons) s.
Proof.
  intros fuel buttons Hlen. unfold simulate_buttons, run.
  change power_up with (commit power_up).
  rewrite settle_seq_only by apply rp_seq_only.
  apply (dormant_simulate fuel buttons 0); [lia | apply dormant_power_up].
Qed.

(** A run of any length keeps the state register in range and the write
    request a bit. *)
Lemma rp_simulate_range : forall fuel buttons (s : Store sig),
  quiet s -> 0 <= cur s state <= 4 -> (cur s wr = 0 \/ cur s wr = 1) ->
  exists s',
    simulate sig_eq_dec width (S fuel) signals design clk (bench buttons) s
      = Settled s' /\
    quiet s' /\ 0 <= cur s' state <= 4 /\ (cur s' wr = 0 \/ cur s' wr = 1).
Proof.
  intros fuel buttons. induction buttons as [| [a b] rest IH]; intros s Hq Hs Hw.
  - exists s. repeat split; try assumption; lia.
  - destruct (rp_tick fuel a b s Hq) as (pre & Ht & Hqp & _ & _ & Hsame).
    destruct (IH (clock_edge sig_eq_dec width design clk Rising pre))
      as (s' & Hs' & H').
    + intros x. reflexivity.
    + apply rp_edge_state_range. rewrite Hqp, Hsame by discriminate. exact Hs.
    + apply rp_edge_wr.
    + exists s'. cbn [bench map simulate fst snd]. rewrite Ht.
      split; [exact Hs' | exact H'].
Qed.

(** A test bench in two parts is played one part after the other. *)
Lemma rp_simulate_app : forall fuel tb1 tb2 (s : Store sig),
  simulate sig_eq_dec width fuel signals design clk (tb1 ++ tb2) s =
  match simulate sig_eq_dec width fuel signals design clk tb1 s with
  | Settled s1 => simulate sig_eq_dec width fuel signals design clk tb2 s1
  | NoFixedPoint => NoFixedPoint
  end.
Proof.
  intros fuel tb1 tb2. induction tb1 as [| stim rest IH]; intros s.
  - reflexivity.
  - cbn [app simulate].
    destruct (tick sig_eq_dec width fuel signals design clk stim s);
      [apply IH | reflexivity].
Qed.

(** The cycle after the first sampling period wakes the controller. *)
Lemma wake_tick : forall fuel (a b : bool) (s : Store sig),
  dormant (Z.to_nat ratio) s ->
  exists s',
    tick sig_eq_dec width (S fuel) signals design clk
         [(button_a, Z.b2z a); (button_b, Z.b2z b)] s = Settled s' /\
    cur s' leds_o = 21 /\ cur s' state = Z.b2z a.
Proof.
  intros fuel a b s (Hq & Hsmp & Hrst & Hst & _).
  destruct (rp_tick fuel a b s Hq) as (pre & Ht & Hqp & Ha & _ & Hsame).
  exists (clock_edge sig_eq_dec width design clk Rising pre).
  split; [exact Ht |].
  assert (Hd : cur pre do_sample = 1).
  { rewrite Hsame by discriminate.
    change (cur s do_sample) with (snd (cur s smp_cntr, cur s do_sample)).
    rewrite Hsmp, first_period_pulse by (unfold ratio; lia).
    destruct (Z.eqb_spec (Z.of_nat (Z.to_nat ratio)) ratio);
      [reflexivity | unfold ratio in *; lia]. }
  assert (Hr : cur pre reset = 0).
  { rewrite Hsame by discriminate.
    change (cur s reset) with (snd (cur s rst_cntr, cur s reset)).
    rewrite Hrst, reset_level. reflexivity. }
  assert (Hs : cur pre state = INIT)
    by (rewrite Hsame by discriminate; exact Hst).
  destruct (rp_edge_init pre Hr Hd Hs) as (El & Es).
  split; [exact El |].
  rewrite Es, Ha, Hqp, Hs. destruct a; reflexivity.
Qed.

End RecordPlayFacts.

(* ===================================================================== *)
(** * The four-state machine, cycle by cycle                             *)
(* ===================================================================== *)

Module ClassicRuns.
Import Kernel KernelFacts Fsm Fsm.Classic ClassicFacts.

Local Notation "'edge'" :=
  (clock_edge sig_eq_dec width classic_fsm clk Rising) (only parsing).
Local Notation "'round'" :=
  (comb_round sig_eq_dec width classic_fsm) (only parsing).

Ltac eval_edge :=
  cbv [clock_edge edge_bodies classic_fsm Debouncer.debouncer app filter
       fires_on trigger map body run_blocks
       Debouncer.next_state_logic Debouncer.output_logic
       next_state_logic on_change get set skip get_bus len_inputs];
  repeat (progress (cbn; rewrite ?exec_cur)).

Ltac clean_reads :=
  repeat (progress
            (cbn in *;
             repeat match goal with
                    | H : context [cur (snd (exec _ _ _ _))] |- _ =>
                        rewrite exec_cur in H
                    end));
  repeat match goal with
         | H : (_ =? _) = true |- _ => apply Z.eqb_eq in H
         | H : (_ =? _) = false |- _ => apply Z.eqb_neq in H
         | H : (_ <? _) = true |- _ => apply Z.ltb_lt in H
         | H : (_ <? _) = false |- _ => apply Z.ltb_ge in H
         end.

(** The state register at a rising edge once the reset count is over. *)
Lemma cl_edge_advance : forall (s : Store sig) (st : state),
  3 <= cur s reset_cnt ->
  cur s fsm_state = encode st -> nxt s fsm_state = encode st ->
  cur (edge s) fsm_state = encode (advance st (cur s input_chgs)).
Proof.
  intros s st Hr Hc Hn. unfold advance. eval_edge.
  destruct st; cbn [encode] in *;
    split_ifs; clean_reads; first [reflexivity | congruence | lia].
Qed.

(** The state register at a rising edge during the reset count. *)
Lemma cl_edge_in_reset : forall s : Store sig,
  cur s reset_cnt < 3 ->
  cur (edge s) fsm_state = encode A /\
  cur (edge s) reset_cnt = wrap 2 (cur s reset_cnt + 1).
Proof.
  intros s Hr. eval_edge.
  split; split_ifs; clean_reads; first [reflexivity | congruence | lia].
Qed.

(** The reset count stops at its top value. *)
Lemma cl_edge_reset_done : forall s : Store sig,
  3 <= cur s reset_cnt -> cur (edge s) reset_cnt = nxt s reset_cnt.
Proof.
  intros s Hr. eval_edge.
  split_ifs; clean_reads; first [reflexivity | congruence | lia].
Qed.

(** The registers of the two debouncers at a rising edge. *)
Lemma cl_edge_debouncer : forall (s : Store sig) (i : nat),
  (i < 2)%nat ->
  cur (edge s) (dbcnt i) =
    (if cur s (inputs i) =? cur s (prev_button i)
     then if cur s (dbcnt i) =? 0 then nxt s (dbcnt i)
          else wrap (Debouncer.cnt_width debounce_time) (cur s (dbcnt i) - 1)
     else wrap (Debouncer.cnt_width debounce_time) debounce_time) /\
  cur (edge s) (prev_button i) = wrap 1 (cur s (inputs i)) /\
  cur (edge s) (dbnc_inputs i) =
    (if cur s (dbcnt i) =? 0 then wrap 1 (cur s (prev_button i))
     else nxt s (dbnc_inputs i)).
Proof.
  intros s i Hi.
  assert (C : i = 0%nat \/ i = 1%nat) by lia.
  destruct C as [-> | ->]; eval_edge;
    repeat split; split_ifs; clean_reads;
    first [reflexivity | congruence | lia].
Qed.

(** [prev_inputs] takes the debounced inputs as they were before the
    edge. *)
Lemma cl_edge_prev_inputs : forall s : Store sig,
  cur (edge s) prev_inputs =
  wrap (Z.of_nat len_inputs) (bus_value dbnc_inputs len_inputs s).
Proof.
  intros s. eval_edge.
  split_ifs; clean_reads; first [reflexivity | congruence | lia].
Qed.

(** What a combinational round leaves on [input_chgs]. *)
Lemma round_changes : forall s : Store sig,
  cur (round s) input_chgs = changes_of s.
Proof.
  intros s. unfold changes_of. eval_round. split_ifs; reflexivity.
Qed.

(** Settling from a store with nothing pending is one combinational
    round. *)
Lemma cl_settle : forall fuel (s : Store sig),
  quiet s ->
  exists s',
    settle sig_eq_dec width (S (S fuel)) signals classic_fsm s = Settled s' /\
    quiet s' /\ (forall x, cur s' x = cur (round s) x).
Proof.
  intros fuel s Hq.
  apply (settle_two_rounds _ sig_eq_dec width fuel signals classic_fsm s).
  intros x. apply round_idempotent. exact Hq.
Qed.

(** One cycle of the test bench: the registers are those of the rising
    edge, taken on a store [pre] that holds the old registers, the new
    input bits and the input changes the old registers give; the two
    combinational outputs then follow the new registers. *)
Lemma cl_tick : forall fuel v (s : Store sig),
  quiet s ->
  exists pre s',
    tick sig_eq_dec width (S (S fuel)) signals classic_fsm clk
         (bus_stimulus inputs len_inputs v) s = Settled s' /\
    quiet pre /\ quiet s' /\
    (forall x, x <> outputs -> x <> input_chgs ->
               cur s' x = cur (edge pre) x) /\
    cur s' outputs = output_of (cur (edge pre) fsm_state) /\
    (forall x, x <> clk -> (forall k, x <> inputs k) ->
               x <> outputs -> x <> input_chgs -> cur pre x = cur s x) /\
    cur pre (inputs 0%nat) = Z.b2z (Z.testbit v 0) /\
    cur pre (inputs 1%nat) = Z.b2z (Z.testbit v 1) /\
    cur pre input_chgs = changes_of s.
Proof.
  intros fuel v s Hq. unfold tick.
  set (a := commit (drive sig_eq_dec width
                          (bus_stimulus inputs len_inputs v ++ [(clk, 0)]) s)).
  assert (Ha : forall x, x <> clk -> (forall k, x <> inputs k) ->
                         cur a x = cur s x).
  { intros x Hc Hi. unfold a. cbn.
    destruct (sig_eq_dec x clk); [contradiction |].
    destruct (sig_eq_dec x (inputs 1%nat)) as [E | _]; [destruct (Hi _ E) |].
    destruct (sig_eq_dec x (inputs 0%nat)) as [E | _]; [destruct (Hi _ E) |].
    apply Hq. }
  assert (Ha0 : cur a (inputs 0%nat) = Z.b2z (Z.testbit v 0)).
  { unfold a. cbn.
    match goal with |- wrap 1 (Z.b2z ?b) = _ => destruct b; reflexivity end. }
  assert (Ha1 : cur a (inputs 1%nat) = Z.b2z (Z.testbit v 1)).
  { unfold a. cbn.
    match goal with |- wrap 1 (Z.b2z ?b) = _ => destruct b; reflexivity end. }
  destruct (cl_settle fuel a) as (s1 & Hs1 & Hq1 & Hc1);
    [intros x; reflexivity |].
  rewrite Hs1.
  set (pre := commit (drive sig_eq_dec width [(clk, 1)] s1)).
  assert (Hpre : forall x, x <> clk -> cur pre x = cur s1 x).
  { intros x Hc. unfold pre. cbn.
    destruct (sig_eq_dec x clk); [contradiction | apply Hq1]. }
  destruct (cl_settle fuel (edge pre)) as (s2 & Hs2 & Hq2 & Hc2);
    [intros x; reflexivity |].
  exists pre, s2. split; [exact Hs2 |].
  split; [intros x; reflexivity |]. split; [exact Hq2 |].
  split; [| split; [| split; [| split; [| split]]]].
  - intros x Ho Hi. rewrite Hc2. apply round_frame; assumption.
  - rewrite Hc2. apply round_outputs.
  - intros x Hc Hi Ho Hg.
    rewrite Hpre, Hc1 by assumption.
    rewrite round_frame by assumption.
    change (nxt a x) with (cur a x). apply Ha; assumption.
  - rewrite Hpre, Hc1 by discriminate.
    rewrite round_frame by discriminate. exact Ha0.
  - rewrite Hpre, Hc1 by discriminate.
    rewrite round_frame by discriminate. exact Ha1.
  - rewrite Hpre, Hc1 by discriminate.
    rewrite !round_changes. unfold changes_of. cbn [bus_value len_inputs].
    rewrite !Ha by (try discriminate; intros k; discriminate).
    reflexivity.
Qed.

Lemma classic_wrap_cnt : forall c,
  0 <= c <= debounce_time -> wrap (Debouncer.cnt_width debounce_time) c = c.
Proof.
  intros c Hc. apply DebouncerFacts.wrap_cnt; [unfold debounce_time; lia | exact Hc].
Qed.

(** A debouncer that has let nothing through within the first
    [debounce_time] cycles lets nothing through at the next edge. *)
Lemma holding_edge : forall (i n : nat) (s : Store sig),
  (i < 2)%nat -> quiet s ->
  cur s (inputs i) = 0 \/ cur s (inputs i) = 1 ->
  Z.of_nat n <= debounce_time ->
  holding i n s -> holding i (S n) (edge s).
Proof.
  intros i n s Hi Hq Hb Hn (Ho & Hc & Hp & Hlate).
  destruct (cl_edge_debouncer s i Hi) as (Ec & Ep & Eo).
  unfold holding. rewrite Ec, Ep, Eo, !Hq. clear Ec Ep Eo.
  assert (HT : 0 <= debounce_time) by (unfold debounce_time; lia).
  assert (Hw : wrap 1 (cur s (inputs i)) = cur s (inputs i))
    by (destruct Hb as [-> | ->]; reflexivity).
  rewrite Hw.
  split; [| split; [| split]].
  - destruct (Z.eqb_spec (cur s (dbcnt i)) 0) as [E | _]; [| exact Ho].
    destruct Hp as [-> | E1]; [reflexivity |]. specialize (Hlate E1). lia.
  - destruct (Z.eqb_spec (cur s (inputs i)) (cur s (prev_button i))) as [_ | _].
    + destruct (Z.eqb_spec (cur s (dbcnt i)) 0) as [_ | E]; [exact Hc |].
      rewrite classic_wrap_cnt by lia. lia.
    + rewrite classic_wrap_cnt by lia. lia.
  - exact Hb.
  - intros E1.
    destruct (Z.eqb_spec (cur s (inputs i)) (cur s (prev_button i))) as [E | _].
    + assert (E2 : cur s (prev_button i) = 1) by congruence.
      specialize (Hlate E2).
      destruct (Z.eqb_spec (cur s (dbcnt i)) 0) as [E0 | E0]; [lia |].
      rewrite classic_wrap_cnt by lia. lia.
    + rewrite classic_wrap_cnt by lia. lia.
Qed.

(** [holding] looks at three registers only. *)
Lemma holding_ext : forall (i n : nat) (s t : Store sig),
  cur t (dbnc_inputs i) = cur s (dbnc_inputs i) ->
  cur t (dbcnt i) = cur s (dbcnt i) ->
  cur t (prev_button i) = cur s (prev_button i) ->
  holding i n s -> holding i n t.
Proof.
  intros i n s t Ho Hc Hp. unfold holding. rewrite Ho, Hc, Hp. tauto.
Qed.

(** While both debouncers hold, a cycle of the test bench leaves the
    machine in state [A]. *)
Lemma frozen_tick : forall fuel v (n : nat) (s : Store sig),
  Z.of_nat n <= debounce_time -> frozen n s ->
  exists s',
    tick sig_eq_dec width (S (S fuel)) signals classic_fsm clk
         (bus_stimulus inputs len_inputs v) s = Settled s' /\
    frozen (S n) s'.
Proof.
  intros fuel v n s Hn (Hq & H0 & H1 & Hp & Hst & Hout).
  destruct (cl_tick fuel v s Hq)
    as (pre & s' & Ht & Hqp & Hq' & Hreg & Ho' & Hpre & Hi0 & Hi1 & Hch).
  assert (Hd0 : cur s (dbnc_inputs 0%nat) = 0) by apply H0.
  assert (Hd1 : cur s (dbnc_inputs 1%nat) = 0) by apply H1.
  assert (Hch0 : cur pre input_chgs = 0).
  { rewrite Hch. unfold changes_of. cbn [bus_value len_inputs].
    rewrite Hd0, Hd1. reflexivity. }
  assert (Hstate : cur (edge pre) fsm_state = encode A).
  { destruct (Z.lt_ge_cases (cur pre reset_cnt) 3) as [Hr | Hr].
    - apply cl_edge_in_reset. exact Hr.
    - rewrite (cl_edge_advance pre A Hr).
      + rewrite Hch0. reflexivity.
      + rewrite Hpre by (try discriminate; intros k; discriminate). exact Hst.
      + rewrite Hqp, Hpre by (try discriminate; intros k; discriminate).
        exact Hst. }
  assert (Hhold : forall i b, (i < 2)%nat ->
                    cur pre (inputs i) = Z.b2z b ->
                    holding i n s -> holding i (S n) s').
  { intros i b Hi Hb Hh.
    apply (holding_ext i (S n) (edge pre));
      try (apply Hreg; discriminate).
    apply holding_edge; try assumption.
    - rewrite Hb. destruct b; [right | left]; reflexivity.
    - apply (holding_ext i n s); try exact Hh;
        apply Hpre; try discriminate; intros k; discriminate. }
  exists s'. split; [exact Ht |].
  split; [exact Hq' |]. split; [| split; [| split; [| split]]].
  - apply (Hhold 0%nat (Z.testbit v 0)); [lia | exact Hi0 | exact H0].
  - apply (Hhold 1%nat (Z.testbit v 1)); [lia | exact Hi1 | exact H1].
  - rewrite Hreg by discriminate. rewrite cl_edge_prev_inputs.
    cbn [bus_value len_inputs].
    rewrite !Hpre by (try discriminate; intros k; discriminate).
    rewrite Hd0, Hd1. reflexivity.
  - rewrite Hreg by discriminate. exact Hstate.
  - rewrite Ho', Hstate. reflexivity.
Qed.

Lemma frozen_simulate : forall fuel ins (n : nat) (s : Store sig),
  Z.of_nat n + Z.of_nat (length ins) <= debounce_time + 1 -> frozen n s ->
  exists s',
    simulate sig_eq_dec width (S (S fuel)) signals classic_fsm clk
             (fsm_tb ins) s = Settled s' /\
    frozen (n + length ins) s'.
Proof.
  intros fuel ins. induction ins as [| v rest IH]; intros n s Hn Hf.
  - exists s. split; [reflexivity |]. rewrite Nat.add_0_r. exact Hf.
  - cbn [length] in Hn.
    destruct (frozen_tick fuel v n s ltac:(lia) Hf) as (s1 & Ht & Hf1).
    destruct (IH (S n) s1 ltac:(lia) Hf1) as (s' & Hs & Hf').
    exists s'. unfold fsm_tb. cbn [map simulate]. rewrite Ht.
    split; [exact Hs |].
    replace (n + length (v :: rest))%nat with (S n + length rest)%nat
      by (cbn [length]; lia).
    exact Hf'.
Qed.

Lemma frozen_run : forall fuel ins,
  Z.of_nat (length ins) <= debounce_time + 1 ->
  exists s,
    simulate_fsm (S (S fuel)) ins = Settled s /\ frozen (length ins) s.
Proof.
  intros fuel ins Hlen. unfold simulate_fsm, run.
  destruct (cl_settle fuel power_up) as (s0 & Hs0 & Hq0 & Hc0);
    [intros x; reflexivity |].
  rewrite Hs0.
  apply (frozen_simulate fuel ins 0 s0); [lia |].
  split; [exact Hq0 |].
  assert (Hreg : forall x, x <> outputs -> x <> input_chgs -> cur s0 x = 0).
  { intros x Ho Hc. rewrite Hc0. rewrite round_frame by assumption.
    reflexivity. }
  split; [| split; [| split; [| split]]].
  - unfold holding. rewrite !Hreg by discriminate.
    unfold debounce_time. repeat split; lia.
  - unfold holding. rewrite !Hreg by discriminate.
    unfold debounce_time. repeat split; lia.
  - apply Hreg; discriminate.
  - apply Hreg; discriminate.
  - rewrite Hc0, round_outputs. reflexivity.
Qed.

(** The reset count after [n] cycles. *)
Lemma reset_count_tick : forall fuel v (n : nat) (s : Store sig),
  quiet s -> cur s reset_cnt = Z.min (Z.of_nat n) 3 ->
  exists s',
    tick sig_eq_dec width (S (S fuel)) signals classic_fsm clk
         (bus_stimulus inputs len_inputs v) s = Settled s' /\
    quiet s' /\ cur s' reset_cnt = Z.min (Z.of_nat (S n)) 3.
Proof.
  intros fuel v n s Hq Hr.
  destruct (cl_tick fuel v s Hq)
    as (pre & s' & Ht & Hqp & Hq' & Hreg & _ & Hpre & _).
  assert (Hrp : cur pre reset_cnt = Z.min (Z.of_nat n) 3).
  { rewrite Hpre by (try discriminate; intros k; discriminate). exact Hr. }
  exists s'. split; [exact Ht |]. split; [exact Hq' |].
  rewrite Hreg by discriminate.
  destruct (Z.lt_ge_cases (cur pre reset_cnt) 3) as [Hlt | Hge].
  - destruct (cl_edge_in_reset pre Hlt) as [_ E]. rewrite E, Hrp.
    unfold wrap. rewrite Z.mod_small by (change (2 ^ 2) with 4; lia). lia.
  - rewrite (cl_edge_reset_done pre Hge), Hqp, Hrp. lia.
Qed.

Lemma reset_count_simulate : forall fuel ins (n : nat) (s : Store sig),
  quiet s -> cur s reset_cnt = Z.min (Z.of_nat n) 3 ->
  exists s',
    simulate sig_eq_dec width (S (S fuel)) signals classic_fsm clk
             (fsm_tb ins) s = Settled s' /\
    quiet s' /\ cur s' reset_cnt = Z.min (Z.of_nat (n + length ins)) 3.
Proof.
  intros fuel ins. induction ins as [| v rest IH]; intros n s Hq Hr.
  - exists s. split; [reflexivity |]. rewrite Nat.add_0_r. tauto.
  - destruct (reset_count_tick fuel v n s Hq Hr) as (s1 & Ht & Hq1 & Hr1).
    destruct (IH (S n) s1 Hq1 Hr1) as (s' & Hs & Hq' & Hr').
    exists s'. unfold fsm_tb. cbn [map simulate]. rewrite Ht.
    split; [exact Hs |]. split; [exact Hq' |].
    replace (n + length (v :: rest))%nat with (S n + length rest)%nat
      by (cbn [length]; lia).
    exact Hr'.
Qed.

Lemma output_of_encode : forall st, output_of (encode st) = 2 ^ encode st.
Proof. intros []; reflexivity. Qed.

(** One cycle of the machine once the reset count is over. *)
Lemma advance_tick : forall fuel v (s : Store sig) (st : state),
  quiet s -> 3 <= cur s reset_cnt -> cur s fsm_state = encode st ->
  exists s',
    tick sig_eq_dec width (S (S fuel)) signals classic_fsm clk
         (bus_stimulus inputs len_inputs v) s = Settled s' /\
    quiet s' /\
    cur s' reset_cnt = cur s reset_cnt /\
    cur s' fsm_state = encode (advance st (changes_of s)) /\
    cur s' outputs = 2 ^ encode (advance st (changes_of s)) /\
    cur s' prev_inputs =
      wrap (Z.of_nat len_inputs) (bus_value dbnc_inputs len_inputs s).
Proof.
  intros fuel v s st Hq Hr Hst.
  destruct (cl_tick fuel v s Hq)
    as (pre & s' & Ht & Hqp & Hq' & Hreg & Ho' & Hpre & _ & _ & Hch).
  assert (Hkeep : forall x, x <> clk -> (forall k, x <> inputs k) ->
                            x <> outputs -> x <> input_chgs ->
                            cur pre x = cur s x) by exact Hpre.
  assert (Hrp : 3 <= cur pre reset_cnt).
  { rewrite Hpre by (try discriminate; intros k; discriminate). exact Hr. }
  assert (Hstate : cur (edge pre) fsm_state = encode (advance st (changes_of s))).
  { rewrite (cl_edge_advance pre st Hrp).
    - rewrite Hch. reflexivity.
    - rewrite Hpre by (try discriminate; intros k; discriminate). exact Hst.
    - rewrite Hqp, Hpre by (try discriminate; intros k; discriminate).
      exact Hst. }
  exists s'. split; [exact Ht |]. split; [exact Hq' |].
  split; [| split; [| split]].
  - rewrite Hreg by discriminate.
    rewrite (cl_edge_reset_done pre Hrp), Hqp.
    apply Hpre; try discriminate; intros k; discriminate.
  - rewrite Hreg by discriminate. exact Hstate.
  - rewrite Ho', Hstate. apply output_of_encode.
  - rewrite Hreg by discriminate. rewrite cl_edge_prev_inputs.
    cbn [bus_value len_inputs].
    rewrite !Hpre by (try discriminate; intros k; discriminate).
    reflexivity.
Qed.

(** A debounced input that holds its level records no change. *)
Lemma held_inputs_no_change : forall (s s' : Store sig),
  (cur s (dbnc_inputs 0%nat) = 0 \/ cur s (dbnc_inputs 0%nat) = 1) ->
  (cur s (dbnc_inputs 1%nat) = 0 \/ cur s (dbnc_inputs 1%nat) = 1) ->
  cur s' (dbnc_inputs 0%nat) = cur s (dbnc_inputs 0%nat) ->
  cur s' (dbnc_inputs 1%nat) = cur s (dbnc_inputs 1%nat) ->
  cur s' prev_inputs =
    wrap (Z.of_nat len_inputs) (bus_value dbnc_inputs len_inputs s) ->
  changes_of s' = 0.
Proof.
  intros s s' H0 H1 E0 E1 Ep. unfold changes_of. rewrite Ep.
  cbn [bus_value len_inputs]. rewrite E0, E1.
  destruct H0 as [-> | ->], H1 as [-> | ->]; reflexivity.
Qed.

(** One cycle acts on the registers of debouncer [i] as the stand-alone
    debouncer's [step] does on bit [i] of the input. *)
Lemma cl_debouncer_tick : forall fuel v (s : Store sig),
  quiet s ->
  exists s',
    tick sig_eq_dec width (S (S fuel)) signals classic_fsm clk
         (bus_stimulus inputs len_inputs v) s = Settled s' /\
    quiet s' /\
    forall i, (i < 2)%nat ->
      triple i s' = Debouncer.step debounce_time (wrap 1 (bit_of i v)) (triple i s).
Proof.
  intros fuel v s Hq.
  destruct (cl_tick fuel v s Hq)
    as (pre & s' & Ht & Hqp & Hq' & Hreg & _ & Hpre & Hi0 & Hi1 & _).
  exists s'. split; [exact Ht |]. split; [exact Hq' |].
  intros i Hi.
  assert (Hin : cur pre (inputs i) = bit_of i v).
  { assert (C : i = 0%nat \/ i = 1%nat) by lia.
    destruct C as [-> | ->]; assumption. }
  assert (Hw : wrap 1 (bit_of i v) = bit_of i v).
  { unfold bit_of. destruct (Z.testbit v (Z.of_nat i)); reflexivity. }
  destruct (cl_edge_debouncer pre i Hi) as (Ec & Ep & Eo).
  unfold triple, Debouncer.step.
  rewrite !Hreg by discriminate. rewrite Ec, Ep, Eo, !Hqp, Hin, !Hw.
  rewrite !Hpre by (try discriminate; intros k; discriminate).
  reflexivity.
Qed.

Lemma cl_debouncer_simulate : forall fuel ins (s : Store sig),
  quiet s ->
  exists s',
    simulate sig_eq_dec width (S (S fuel)) signals classic_fsm clk
             (fsm_tb ins) s = Settled s' /\
    quiet s' /\
    forall i, (i < 2)%nat ->
      triple i s' =
      fold_left (fun r b => Debouncer.step debounce_time (wrap 1 b) r)
                (map (bit_of i) ins) (triple i s).
Proof.
  intros fuel ins. induction ins as [| v rest IH]; intros s Hq.
  - exists s. split; [reflexivity |]. split; [exact Hq |]. reflexivity.
  - destruct (cl_debouncer_tick fuel v s Hq) as (s1 & Ht & Hq1 & H1).
    destruct (IH s1 Hq1) as (s' & Hs & Hq' & H').
    exists s'. unfold fsm_tb. cbn [map simulate]. rewrite Ht.
    split; [exact Hs |]. split; [exact Hq' |].
    intros i Hi. rewrite (H' i Hi), (H1 i Hi). reflexivity.
Qed.

(** From power-up the debouncers inside the machine are where the
    stand-alone debouncer is after the same samples. *)
Lemma cl_debouncer_run : forall fuel ins,
  exists s,
    simulate_fsm (S (S fuel)) ins = Settled s /\
    quiet s /\
    forall i, (i < 2)%nat ->
      triple i s = Debouncer.regs_after debounce_time (map (bit_of i) ins).
Proof.
  intros fuel ins. unfold simulate_fsm, run.
  destruct (cl_settle fuel power_up) as (s0 & Hs0 & Hq0 & Hc0);
    [intros x; reflexivity |].
  rewrite Hs0.
  destruct (cl_debouncer_simulate fuel ins s0 Hq0) as (s & Hs & Hq & H).
  exists s. split; [exact Hs |]. split; [exact Hq |].
  intros i Hi. rewrite (H i Hi). unfold Debouncer.regs_after, triple.
  rewrite !Hc0. rewrite !round_frame by discriminate. reflexivity.
Qed.

Lemma cl_simulate_app : forall fuel tb1 tb2 (s : Store sig),
  simulate sig_eq_dec width fuel signals classic_fsm clk (tb1 ++ tb2) s =
  match simulate sig_eq_dec width fuel signals classic_fsm clk tb1 s with
  | Settled s1 => simulate sig_eq_dec width fuel signals classic_fsm clk tb2 s1
  | NoFixedPoint => NoFixedPoint
  end.
Proof.
  intros fuel tb1 tb2. induction tb1 as [| stim rest IH]; intros s.
  - reflexivity.
  - cbn [app simulate].
    destruct (tick sig_eq_dec width fuel signals classic_fsm clk stim s);
      [apply IH | reflexivity].
Qed.

Lemma cl_run_app : forall fuel ins1 ins2,
  simulate_fsm fuel (ins1 ++ ins2) =
  match simulate_fsm fuel ins1 with
  | Settled s1 =>
      simulate sig_eq_dec width fuel signals classic_fsm clk (fsm_tb ins2) s1
  | NoFixedPoint => NoFixedPoint
  end.
Proof.
  intros fuel ins1 ins2. unfold simulate_fsm, run, fsm_tb.
  rewrite map_app.
  destruct (settle sig_eq_dec width fuel signals classic_fsm power_up);
    [apply cl_simulate_app | reflexivity].
Qed.

(** The reset count of a run. *)
Lemma reset_count_run : forall fuel ins,
  exists s,
    simulate_fsm (S (S fuel)) ins = Settled s /\
    quiet s /\ cur s reset_cnt = Z.min (Z.of_nat (length ins)) 3.
Proof.
  intros fuel ins. unfold simulate_fsm, run.
  destruct (cl_settle fuel power_up) as (s0 & Hs0 & Hq0 & Hc0);
    [intros x; reflexivity |].
  rewrite Hs0.
  apply (reset_count_simulate fuel ins 0 s0 Hq0).
  rewrite Hc0, round_frame by discriminate. reflexivity.
Qed.

(** The machine with the forward button held and latched by its
    debouncer, in state [st] with [p] in [prev_inputs]. *)
Lemma held_tick : forall fuel (s : Store sig) (st : state) (o p : Z),
  quiet s -> cur s reset_cnt = 3 -> cur s fsm_state = encode st ->
  triple 0 s = (0, 1, o) -> triple 1 s = (0, 0, 0) ->
  cur s prev_inputs = p ->
  exists s',
    tick sig_eq_dec width (S (S fuel)) signals classic_fsm clk
         (bus_stimulus inputs len_inputs 1) s = Settled s' /\
    quiet s' /\ cur s' reset_cnt = 3 /\
    cur s' fsm_state =
      encode (advance st (wrap 2 (Z.land o (Z.lnot p mod 4)))) /\
    cur s' outputs =
      2 ^ encode (advance st (wrap 2 (Z.land o (Z.lnot p mod 4)))) /\
    triple 0 s' = (0, 1, 1) /\ triple 1 s' = (0, 0, 0) /\
    cur s' prev_inputs = wrap 2 o.
Proof.
  intros fuel s st o p Hq Hr Hst H0 H1 Hp.
  destruct (advance_tick fuel 1 s st Hq ltac:(lia) Hst)
    as (s' & Ht & Hq' & Hr' & Hst' & Hout' & Hp').
  destruct (cl_debouncer_tick fuel 1 s Hq) as (s2 & Ht2 & _ & Htr).
  rewrite Ht in Ht2. injection Ht2 as <-.
  assert (Hch : changes_of s = wrap 2 (Z.land o (Z.lnot p mod 4))).
  { unfold changes_of. cbn [bus_value len_inputs]. rewrite Hp.
    unfold triple in H0, H1.
    injection H0 as _ _ ->. injection H1 as _ _ ->.
    change (Z.of_nat 2) with 2. change (2 ^ 2) with 4.
    f_equal. f_equal. cbn. lia. }
  exists s'. split; [exact Ht |]. split; [exact Hq' |].
  split; [congruence |].
  split; [rewrite Hst', Hch; reflexivity |].
  split; [rewrite Hout', Hch; reflexivity |].
  split; [| split].
  - rewrite (Htr 0%nat) by lia. rewrite H0. reflexivity.
  - rewrite (Htr 1%nat) by lia. rewrite H1. reflexivity.
  - rewrite Hp'. cbn [bus_value len_inputs].
    unfold triple in H0, H1.
    injection H0 as _ _ ->. injection H1 as _ _ ->.
    f_equal. cbn. lia.
Qed.

(** Once the held button has moved the machine, it moves it no more. *)
Lemma held_simulate : forall fuel (m : nat) (s : Store sig) (st : state),
  quiet s -> cur s reset_cnt = 3 -> cur s fsm_state = encode st ->
  cur s outputs = 2 ^ encode st ->
  triple 0 s = (0, 1, 1) -> triple 1 s = (0, 0, 0) ->
  cur s prev_inputs = 1 ->
  exists s',
    simulate sig_eq_dec width (S (S fuel)) signals classic_fsm clk
             (fsm_tb (repeat 1 m)) s = Settled s' /\
    cur s' fsm_state = encode st /\ cur s' outputs = 2 ^ encode st.
Proof.
  intros fuel m. induction m as [| m IH]; intros s st Hq Hr Hst Hout H0 H1 Hp.
  - exists s. split; [reflexivity |]. split; assumption.
  - destruct (held_tick fuel s st 1 1 Hq Hr Hst H0 H1 Hp)
      as (s1 & Ht & Hq1 & Hr1 & Hst1 & Hout1 & H01 & H11 & Hp1).
    change (advance st (wrap 2 (Z.land 1 (Z.lnot 1 mod 4)))) with st
      in Hst1, Hout1.
    destruct (IH s1 st Hq1 Hr1 Hst1 Hout1 H01 H11 Hp1) as (s' & Hs & Hf).
    exists s'. unfold fsm_tb. cbn [repeat map simulate]. rewrite Ht.
    split; [exact Hs | exact Hf].
Qed.

(** The forward button held from power-up: after [debounce_time + 1]
    cycles the debouncer has counted down but not yet latched. *)
Lemma held_counted_down : forall fuel (m : nat),
  Z.of_nat m = debounce_time ->
  exists s,
    simulate_fsm (S (S fuel)) (repeat 1 (S m)) = Settled s /\
    quiet s /\ cur s reset_cnt = 3 /\ cur s fsm_state = encode A /\
    triple 0 s = (0, 1, 0) /\ triple 1 s = (0, 0, 0) /\
    cur s prev_inputs = 0.
Proof.
  intros fuel m Hm.
  assert (HT : 1 <= debounce_time) by (unfold debounce_time; lia).
  destruct (frozen_run fuel (repeat 1 (S m))) as (s & Hs & Hf).
  { rewrite repeat_length. lia. }
  destruct (reset_count_run fuel (repeat 1 (S m))) as (s1 & Hs1 & _ & Hr).
  rewrite Hs in Hs1. injection Hs1 as <-.
  destruct (cl_debouncer_run fuel (repeat 1 (S m))) as (s2 & Hs2 & _ & Htr).
  rewrite Hs in Hs2. injection Hs2 as <-.
  destruct Hf as (Hq & _ & _ & Hp & Hst & _).
  exists s. split; [exact Hs |]. split; [exact Hq |].
  split; [rewrite Hr, repeat_length; unfold debounce_time in Hm; lia |].
  split; [exact Hst |]. split; [| split; [| exact Hp]].
  - rewrite (Htr 0%nat) by lia. rewrite map_repeat.
    change (bit_of 0 1) with (Z.b2z true).
    unfold Debouncer.regs_after. cbn [repeat fold_left].
    rewrite DebouncerFacts.power_up_high by exact HT.
    rewrite (DebouncerFacts.steady_countdown debounce_time HT m true)
      by lia.
    replace (debounce_time - Z.of_nat m) with 0 by lia.
    reflexivity.
  - rewrite (Htr 1%nat) by lia. rewrite map_repeat.
    change (bit_of 1 1) with (Z.b2z false).
    apply DebouncerFacts.steady_low. exact HT.
Qed.

(** The forward button held from power-up: the machine leaves [A] for
    [B] at cycle [debounce_time + 3] and stays there. *)
Lemma held_forward_run : forall fuel (n : nat),
  exists s,
    simulate_fsm (S (S fuel)) (repeat 1 n) = Settled s /\
    cur s fsm_state
      = encode (if Z.of_nat n <=? debounce_time + 2 then A else B) /\
    cur s outputs
      = 2 ^ encode (if Z.of_nat n <=? debounce_time + 2 then A else B).
Proof.
  intros fuel n.
  destruct (Z.le_gt_cases (Z.of_nat n) (debounce_time + 1)) as [Hlow | Hhigh].
  { destruct (frozen_run fuel (repeat 1 n)) as (s & Hs & Hf).
    { rewrite repeat_length. exact Hlow. }
    destruct Hf as (_ & _ & _ & _ & Hst & Hout).
    exists s. split; [exact Hs |].
    destruct (Z.leb_spec (Z.of_nat n) (debounce_time + 2)) as [_ | Hc];
      [| lia].
    split; [exact Hst | exact Hout]. }
  assert (Hm : exists m : nat, Z.of_nat m = debounce_time).
  { exists (Z.to_nat debounce_time). unfold debounce_time. lia. }
  destruct Hm as (m & Hm).
  destruct (held_counted_down fuel m Hm)
    as (s0 & Hs0 & Hq0 & Hr0 & Hst0 & H00 & H10 & Hp0).
  destruct (held_tick fuel s0 A 0 0 Hq0 Hr0 Hst0 H00 H10 Hp0)
    as (s1 & Ht1 & Hq1 & Hr1 & Hst1 & Hout1 & H01 & H11 & Hp1).
  change (advance A (wrap 2 (Z.land 0 (Z.lnot 0 mod 4)))) with A
    in Hst1, Hout1.
  change (wrap 2 0) with 0 in Hp1.
  destruct (Z.leb_spec (Z.of_nat n) (debounce_time + 2)) as [Hle | Hgt].
  - exists s1. replace n with (S m + 1)%nat by lia.
    rewrite repeat_app, cl_run_app, Hs0.
    unfold fsm_tb. cbn [repeat map simulate]. rewrite Ht1.
    split; [reflexivity |]. split; [exact Hst1 | exact Hout1].
  - destruct (held_tick fuel s1 A 1 0 Hq1 Hr1 Hst1 H01 H11 Hp1)
      as (s2 & Ht2 & Hq2 & Hr2 & Hst2 & Hout2 & H02 & H12 & Hp2).
    change (advance A (wrap 2 (Z.land 1 (Z.lnot 0 mod 4)))) with B
      in Hst2, Hout2.
    change (wrap 2 1) with 1 in Hp2.
    destruct (held_simulate fuel (n - S m - 2) s2 B
                Hq2 Hr2 Hst2 Hout2 H02 H12 Hp2) as (s & Hs & Hst & Hout).
    exists s.
    replace n with (S m + (2 + (n - S m - 2)))%nat at 1 by lia.
    rewrite repeat_app, cl_run_app, Hs0.
    rewrite repeat_app. unfold fsm_tb. rewrite map_app, cl_simulate_app.
    cbn [repeat map simulate]. rewrite Ht1, Ht2.
    split; [exact Hs |]. split; [exact Hst | exact Hout].
Qed.

Lemma encode_onto : forall z, 0 <= z <= 3 -> exists st, z = encode st.
Proof.
  intros z Hz.
  assert (C : z = 0 \/ z = 1 \/ z = 2 \/ z = 3) by lia.
  destruct C as [-> | [-> | [-> | ->]]];
    [exists A | exists B | exists C | exists D]; reflexivity.
Qed.

(** The debounced inputs of a run are bits. *)
Lemma dbnc_bits_run : forall fuel ins (s : Store sig),
  simulate_fsm (S (S fuel)) ins = Settled s ->
  forall i, (i < 2)%nat ->
    cur s (dbnc_inputs i) = 0 \/ cur s (dbnc_inputs i) = 1.
Proof.
  intros fuel ins s Hs i Hi.
  destruct (cl_debouncer_run fuel ins) as (s0 & Hs0 & _ & Htr).
  rewrite Hs in Hs0. injection Hs0 as <-.
  specialize (Htr i Hi).
  replace (map (bit_of i) ins)
    with (map Z.b2z (map (fun v => Z.testbit v (Z.of_nat i)) ins)) in Htr
    by (rewrite map_map; reflexivity).
  destruct (DebouncerTraces.regs_shape debounce_time
              ltac:(unfold debounce_time; lia)
              (map (fun v => Z.testbit v (Z.of_nat i)) ins))
    as (c & pb & ob & E & _).
  rewrite E in Htr. unfold triple in Htr. injection Htr as _ _ ->.
  destruct ob; [right | left]; reflexivity.
Qed.

(** The forward button held from power-up, after [debounce_time + 2]
    cycles: the debouncer has latched, the machine has not moved yet and
    [detect_chg] shows the forward change. *)
Lemma held_forward_pending : forall fuel (n : nat),
  Z.of_nat n = debounce_time + 2 ->
  exists s,
    simulate_fsm (S (S fuel)) (repeat 1 n) = Settled s /\
    cur s fsm_state = encode A /\ changes_of s = 1.
Proof.
  intros fuel n Hn.
  assert (Hm : exists m : nat, Z.of_nat m = debounce_time).
  { exists (Z.to_nat debounce_time). unfold debounce_time. lia. }
  destruct Hm as (m & Hm).
  destruct (held_counted_down fuel m Hm)
    as (s0 & Hs0 & Hq0 & Hr0 & Hst0 & H00 & H10 & Hp0).
  destruct (held_tick fuel s0 A 0 0 Hq0 Hr0 Hst0 H00 H10 Hp0)
    as (s1 & Ht1 & Hq1 & Hr1 & Hst1 & Hout1 & H01 & H11 & Hp1).
  change (advance A (wrap 2 (Z.land 0 (Z.lnot 0 mod 4)))) with A in Hst1.
  change (wrap 2 0) with 0 in Hp1.
  exists s1. replace n with (S m + 1)%nat by lia.
  rewrite repeat_app, cl_run_app, Hs0.
  unfold fsm_tb. cbn [repeat map simulate]. rewrite Ht1.
  split; [reflexivity |]. split; [exact Hst1 |].
  unfold changes_of. cbn [bus_value len_inputs].
  unfold triple in H01, H11.
  injection H01 as _ _ E0. injection H11 as _ _ E1.
  rewrite E0, E1, Hp1. reflexivity.
Qed.

(** The forward button held from power-up: from cycle [debounce_time + 2]
    on its debouncer shows it, and the other debouncer shows nothing. *)
Lemma held_forward_latched : forall fuel (n : nat),
  debounce_time + 2 <= Z.of_nat n ->
  exists s,
    simulate_fsm (S (S fuel)) (repeat 1 n) = Settled s /\
    cur s (dbnc_inputs 0) = 1 /\ cur s (dbnc_inputs 1) = 0.
Proof.
  intros fuel n Hn.
  assert (HT : 1 <= debounce_time) by (unfold debounce_time; lia).
  destruct (cl_debouncer_run fuel (repeat 1 n)) as (s & Hs & _ & Htr).
  exists s. split; [exact Hs |].
  pose proof (Htr 0%nat ltac:(lia)) as H0.
  pose proof (Htr 1%nat ltac:(lia)) as H1.
  rewrite map_repeat in H0, H1.
  change (bit_of 0 1) with (Z.b2z true) in H0.
  change (bit_of 1 1) with (Z.b2z false) in H1.
  unfold triple in H0, H1. split.
  - pose proof (DebouncerFacts.steady_from_power_up debounce_time HT true n Hn)
      as E.
    rewrite <- H0 in E. exact E.
  - unfold Debouncer.regs_after in H1.
    rewrite (DebouncerFacts.steady_low debounce_time HT n) in H1.
    injection H1 as _ _ E. exact E.
Qed.

End ClassicRuns.

(* ===================================================================== *)
(** * The register, for any length                                       *)
(* ===================================================================== *)

Module RegisterFacts.
Import Kernel KernelFacts Blinker Blinker.RegBench.

(** What the flip-flop of bit [k] does at the edge. *)
Local Notation "'load'" :=
  (fun k : nat => bind (get (d k)) (fun v => set (q k) v)) (only parsing).

(** The blocks of a register all fire on the rising edge of its clock. *)
Lemma register_bodies : forall ks : list nat,
  edge_bodies sig_eq_dec
    (flat_map (fun k => dff clk (d k) (q k)) ks) clk Rising
  = map load ks.
Proof.
  induction ks as [| k ks IH]; [reflexivity |].
  unfold edge_bodies in *. cbn [flat_map dff app filter].
  unfold fires_on at 1. cbn [trigger].
  destruct (sig_eq_dec clk clk) as [_ | Hne]; [| contradiction].
  cbn [Polarity_eqb map body]. f_equal. exact IH.
Qed.

(** The loads of a list of bits leave in the next slot of every listed
    bit of [q] the value [d] had before any of them ran. *)
Lemma loads_nxt : forall (ks : list nat) (s : Store sig) (j : nat),
  nxt (run_blocks sig_eq_dec width (map load ks) s) (q j) =
  (if in_dec Nat.eq_dec j ks then wrap 1 (cur s (d j)) else nxt s (q j)).
Proof.
  induction ks as [| k ks IH]; intros s j; [reflexivity |].
  cbn [map run_blocks]. rewrite IH.
  destruct (in_dec Nat.eq_dec j ks) as [Hin | Hout];
    destruct (in_dec Nat.eq_dec j (k :: ks)) as [Hin' | Hout'].
  - reflexivity.
  - destruct Hout'. right. exact Hin.
  - destruct Hin' as [-> | Hin']; [| contradiction].
    cbn -[sig_eq_dec].
    destruct (sig_eq_dec (q j) (q j)); [reflexivity | contradiction].
  - cbn -[sig_eq_dec].
    destruct (sig_eq_dec (q j) (q k)) as [E | _]; [| reflexivity].
    injection E as ->. destruct Hout'. left. reflexivity.
Qed.

Lemma loads_frame : forall (ks : list nat) (s : Store sig) (x : sig),
  (forall j, x <> q j) ->
  nxt (run_blocks sig_eq_dec width (map load ks) s) x = nxt s x.
Proof.
  induction ks as [| k ks IH]; intros s x Hx; [reflexivity |].
  cbn [map run_blocks]. rewrite IH by exact Hx. cbn -[sig_eq_dec].
  destruct (sig_eq_dec x (q k)) as [E | _]; [destruct (Hx k E) | reflexivity].
Qed.

(** A rising edge on a register of any length. *)
Lemma register_edge : forall (len : nat) (s : Store sig) (j : nat),
  cur (clock_edge sig_eq_dec width (design len) clk Rising s) (q j) =
  (if (j <? len)%nat then wrap 1 (cur s (d j)) else nxt s (q j)).
Proof.
  intros len s j. unfold clock_edge, design, register.
  rewrite register_bodies. cbn [commit cur]. rewrite loads_nxt.
  destruct (in_dec Nat.eq_dec j (seq 0 len)) as [Hin | Hout];
    destruct (Nat.ltb_spec j len) as [Hlt | Hge]; try reflexivity.
  - apply in_seq in Hin. lia.
  - exfalso. apply Hout. apply in_seq. lia.
Qed.

Lemma register_edge_frame : forall (len : nat) (s : Store sig) (x : sig),
  (forall j, x <> q j) ->
  cur (clock_edge sig_eq_dec width (design len) clk Rising s) x = nxt s x.
Proof.
  intros len s x Hx. unfold clock_edge, design, register.
  rewrite register_bodies. cbn [commit cur]. apply loads_frame. exact Hx.
Qed.

(** The bus [q] after the edge reads what the bus [d] read before it. *)
Lemma register_edge_bus : forall (len m : nat) (s : Store sig),
  (m <= len)%nat ->
  (forall k, (k < len)%nat -> cur s (d k) = 0 \/ cur s (d k) = 1) ->
  bus_value q m (clock_edge sig_eq_dec width (design len) clk Rising s)
  = bus_value d m s.
Proof.
  intros len m s Hm Hbits. induction m as [| m IH]; [reflexivity |].
  cbn [bus_value]. rewrite IH by lia. rewrite register_edge.
  destruct (Nat.ltb_spec m len) as [Hlt | Hge]; [| lia].
  destruct (Hbits m Hlt) as [-> | ->]; reflexivity.
Qed.

End RegisterFacts.

(* ===================================================================== *)
(** * Further properties of the circuits                                 *)
(* ===================================================================== *)

Module Extras.
Import Kernel KernelFacts.

(** X1.  Debouncer, threshold [1 <= T < 2 ^ 48] (the range in which the
    counter of the source has the width [cnt_width T]), from power-up and
    for every sequence of button samples: if a clock cycle changes [button_o] to
    the level [v], then the [T + 1] samples before that cycle's sample
    were all [v]. *)
Theorem debouncer_changes_only_after_stable :
  forall (T : Z) (fuel : nat) (bs : list bool) (b v : bool),
    1 <= T < 2 ^ 48 ->
    probe Fsm.Debouncer.button_o
          (Fsm.Debouncer.simulate_buttons T (S fuel) (map Z.b2z (bs ++ [b])))
      = Some (Z.b2z v) ->
    probe Fsm.Debouncer.button_o
          (Fsm.Debouncer.simulate_buttons T (S fuel) (map Z.b2z bs))
      <> Some (Z.b2z v) ->
    exists pre, bs = pre ++ repeat v (S (Z.to_nat T)).
Proof.
  intros T fuel bs b v [HT _] Hnew Hold.
  rewrite DebouncerFacts.probe_button_o in Hnew, Hold.
  apply (DebouncerTraces.output_moves_after_stable T HT bs b v).
  - congruence.
  - intros E. apply Hold. rewrite E. reflexivity.
Qed.

(** Threshold 2: the button goes high and stays; the fourth cycle raises
    the output, and the three samples before it were high. *)
Lemma debouncer_changes_only_after_stable_witness :
  exists pre, [true; true; true] = pre ++ repeat true 3.
Proof.
  apply (debouncer_changes_only_after_stable 2 0 [true; true; true] true true).
  - cbn. lia.
  - vm_compute. reflexivity.
  - vm_compute. discriminate.
Defined.

(** X2.  Debouncer, threshold [T >= 1]: after any sequence of samples,
    [T + 2] or more further samples of one level [v] leave [button_o] at
    [v]. *)
Theorem debouncer_follows_stable_input :
  forall (T : Z) (fuel : nat) (bs : list bool) (v : bool) (m : nat),
    1 <= T ->
    probe Fsm.Debouncer.button_o
          (Fsm.Debouncer.simulate_buttons T (S fuel)
             (map Z.b2z (bs ++ repeat v (Z.to_nat T + 2 + m))))
      = Some (Z.b2z v).
Proof.
  intros T fuel bs v m HT. rewrite DebouncerFacts.probe_button_o. f_equal.
  apply DebouncerTraces.output_follows_stable. exact HT.
Qed.

(** Threshold 2, button bounced high-low-high and then held low for four
    cycles. *)
Lemma debouncer_follows_stable_input_witness :
  probe Fsm.Debouncer.button_o
        (Fsm.Debouncer.simulate_buttons 2 1
           (map Z.b2z ([true; false; true] ++ repeat false 4)))
    = Some 0.
Proof.
  apply (debouncer_follows_stable_input 2 0 [true; false; true] false 0).
  lia.
Defined.

(** X3.  Debouncer, threshold [1 <= T < 2 ^ 48] (the range in which the
    counter of the source has the width [cnt_width T]): for every
    sequence of samples the run settles, the countdown register stays between 0 and [T], below
    the capacity of its bus, and the other two registers hold bits. *)
Theorem debouncer_registers_in_range :
  forall (T : Z) (fuel : nat) (bs : list bool),
    1 <= T < 2 ^ 48 ->
    exists s,
      Fsm.Debouncer.simulate_buttons T (S fuel) (map Z.b2z bs) = Settled s /\
      0 <= cur s Fsm.Debouncer.dbcnt <= T /\
      cur s Fsm.Debouncer.dbcnt < 2 ^ Fsm.Debouncer.cnt_width T /\
      (cur s Fsm.Debouncer.prev_button = 0 \/
       cur s Fsm.Debouncer.prev_button = 1) /\
      (cur s Fsm.Debouncer.button_o = 0 \/ cur s Fsm.Debouncer.button_o = 1).
Proof.
  intros T fuel bs [HT _].
  destruct (DebouncerFacts.run_view T fuel (map Z.b2z bs)) as (s & Hs & Hv).
  destruct (DebouncerTraces.regs_shape T HT bs) as (c & pb & ob & E & Hc & _).
  rewrite E in Hv. unfold Fsm.Debouncer.view in Hv.
  injection Hv as Hcnt Hp Ho.
  exists s. split; [exact Hs |]. rewrite Hcnt, Hp, Ho.
  pose proof (DebouncerFacts.cnt_fits T HT).
  repeat split; try lia; [destruct pb | destruct ob]; cbn; tauto.
Qed.

(** Threshold 5 and a few samples. *)
Lemma debouncer_registers_in_range_witness :
  exists s,
    Fsm.Debouncer.simulate_buttons 5 1 (map Z.b2z [true; false; false])
      = Settled s /\
    0 <= cur s Fsm.Debouncer.dbcnt <= 5 /\
    cur s Fsm.Debouncer.dbcnt < 2 ^ Fsm.Debouncer.cnt_width 5 /\
    (cur s Fsm.Debouncer.prev_button = 0 \/
     cur s Fsm.Debouncer.prev_button = 1) /\
    (cur s Fsm.Debouncer.button_o = 0 \/ cur s Fsm.Debouncer.button_o = 1).
Proof.
  apply (debouncer_registers_in_range 5 0 [true; false; false]). cbn. lia.
Defined.

(** X4.  The sampling pulse generator for a frequency quotient
    [2 <= ratio <= 2 ^ 48] (the range in which the source computes this
    rollover and counter width), from power-up: after [n] rising edges the counter reads
    [n mod ratio], and [do_sample_o] is 1 exactly when [n] is a positive
    multiple of [ratio]; so the pulses last one cycle and are [ratio]
    cycles apart. *)
Theorem sample_pulse_every_ratio_cycles :
  forall (ratio : Z) (fuel n : nat),
    2 <= ratio <= 2 ^ 48 ->
    probe BlockRam.Sampler.cntr (BlockRam.Sampler.clk_sim ratio (S fuel) n)
      = Some (Z.of_nat n mod ratio) /\
    probe BlockRam.Sampler.do_sample_o
          (BlockRam.Sampler.clk_sim ratio (S fuel) n)
      = Some (if (0 <? Z.of_nat n) && (Z.of_nat n mod ratio =? 0)
              then 1 else 0).
Proof.
  intros ratio fuel n [Hr _].
  destruct (SamplerFacts.sampler_run_view ratio fuel n) as (s & Hs & Hv).
  rewrite Hs. cbn [probe]. unfold BlockRam.Sampler.view in Hv.
  destruct n as [| n].
  - cbn in Hv. injection Hv as -> ->. rewrite Zmod_0_l. split; reflexivity.
  - rewrite (SamplerFacts.sampler_iter_count ratio Hr n) in Hv.
    injection Hv as -> ->.
    replace (0 <? Z.of_nat (S n)) with true by (symmetry; apply Z.ltb_lt; lia).
    split; reflexivity.
Qed.

(** Quotient 5: a pulse after the tenth edge, none after the eleventh. *)
Lemma sample_pulse_every_ratio_cycles_witness :
  probe BlockRam.Sampler.do_sample_o (BlockRam.Sampler.clk_sim 5 1 10)
    = Some 1 /\
  probe BlockRam.Sampler.do_sample_o (BlockRam.Sampler.clk_sim 5 1 11)
    = Some 0 /\
  probe BlockRam.Sampler.cntr (BlockRam.Sampler.clk_sim 5 1 11) = Some 1.
Proof.
  split; [| split].
  - apply (sample_pulse_every_ratio_cycles 5 0 10). cbn. lia.
  - apply (sample_pulse_every_ratio_cycles 5 0 11). cbn. lia.
  - apply (sample_pulse_every_ratio_cycles 5 0 11). cbn. lia.
Defined.

(** X5.  The simple PWM with a counter of [len >= 0] bits and the value
    [th] on its threshold bus, from power-up: every instant settles within
    two rounds; after [n] rising edges the counter reads [n mod 2^len] and
    [pwm_o] is 1 exactly when that count is below [th]. *)
Theorem pwm_output_compares_count :
  forall (len th : Z) (fuel n : nat),
    0 <= len ->
    probe Pwm.Simple.cnt (Pwm.Simple.clk_sim len (S (S fuel)) th n)
      = Some (Z.of_nat n mod 2 ^ len) /\
    probe Pwm.Simple.pwm_o (Pwm.Simple.clk_sim len (S (S fuel)) th n)
      = Some (Z.b2z (Z.of_nat n mod 2 ^ len <? th)).
Proof.
  intros len th fuel n Hlen.
  destruct (PwmSimpleFacts.pwm_run len Hlen fuel th n)
    as (s & Hs & _ & Hc & _ & Ho).
  rewrite Hs. cbn [probe]. rewrite Hc, Ho. split; reflexivity.
Qed.

(** Four bits, threshold 3: high after 16 edges (count 0), low after 19
    (count 3). *)
Lemma pwm_output_compares_count_witness :
  probe Pwm.Simple.pwm_o (Pwm.Simple.clk_sim 4 2 3 16) = Some 1 /\
  probe Pwm.Simple.pwm_o (Pwm.Simple.clk_sim 4 2 3 19) = Some 0.
Proof.
  split.
  - apply (pwm_output_compares_count 4 3 0 16). lia.
  - apply (pwm_output_compares_count 4 3 0 19). lia.
Defined.

(** X6.  The simple PWM with [len >= 0] counter bits and a threshold [th]
    that its [len]-bit bus can carry, [0 <= th < 2^len]: among the
    [2^len] instants of one counter period (after 0, 1, ...,
    [2^len - 1] edges) the output is high at exactly [th] of them.  The
    output is therefore low at one instant of every period at least: a
    duty cycle of 100% cannot be set. *)
Theorem pwm_duty_cycle :
  forall (len th : Z) (fuel : nat),
    0 <= len -> 0 <= th < 2 ^ len ->
    Pwm.Simple.high_cycles len (S (S fuel)) th (Z.to_nat (2 ^ len))
      = Z.to_nat th.
Proof.
  intros len th fuel Hlen Hth.
  assert (HM : 0 < 2 ^ len) by (apply Z.pow_pos_nonneg; lia).
  unfold Pwm.Simple.high_cycles.
  rewrite (filter_ext_in _ (fun k => Z.of_nat k <? th)).
  - apply PwmSimpleFacts.count_below. lia.
  - intros k Hk. apply in_seq in Hk. unfold Pwm.Simple.is_high.
    destruct (PwmSimpleFacts.pwm_run len Hlen fuel th k)
      as (s & Hs & _ & _ & _ & Ho).
    rewrite Hs. cbn [probe]. rewrite Ho, Z.mod_small by lia.
    destruct (Z.of_nat k <? th); reflexivity.
Qed.

(** Four bits, threshold 5: high at 5 of the 16 instants. *)
Lemma pwm_duty_cycle_witness :
  Pwm.Simple.high_cycles 4 2 5 16 = 5%nat.
Proof.
  apply (pwm_duty_cycle 4 5 0).
  - lia.
  - cbn. lia.
Defined.

(** X7.  The dual-port RAM behaves as a map with a one-cycle read: for
    every sequence of bench cycles with requests inside the bus widths,
    started on a store with nothing pending and data-width contents, the
    run settles; each location then holds the data of the last write
    request to its address (its initial value if there was none), and
    [data_o] holds what the location at the last read address held before
    the last cycle. *)
Theorem dualport_ram_follows_map :
  forall (aw dw : Z) (fuel : nat) (ops : list (Z * Z * Z * Z))
         (s : Store BlockRam.Bench.sig),
    Forall (BlockRam.Bench.op_in_range aw dw) ops ->
    quiet s ->
    (forall k, 0 <= cur s (BlockRam.Bench.mem k) < 2 ^ dw) ->
    exists s',
      BlockRam.Bench.dual_bench aw dw (S fuel) ops s = Settled s' /\
      (forall k,
          cur s' (BlockRam.Bench.mem k)
          = fst (fold_left BlockRam.Bench.dual_step ops
                           (BlockRam.Bench.contents s)) k) /\
      cur s' BlockRam.Bench.data_o
        = snd (fold_left BlockRam.Bench.dual_step ops
                         (BlockRam.Bench.contents s)).
Proof.
  intros aw dw fuel ops s Hops Hq Hrange.
  apply RamModel.dual_bench_model; assumption.
Qed.

(** The first five cycles of [ram_test_bench] on the empty 8-bit RAM:
    cycle [i] writes [3 i + 1] to address [i] and reads address [i - 3].
    The fifth cycle reads the 4 written to address 1. *)
Lemma dualport_ram_follows_map_witness :
  exists s',
    BlockRam.Bench.dual_bench 8 8 1
      [(1, 0, 1, 253); (1, 1, 4, 254); (1, 2, 7, 255); (1, 3, 10, 0);
       (1, 4, 13, 1)]
      (mkStore (fun _ => 0) (fun _ => 0)) = Settled s' /\
    cur s' (BlockRam.Bench.mem 4) = 13 /\
    cur s' BlockRam.Bench.data_o = 4.
Proof.
  destruct (dualport_ram_follows_map 8 8 0
              [(1, 0, 1, 253); (1, 1, 4, 254); (1, 2, 7, 255); (1, 3, 10, 0);
               (1, 4, 13, 1)]
              (mkStore (fun _ => 0) (fun _ => 0)))
    as (s' & Hs & Hm & Ho).
  - repeat constructor; cbn; lia.
  - intros x. reflexivity.
  - intros k. cbn. lia.
  - exists s'. split; [exact Hs |]. split.
    + rewrite Hm. reflexivity.
    + rewrite Ho. reflexivity.
Defined.

(** X8.  The single-port RAM over any sequence of in-range bench cycles,
    started on a store with nothing pending and data-width contents: the
    run settles and the memory follows the same map; a write cycle leaves
    [data_o] as it was, and a read cycle puts the addressed location on
    it, so [data_o] always shows the result of the last read cycle. *)
Theorem singleport_ram_follows_map :
  forall (aw dw : Z) (fuel : nat) (ops : list (Z * Z * Z))
         (s : Store BlockRam.Bench.sig),
    Forall (BlockRam.Bench.single_op_in_range aw dw) ops ->
    quiet s ->
    (forall k, 0 <= cur s (BlockRam.Bench.mem k) < 2 ^ dw) ->
    exists s',
      BlockRam.Bench.single_bench aw dw (S fuel) ops s = Settled s' /\
      (forall k,
          cur s' (BlockRam.Bench.mem k)
          = fst (fold_left BlockRam.Bench.single_step ops
                           (BlockRam.Bench.contents s)) k) /\
      cur s' BlockRam.Bench.data_o
        = snd (fold_left BlockRam.Bench.single_step ops
                         (BlockRam.Bench.contents s)).
Proof.
  intros aw dw fuel ops s Hops Hq Hrange.
  apply RamModel.single_bench_model; assumption.
Qed.

(** Write 7 to address 2, read it, then write 9 to the same address:
    the location holds 9 and [data_o] still shows the 7 that was read. *)
Lemma singleport_ram_follows_map_witness :
  exists s',
    BlockRam.Bench.single_bench 8 8 1 [(1, 2, 7); (0, 2, 0); (1, 2, 9)]
      (mkStore (fun _ => 0) (fun _ => 0)) = Settled s' /\
    cur s' (BlockRam.Bench.mem 2) = 9 /\
    cur s' BlockRam.Bench.data_o = 7.
Proof.
  destruct (singleport_ram_follows_map 8 8 0 [(1, 2, 7); (0, 2, 0); (1, 2, 9)]
              (mkStore (fun _ => 0) (fun _ => 0)))
    as (s' & Hs & Hm & Ho).
  - repeat constructor; cbn; lia.
  - intros x. reflexivity.
  - intros k. cbn. lia.
  - exists s'. split; [exact Hs |]. split.
    + rewrite Hm. reflexivity.
    + rewrite Ho. reflexivity.
Defined.

(** X9.  The record/playback controller, from power-up and for every
    sequence of button levels: the run settles, the three-bit state
    register holds one of the five declared states (0 to 4, never 5, 6
    or 7), and the RAM write request is 0 or 1. *)
Theorem record_play_state_in_range :
  forall (fuel : nat) (buttons : list (bool * bool)),
    exists s,
      BlockRam.RecordPlay.simulate_buttons (S fuel) buttons = Settled s /\
      BlockRam.INIT <= cur s BlockRam.RecordPlay.state <= BlockRam.PLAYING /\
      (cur s BlockRam.RecordPlay.wr = 0 \/ cur s BlockRam.RecordPlay.wr = 1).
Proof.
  intros fuel buttons. unfold BlockRam.RecordPlay.simulate_buttons, run.
  change BlockRam.RecordPlay.power_up
    with (commit BlockRam.RecordPlay.power_up).
  rewrite settle_seq_only by apply RecordPlayFacts.rp_seq_only.
  destruct (RecordPlayFacts.rp_simulate_range fuel buttons
              (commit BlockRam.RecordPlay.power_up))
    as (s & Hs & _ & Hst & Hw).
  - intros x. reflexivity.
  - cbn. lia.
  - left. reflexivity.
  - exists s. split; [exact Hs |]. split; [exact Hst | exact Hw].
Qed.

(** X10.  The record/playback controller, one clock cycle from any store
    with nothing pending: if the write request was 0 before the cycle,
    every RAM location keeps its value; and the write request is 1 after
    the cycle only if, before it, the reset was released, the sampling
    pulse was present and the controller was in [RECORDING], or in
    [WAITING_TO_RECORD] with button A released in this cycle. *)
Theorem record_play_writes_only_when_recording :
  forall (fuel : nat) (a b : bool) (s : Store BlockRam.RecordPlay.sig),
    quiet s ->
    exists s',
      tick BlockRam.RecordPlay.sig_eq_dec BlockRam.RecordPlay.width (S fuel)
           BlockRam.RecordPlay.signals BlockRam.RecordPlay.design
           BlockRam.RecordPlay.clk
           [(BlockRam.RecordPlay.button_a, Z.b2z a);
            (BlockRam.RecordPlay.button_b, Z.b2z b)] s = Settled s' /\
      (cur s BlockRam.RecordPlay.wr = 0 ->
       forall k, cur s' (BlockRam.RecordPlay.mem k)
                 = cur s (BlockRam.RecordPlay.mem k)) /\
      (cur s' BlockRam.RecordPlay.wr = 1 ->
       cur s BlockRam.RecordPlay.reset = 0 /\
       cur s BlockRam.RecordPlay.do_sample <> 0 /\
       (cur s BlockRam.RecordPlay.state = BlockRam.RECORDING \/
        (cur s BlockRam.RecordPlay.state = BlockRam.WAITING_TO_RECORD /\
         a = false))).
Proof.
  intros fuel a b s Hq.
  destruct (RecordPlayFacts.rp_tick fuel a b s Hq)
    as (pre & Ht & Hqp & Ha & _ & Hsame).
  eexists. split; [exact Ht |]. split.
  - intros Hw k.
    rewrite RecordPlayFacts.rp_edge_mem_frame
      by (rewrite Hsame by discriminate; exact Hw).
    rewrite Hqp. apply Hsame; discriminate.
  - intros Hw.
    destruct (RecordPlayFacts.rp_edge_wr pre) as (_ & H).
    destruct (H Hw) as (Hr & Hd & Hst).
    rewrite !Hsame in Hr, Hd, Hst by discriminate.
    split; [exact Hr |]. split; [exact Hd |].
    destruct Hst as [Hst | (Hst & Hba)]; [left; exact Hst |].
    right. split; [exact Hst |].
    rewrite Ha in Hba. destruct a; [discriminate Hba | reflexivity].
Qed.

(** A store in [RECORDING] with the sampling pulse present, the reset
    released, no write requested and a 1 stored at address 3; button B
    is pressed in the cycle.  The cycle requests a write, and the
    location keeps its 1. *)
Lemma record_play_writes_only_when_recording_witness :
  let s :=
    mkStore
      (fun x => match x with
                | BlockRam.RecordPlay.state => BlockRam.RECORDING
                | BlockRam.RecordPlay.do_sample => 1
                | BlockRam.RecordPlay.mem 3 => 1
                | _ => 0
                end)
      (fun x => match x with
                | BlockRam.RecordPlay.state => BlockRam.RECORDING
                | BlockRam.RecordPlay.do_sample => 1
                | BlockRam.RecordPlay.mem 3 => 1
                | _ => 0
                end) in
  exists s',
    tick BlockRam.RecordPlay.sig_eq_dec BlockRam.RecordPlay.width 1
         BlockRam.RecordPlay.signals BlockRam.RecordPlay.design
         BlockRam.RecordPlay.clk
         [(BlockRam.RecordPlay.button_a, Z.b2z false);
          (BlockRam.RecordPlay.button_b, Z.b2z true)] s = Settled s' /\
    cur s' BlockRam.RecordPlay.wr = 1 /\
    cur s' BlockRam.RecordPlay.data_i = 1 /\
    cur s' (BlockRam.RecordPlay.mem 3) = 1 /\
    cur s BlockRam.RecordPlay.reset = 0 /\
    cur s BlockRam.RecordPlay.do_sample <> 0 /\
    (cur s BlockRam.RecordPlay.state = BlockRam.RECORDING \/
     (cur s BlockRam.RecordPlay.state = BlockRam.WAITING_TO_RECORD /\
      false = false)).
Proof.
  intros s.
  destruct (record_play_writes_only_when_recording 0 false true s)
    as (s' & Ht & Hmem & Hwr).
  - intros x. reflexivity.
  - assert (Hw : cur s' BlockRam.RecordPlay.wr = 1 /\
                 cur s' BlockRam.RecordPlay.data_i = 1).
    { assert (E : Settled s'
                  = tick BlockRam.RecordPlay.sig_eq_dec
                         BlockRam.RecordPlay.width 1
                         BlockRam.RecordPlay.signals BlockRam.RecordPlay.design
                         BlockRam.RecordPlay.clk
                         [(BlockRam.RecordPlay.button_a, Z.b2z false);
                          (BlockRam.RecordPlay.button_b, Z.b2z true)] s)
        by (symmetry; exact Ht).
      vm_compute in E. injection E as ->. split; reflexivity. }
    destruct Hw as (Hw & Hd).
    exists s'. split; [exact Ht |]. split; [exact Hw |]. split; [exact Hd |].
    split; [rewrite (Hmem eq_refl 3); reflexivity |].
    exact (Hwr Hw).
Defined.

(** X11.  The record/playback controller with the default frequencies,
    from power-up and whatever the buttons do: during the first 120000
    clock cycles the controller stays in [INIT] with the LEDs dark and no
    write request; the cycle after that, the first one to see a sampling
    pulse, lights the LED pattern 0b10101 and moves to
    [WAITING_TO_RECORD] exactly when button A is pressed in it. *)
Theorem record_play_wakes_after_first_period :
  forall (fuel : nat) (buttons : list (bool * bool)) (a b : bool),
    (Z.of_nat (length buttons) <= BlockRam.RecordPlay.ratio ->
     exists s,
       BlockRam.RecordPlay.simulate_buttons (S fuel) buttons = Settled s /\
       cur s BlockRam.RecordPlay.state = BlockRam.INIT /\
       cur s BlockRam.RecordPlay.leds_o = 0 /\
       cur s BlockRam.RecordPlay.wr = 0) /\
    (Z.of_nat (length buttons) = BlockRam.RecordPlay.ratio ->
     exists s,
       BlockRam.RecordPlay.simulate_buttons (S fuel) (buttons ++ [(a, b)])
         = Settled s /\
       cur s BlockRam.RecordPlay.leds_o = 21 /\
       cur s BlockRam.RecordPlay.state
         = (if a then BlockRam.WAITING_TO_RECORD else BlockRam.INIT)).
Proof.
  intros fuel buttons a b. split.
  - intros Hlen.
    destruct (RecordPlayFacts.dormant_run fuel buttons Hlen)
      as (s & Hs & _ & _ & _ & Hst & Hl & Hw).
    exists s. repeat split; assumption.
  - intros Hlen.
    assert (Hrun : exists s0,
               simulate BlockRam.RecordPlay.sig_eq_dec BlockRam.RecordPlay.width
                        (S fuel) BlockRam.RecordPlay.signals
                        BlockRam.RecordPlay.design BlockRam.RecordPlay.clk
                        (BlockRam.RecordPlay.bench buttons)
                        (commit BlockRam.RecordPlay.power_up) = Settled s0 /\
               BlockRam.RecordPlay.dormant (0 + length buttons) s0).
    { apply RecordPlayFacts.dormant_simulate;
        [lia | apply RecordPlayFacts.dormant_power_up]. }
    destruct Hrun as (s0 & Hs0 & Hd0).
    replace (0 + length buttons)%nat with (Z.to_nat BlockRam.RecordPlay.ratio)
      in Hd0 by lia.
    destruct (RecordPlayFacts.wake_tick fuel a b s0 Hd0) as (s & Ht & Hl & Hst).
    exists s. split.
    + unfold BlockRam.RecordPlay.simulate_buttons, run.
      change BlockRam.RecordPlay.power_up
        with (commit BlockRam.RecordPlay.power_up).
      rewrite settle_seq_only by apply RecordPlayFacts.rp_seq_only.
      unfold BlockRam.RecordPlay.bench. rewrite map_app.
      rewrite RecordPlayFacts.rp_simulate_app.
      fold (BlockRam.RecordPlay.bench buttons). rewrite Hs0.
      cbn [map simulate fst snd]. rewrite Ht. reflexivity.
    + split; [exact Hl |]. rewrite Hst. destruct a; reflexivity.
Qed.

(** Buttons pressed from the start: nothing after three cycles. *)
Lemma record_play_wakes_after_first_period_witness :
  exists s,
    BlockRam.RecordPlay.simulate_buttons 1 (repeat (true, true) 3)
      = Settled s /\
    cur s BlockRam.RecordPlay.state = BlockRam.INIT /\
    cur s BlockRam.RecordPlay.leds_o = 0 /\
    cur s BlockRam.RecordPlay.wr = 0.
Proof.
  apply (record_play_wakes_after_first_period 0 (repeat (true, true) 3)
           true true).
  cbn. unfold BlockRam.RecordPlay.ratio. lia.
Defined.

(** X12.  The four-state machine with its two debouncers of 120000
    cycles, from power-up: for every sequence of at most 120001 input
    values the run settles in state [A] with [outputs = 0b0001], and both
    debounced inputs are still 0.  The 22 cycles that [fsm_tb] plays are
    far inside that window. *)
Theorem fsm_stays_in_A_while_debouncing :
  forall (fuel : nat) (ins : list Z),
    Z.of_nat (length ins) <= Fsm.Classic.debounce_time + 1 ->
    exists s,
      Fsm.Classic.simulate_fsm (S (S fuel)) ins = Settled s /\
      cur s Fsm.Classic.fsm_state = Fsm.Classic.encode Fsm.Classic.A /\
      cur s Fsm.Classic.outputs = 1 /\
      cur s (Fsm.Classic.dbnc_inputs 0) = 0 /\
      cur s (Fsm.Classic.dbnc_inputs 1) = 0.
Proof.
  intros fuel ins Hlen.
  destruct (ClassicRuns.frozen_run fuel ins Hlen)
    as (s & Hs & _ & H0 & H1 & _ & Hst & Hout).
  exists s. split; [exact Hs |]. split; [exact Hst |]. split; [exact Hout |].
  split; [apply H0 | apply H1].
Qed.

(** The inputs of [fsm_tb]: four idle cycles, three forward, three
    backward, then the interspersed sequence. *)
Lemma fsm_stays_in_A_while_debouncing_witness :
  exists s,
    Fsm.Classic.simulate_fsm 2
      ([0; 0; 0; 0; 1; 1; 1; 2; 2; 2]
       ++ [1; 0; 1; 0; 1; 0; 2; 0; 2; 0; 2; 0]) = Settled s /\
    cur s Fsm.Classic.fsm_state = Fsm.Classic.encode Fsm.Classic.A /\
    cur s Fsm.Classic.outputs = 1 /\
    cur s (Fsm.Classic.dbnc_inputs 0) = 0 /\
    cur s (Fsm.Classic.dbnc_inputs 1) = 0.
Proof.
  apply (fsm_stays_in_A_while_debouncing 0).
  cbn [length app]. unfold Fsm.Classic.debounce_time. lia.
Defined.

(** X13.  The reset counter of the four-state machine, from power-up and
    for every input sequence: after [n] cycles it holds [min n 3]; it
    counts the first three cycles and then stays at its top value, so the
    machine never falls back into reset. *)
Theorem fsm_reset_count_saturates :
  forall (fuel : nat) (ins : list Z),
    exists s,
      Fsm.Classic.simulate_fsm (S (S fuel)) ins = Settled s /\
      cur s Fsm.Classic.reset_cnt = Z.min (Z.of_nat (length ins)) 3.
Proof.
  intros fuel ins.
  destruct (ClassicRuns.reset_count_run fuel ins) as (s & Hs & _ & Hr).
  exists s. split; [exact Hs | exact Hr].
Qed.

(** X14.  The four-state machine after at least three cycles: one more
    cycle takes the state [st] to [advance st chgs], where [chgs] is what
    [detect_chg] shows before the cycle (debounced inputs and not
    previous inputs).  Bit 0 of the changes moves A->B->C->D->A; bit 1
    moves the other way and only when bit 0 is clear; with neither the
    state stays.  [outputs] shows the new state one-hot. *)
Theorem fsm_moves_by_input_changes :
  forall (fuel : nat) (ins : list Z) (v : Z),
    (3 <= length ins)%nat ->
    exists (s s' : Store Fsm.Classic.sig) (st : Fsm.Classic.state),
      Fsm.Classic.simulate_fsm (S (S fuel)) ins = Settled s /\
      cur s Fsm.Classic.fsm_state = Fsm.Classic.encode st /\
      Fsm.Classic.simulate_fsm (S (S fuel)) (ins ++ [v]) = Settled s' /\
      cur s' Fsm.Classic.fsm_state
        = Fsm.Classic.encode
            (Fsm.Classic.advance st (Fsm.Classic.changes_of s)) /\
      cur s' Fsm.Classic.outputs
        = 2 ^ Fsm.Classic.encode
                (Fsm.Classic.advance st (Fsm.Classic.changes_of s)).
Proof.
  intros fuel ins v Hlen.
  destruct (ClassicRuns.reset_count_run fuel ins) as (s & Hs & Hq & Hr).
  destruct (ClassicFacts.run_settled fuel ins) as (s0 & Hs0 & _ & Hst & _).
  rewrite Hs in Hs0. injection Hs0 as <-.
  destruct (ClassicRuns.encode_onto (cur s Fsm.Classic.fsm_state) Hst)
    as (st & Est).
  destruct (ClassicRuns.advance_tick fuel v s st Hq ltac:(lia) Est)
    as (s' & Ht & _ & _ & Hst' & Hout' & _).
  exists s, s', st. split; [exact Hs |]. split; [exact Est |].
  split; [| split; [exact Hst' | exact Hout']].
  rewrite ClassicRuns.cl_run_app, Hs.
  unfold Fsm.Classic.fsm_tb. cbn [map simulate]. rewrite Ht. reflexivity.
Qed.

(** The forward input held for 120002 cycles: its debouncer has latched,
    the machine is still in [A] and [detect_chg] shows the forward
    change; the next cycle moves the machine to [B]. *)
Lemma fsm_moves_by_input_changes_witness :
  exists s s' : Store Fsm.Classic.sig,
    Fsm.Classic.simulate_fsm 2 (repeat 1 (Z.to_nat 120002)) = Settled s /\
    cur s Fsm.Classic.fsm_state = Fsm.Classic.encode Fsm.Classic.A /\
    Fsm.Classic.changes_of s = 1 /\
    Fsm.Classic.simulate_fsm 2 (repeat 1 (Z.to_nat 120002) ++ [1])
      = Settled s' /\
    cur s' Fsm.Classic.fsm_state = Fsm.Classic.encode Fsm.Classic.B /\
    cur s' Fsm.Classic.outputs = 2.
Proof.
  destruct (fsm_moves_by_input_changes 0 (repeat 1 (Z.to_nat 120002)) 1)
    as (s & s' & st & Hs & Hst & Hs' & Hst' & Hout').
  - rewrite repeat_length. lia.
  - destruct (ClassicRuns.held_forward_pending 0 (Z.to_nat 120002))
      as (t & Ht & HA & Hch);
      [unfold Fsm.Classic.debounce_time; lia |].
    rewrite Hs in Ht. injection Ht as <-.
    assert (Est : st = Fsm.Classic.A).
    { pose proof HA as E. rewrite Hst in E.
      destruct st; first [reflexivity | discriminate E]. }
    subst st. rewrite Hch in Hst', Hout'.
    exists s, s'. split; [exact Hs |]. split; [exact HA |].
    split; [exact Hch |]. split; [exact Hs' |].
    split; [exact Hst' | exact Hout'].
Defined.

(** X15.  The four-state machine after at least three cycles: if a cycle
    leaves both debounced inputs at the level they had, [detect_chg]
    shows no change after it and the following cycle keeps the state,
    whatever the raw inputs do.  A state move needs a rising edge of a
    debounced input; a held button moves the machine once. *)
Theorem fsm_held_input_moves_nothing :
  forall (fuel : nat) (ins : list Z) (v v' : Z),
    (3 <= length ins)%nat ->
    exists s s' s'' : Store Fsm.Classic.sig,
      Fsm.Classic.simulate_fsm (S (S fuel)) ins = Settled s /\
      Fsm.Classic.simulate_fsm (S (S fuel)) (ins ++ [v]) = Settled s' /\
      Fsm.Classic.simulate_fsm (S (S fuel)) ((ins ++ [v]) ++ [v'])
        = Settled s'' /\
      (cur s' (Fsm.Classic.dbnc_inputs 0) = cur s (Fsm.Classic.dbnc_inputs 0) ->
       cur s' (Fsm.Classic.dbnc_inputs 1) = cur s (Fsm.Classic.dbnc_inputs 1) ->
       Fsm.Classic.changes_of s' = 0 /\
       cur s'' Fsm.Classic.fsm_state = cur s' Fsm.Classic.fsm_state).
Proof.
  intros fuel ins v v' Hlen.
  destruct (ClassicRuns.reset_count_run fuel ins) as (s & Hs & Hq & Hr).
  destruct (ClassicFacts.run_settled fuel ins) as (s0 & Hs0 & _ & Hst & _).
  rewrite Hs in Hs0. injection Hs0 as <-.
  destruct (ClassicRuns.encode_onto (cur s Fsm.Classic.fsm_state) Hst)
    as (st & Est).
  destruct (ClassicRuns.advance_tick fuel v s st Hq ltac:(lia) Est)
    as (s' & Ht & Hq' & Hr' & Hst' & _ & Hp').
  destruct (ClassicRuns.advance_tick fuel v' s' _ Hq' ltac:(lia) Hst')
    as (s'' & Ht' & _ & _ & Hst'' & _).
  assert (Hs' : Fsm.Classic.simulate_fsm (S (S fuel)) (ins ++ [v]) = Settled s').
  { rewrite ClassicRuns.cl_run_app, Hs.
    unfold Fsm.Classic.fsm_tb. cbn [map simulate]. rewrite Ht. reflexivity. }
  exists s, s', s''. split; [exact Hs |]. split; [exact Hs' |]. split.
  - rewrite ClassicRuns.cl_run_app, Hs'.
    unfold Fsm.Classic.fsm_tb. cbn [map simulate]. rewrite Ht'. reflexivity.
  - intros E0 E1.
    assert (Hch : Fsm.Classic.changes_of s' = 0).
    { apply (ClassicRuns.held_inputs_no_change s s'); try assumption.
      - apply (ClassicRuns.dbnc_bits_run fuel ins s Hs 0%nat). lia.
      - apply (ClassicRuns.dbnc_bits_run fuel ins s Hs 1%nat). lia. }
    split; [exact Hch |].
    rewrite Hst'', Hch, Hst'. reflexivity.
Qed.

(** The forward input held for 120002 cycles and one more, then
    released: the debounced input is high before and after the extra
    cycle, which moves the machine to [B]; no change is left to see, and
    the cycle after it keeps [B]. *)
Lemma fsm_held_input_moves_nothing_witness :
  exists s s' s'' : Store Fsm.Classic.sig,
    Fsm.Classic.simulate_fsm 2 (repeat 1 (Z.to_nat 120002)) = Settled s /\
    Fsm.Classic.simulate_fsm 2 (repeat 1 (Z.to_nat 120002) ++ [1])
      = Settled s' /\
    Fsm.Classic.simulate_fsm 2 ((repeat 1 (Z.to_nat 120002) ++ [1]) ++ [0])
      = Settled s'' /\
    cur s (Fsm.Classic.dbnc_inputs 0) = 1 /\
    cur s' (Fsm.Classic.dbnc_inputs 0) = 1 /\
    Fsm.Classic.changes_of s' = 0 /\
    cur s' Fsm.Classic.fsm_state = Fsm.Classic.encode Fsm.Classic.B /\
    cur s'' Fsm.Classic.fsm_state = Fsm.Classic.encode Fsm.Classic.B.
Proof.
  destruct (fsm_held_input_moves_nothing 0 (repeat 1 (Z.to_nat 120002)) 1 0)
    as (s & s' & s'' & Hs & Hs' & Hs'' & Hkeep).
  - rewrite repeat_length. lia.
  - destruct (ClassicRuns.held_forward_latched 0 (Z.to_nat 120002))
      as (t & Ht & Hd0 & Hd1);
      [unfold Fsm.Classic.debounce_time; lia |].
    rewrite Hs in Ht. injection Ht as <-.
    assert (Hs1 : Fsm.Classic.simulate_fsm 2 (repeat 1 (S (Z.to_nat 120002)))
                  = Settled s').
    { rewrite <- Hs'. cbn [repeat]. rewrite repeat_cons. reflexivity. }
    destruct (ClassicRuns.held_forward_latched 0 (S (Z.to_nat 120002)))
      as (t & Ht & Hd0' & Hd1');
      [unfold Fsm.Classic.debounce_time; lia |].
    rewrite Hs1 in Ht. injection Ht as <-.
    destruct (ClassicRuns.held_forward_run 0 (S (Z.to_nat 120002)))
      as (t & Ht & HB & _).
    rewrite Hs1 in Ht. injection Ht as <-.
    destruct (Z.leb_spec (Z.of_nat (S (Z.to_nat 120002)))
                         (Fsm.Classic.debounce_time + 2)) as [Hc | _];
      [unfold Fsm.Classic.debounce_time in Hc; lia |].
    destruct (Hkeep ltac:(congruence) ltac:(congruence)) as (Hch & Hst).
    exists s, s', s''. split; [exact Hs |]. split; [exact Hs' |].
    split; [exact Hs'' |]. split; [exact Hd0 |]. split; [exact Hd0' |].
    split; [exact Hch |]. split; [exact HB |].
    rewrite Hst. exact HB.
Defined.

(** X16.  The two debouncers instantiated inside the four-state machine
    behave as the stand-alone debouncer does: for every input sequence
    and for bit [i] of the inputs ([i < 2]), the countdown, the previous
    sample and the debounced level in the machine are those of a
    stand-alone debouncer with threshold 120000 fed the same bits. *)
Theorem fsm_debouncers_follow_stand_alone :
  forall (fuel fuel' : nat) (ins : list Z) (i : nat),
    (i < 2)%nat ->
    exists (s : Store Fsm.Classic.sig) (t : Store Fsm.Debouncer.sig),
      Fsm.Classic.simulate_fsm (S (S fuel)) ins = Settled s /\
      Fsm.Debouncer.simulate_buttons
        Fsm.Classic.debounce_time (S fuel')
        (map (Fsm.Classic.bit_of i) ins) = Settled t /\
      cur s (Fsm.Classic.dbcnt i) = cur t Fsm.Debouncer.dbcnt /\
      cur s (Fsm.Classic.prev_button i) = cur t Fsm.Debouncer.prev_button /\
      cur s (Fsm.Classic.dbnc_inputs i) = cur t Fsm.Debouncer.button_o.
Proof.
  intros fuel fuel' ins i Hi.
  destruct (ClassicRuns.cl_debouncer_run fuel ins) as (s & Hs & _ & Htr).
  destruct (DebouncerFacts.run_view Fsm.Classic.debounce_time fuel'
              (map (Fsm.Classic.bit_of i) ins)) as (t & Ht & Hv).
  exists s, t. split; [exact Hs |]. split; [exact Ht |].
  specialize (Htr i Hi). rewrite <- Hv in Htr.
  unfold Fsm.Classic.triple, Fsm.Debouncer.view in Htr.
  injection Htr as E1 E2 E3. repeat split; assumption.
Qed.

(** The first input bit over four cycles. *)
Lemma fsm_debouncers_follow_stand_alone_witness :
  exists (s : Store Fsm.Classic.sig) (t : Store Fsm.Debouncer.sig),
    Fsm.Classic.simulate_fsm 2 [1; 1; 0; 1] = Settled s /\
    Fsm.Debouncer.simulate_buttons
      Fsm.Classic.debounce_time 1
      (map (Fsm.Classic.bit_of 0) [1; 1; 0; 1]) = Settled t /\
    cur s (Fsm.Classic.dbcnt 0) = cur t Fsm.Debouncer.dbcnt /\
    cur s (Fsm.Classic.prev_button 0) = cur t Fsm.Debouncer.prev_button /\
    cur s (Fsm.Classic.dbnc_inputs 0) = cur t Fsm.Debouncer.button_o.
Proof.
  apply (fsm_debouncers_follow_stand_alone 0 0 [1; 1; 0; 1] 0%nat). lia.
Defined.

(** X17.  The four-state machine with the forward input held at 1 from
    power-up (input value [0b01] on every cycle): after [n] cycles the
    machine is in state [A] as long as [n <= 120002] and in state [B] for
    every larger [n]; [outputs] shows that state one-hot.  The held
    button moves the machine exactly once. *)
Theorem fsm_held_forward_moves_once :
  forall (fuel n : nat),
    exists s,
      Fsm.Classic.simulate_fsm (S (S fuel)) (repeat 1 n) = Settled s /\
      cur s Fsm.Classic.fsm_state
        = Fsm.Classic.encode
            (if Z.of_nat n <=? Fsm.Classic.debounce_time + 2
             then Fsm.Classic.A else Fsm.Classic.B) /\
      cur s Fsm.Classic.outputs
        = 2 ^ Fsm.Classic.encode
                (if Z.of_nat n <=? Fsm.Classic.debounce_time + 2
                 then Fsm.Classic.A else Fsm.Classic.B).
Proof.
  intros fuel n. apply ClassicRuns.held_forward_run.
Qed.

(** X18.  [simpler_ram] is the dual-port RAM with its two address ports
    tied together: over any sequence of in-range bench cycles, started on
    a store with nothing pending and data-width contents, both runs settle
    with the same memory and the same [data_o].  In particular a write
    cycle of [simpler_ram] also reads, and shows what the location held
    before the write. *)
Theorem simpler_ram_is_dualport_with_tied_addresses :
  forall (aw dw : Z) (fuel : nat) (ops : list (Z * Z * Z))
         (s : Store BlockRam.Bench.sig),
    Forall (BlockRam.Bench.single_op_in_range aw dw) ops ->
    quiet s ->
    (forall k, 0 <= cur s (BlockRam.Bench.mem k) < 2 ^ dw) ->
    exists s1 s2,
      BlockRam.Bench.simpler_bench aw dw (S fuel) ops s = Settled s1 /\
      BlockRam.Bench.dual_bench aw dw (S fuel)
        (map BlockRam.Bench.tied ops) s = Settled s2 /\
      (forall k, cur s1 (BlockRam.Bench.mem k)
                 = cur s2 (BlockRam.Bench.mem k)) /\
      cur s1 BlockRam.Bench.data_o = cur s2 BlockRam.Bench.data_o /\
      cur s1 BlockRam.Bench.data_o
        = snd (fold_left BlockRam.Bench.dual_step
                         (map BlockRam.Bench.tied ops)
                         (BlockRam.Bench.contents s)).
Proof.
  intros aw dw fuel ops s Hops Hq Hrange.
  destruct (RamModel.simpler_bench_model aw dw fuel ops s Hops Hq Hrange)
    as (s1 & E1 & Hm1 & Ho1).
  destruct (RamModel.dual_bench_model aw dw fuel (map BlockRam.Bench.tied ops) s
              (RamModel.tied_in_range aw dw ops Hops) Hq Hrange)
    as (s2 & E2 & Hm2 & Ho2).
  exists s1, s2. split; [exact E1 |]. split; [exact E2 |].
  split; [| split; [| exact Ho1]].
  - intros k. rewrite Hm1, Hm2. reflexivity.
  - rewrite Ho1, Ho2. reflexivity.
Qed.

(** Write 7 to address 2, then write 9 to it: the second write cycle
    reads the 7. *)
Lemma simpler_ram_is_dualport_with_tied_addresses_witness :
  exists s1,
    BlockRam.Bench.simpler_bench 8 8 1 [(1, 2, 7); (1, 2, 9)]
      (mkStore (fun _ => 0) (fun _ => 0)) = Settled s1 /\
    cur s1 (BlockRam.Bench.mem 2) = 9 /\
    cur s1 BlockRam.Bench.data_o = 7.
Proof.
  destruct (simpler_ram_is_dualport_with_tied_addresses 8 8 0
              [(1, 2, 7); (1, 2, 9)] (mkStore (fun _ => 0) (fun _ => 0)))
    as (s1 & s2 & E1 & E2 & Hm & Ho & Hv).
  - repeat constructor; cbn; lia.
  - intros x. reflexivity.
  - intros k. cbn. lia.
  - exists s1. split; [exact E1 |]. split.
    + rewrite Hm.
      assert (E : Settled s2 = BlockRam.Bench.dual_bench 8 8 1
                    (map BlockRam.Bench.tied [(1, 2, 7); (1, 2, 9)])
                    (mkStore (fun _ => 0) (fun _ => 0)))
        by (symmetry; exact E2).
      vm_compute in E. injection E as ->. reflexivity.
    + rewrite Hv. reflexivity.
Defined.

(** X19.  A register of any length [len], on a rising edge of its clock:
    every bit [j < len] of [q] takes what bit [j] of [d] held before the
    edge, all in the same edge; the bits of [q] beyond [len] and the bus
    [d] keep what was scheduled for them.  With the bits of [d] at 0 or 1
    the bus [q] reads after the edge what the bus [d] read before it. *)
Theorem register_loads_whole_bus :
  forall (len : nat) (s : Store Blinker.RegBench.sig),
    (forall k, (k < len)%nat ->
               cur s (Blinker.RegBench.d k) = 0 \/
               cur s (Blinker.RegBench.d k) = 1) ->
    (forall j, (j < len)%nat ->
       cur (clock_edge Blinker.RegBench.sig_eq_dec Blinker.RegBench.width
                       (Blinker.RegBench.design len)
                       Blinker.RegBench.clk Rising s)
           (Blinker.RegBench.q j)
       = cur s (Blinker.RegBench.d j)) /\
    (forall j, (len <= j)%nat ->
       cur (clock_edge Blinker.RegBench.sig_eq_dec Blinker.RegBench.width
                       (Blinker.RegBench.design len)
                       Blinker.RegBench.clk Rising s)
           (Blinker.RegBench.q j)
       = nxt s (Blinker.RegBench.q j)) /\
    (forall j,
       cur (clock_edge Blinker.RegBench.sig_eq_dec Blinker.RegBench.width
                       (Blinker.RegBench.design len)
                       Blinker.RegBench.clk Rising s)
           (Blinker.RegBench.d j)
       = nxt s (Blinker.RegBench.d j)) /\
    bus_value Blinker.RegBench.q len
      (clock_edge Blinker.RegBench.sig_eq_dec Blinker.RegBench.width
                  (Blinker.RegBench.design len)
                  Blinker.RegBench.clk Rising s)
    = bus_value Blinker.RegBench.d len s.
Proof.
  intros len s Hbits. split; [| split; [| split]].
  - intros j Hj. rewrite RegisterFacts.register_edge.
    destruct (Nat.ltb_spec j len) as [_ | Hge]; [| lia].
    destruct (Hbits j Hj) as [-> | ->]; reflexivity.
  - intros j Hj. rewrite RegisterFacts.register_edge.
    destruct (Nat.ltb_spec j len) as [Hlt | _]; [lia | reflexivity].
  - intros j. apply RegisterFacts.register_edge_frame.
    intros k. discriminate.
  - apply RegisterFacts.register_edge_bus; [lia | exact Hbits].
Qed.

(** Three bits, [d = 0b101]. *)
Lemma register_loads_whole_bus_witness :
  bus_value Blinker.RegBench.q 3
    (clock_edge Blinker.RegBench.sig_eq_dec Blinker.RegBench.width
                (Blinker.RegBench.design 3) Blinker.RegBench.clk Rising
                (mkStore
                   (fun x => match x with
                             | Blinker.RegBench.d 0 => 1
                             | Blinker.RegBench.d 2 => 1
                             | _ => 0
                             end)
                   (fun _ => 0)))
  = 5.
Proof.
  destruct (register_loads_whole_bus 3
              (mkStore
                 (fun x => match x with
                           | Blinker.RegBench.d 0 => 1
                           | Blinker.RegBench.d 2 => 1
                           | _ => 0
                           end)
                 (fun _ => 0)))
    as (_ & _ & _ & H).
  - intros k Hk. destruct k as [| [| [| k]]]; cbn; lia.
  - rewrite H. reflexivity.
Defined.

End Extras.
